(** * sat-math-bot: question navigation, answer evaluation and statistics

    A shallow embedding of [main.py] (the Telegram handlers and the
    in-memory per-user state) and of [db.py] (the analytics queries and
    the write functions behind [get_conn]), with the properties the
    specification states about them and further properties of the code.

    Conventions of the embedding:
    - a Python [str] is a [string]; Python [int]s are [Z], counters that
      only ever grow from 0 are [nat];
    - dicts whose iteration order the code relies on ([QUESTION_INDEX],
      [TOPIC_INDEX], [TOPIC_NAME_MAP], [by_diff], a question's [options])
      are insertion-ordered association lists ([od_get], [od_set]); the
      per-user dicts [USER_PROGRESS] and [USER_STATS], which are only read
      and written by key, are [gmap Z _]; Python sets are [gset];
    - a handler is a computation in the monad [M]: it threads the bot's
      mutable globals and the trace of outgoing Telegram calls, and an
      exception keeps what was mutated and sent before it was raised. *)

From Stdlib Require Import ZArith Ascii String List Lia.
From stdpp Require Import base decidable option list sorting gmap strings pretty.

Local Open Scope string_scope.
Local Open Scope Z_scope.

(** ** Python values and dictionaries *)

Module Py.

(** The exceptions the modelled code can raise. *)
Inductive exn : Type :=
  | KeyError
  | ValueError
  | IndexError
  | RuntimeError
  | DatabaseError.

(** The result of an expression that may raise, and the rest of the
    expression applied to its value. *)
Global Instance result_fmap : FMap (sum exn) := λ A B f r,
  match r with
  | inr a => inr (f a)
  | inl e => inl e
  end.

Definition nl : string := String (ascii_of_nat 10) "".

(** Truthiness of the result of [dict.get] on a string-valued field. *)
Definition truthy (o : option string) : bool :=
  match o with
  | Some s => negb (String.eqb s "")
  | None => false
  end.

(** [a or b] *)
Definition or_ (a b : option string) : option string :=
  if truthy a then a else b.

(** [a or "literal"]: the right operand is a string, so is the result when
    the left one is falsy. *)
Definition or_str (a : option string) (b : string) : string :=
  match a with
  | Some s => if String.eqb s "" then b else s
  | None => b
  end.

Section odict.
Context {K V : Type} `{EqDecision K}.

(** [d.get(k)] *)
Fixpoint od_get (d : list (K * V)) (k : K) : option V :=
  match d with
  | [] => None
  | (k', v) :: d' => if decide (k' = k) then Some v else od_get d' k
  end.

(** [d[k] = v]: an existing key keeps its place, a new one goes last. *)
Fixpoint od_set (d : list (K * V)) (k : K) (v : V) : list (K * V) :=
  match d with
  | [] => [(k, v)]
  | (k', v') :: d' =>
      if decide (k' = k) then (k', v) :: d' else (k', v') :: od_set d' k v
  end.

(** [k in d] *)
Definition od_mem (d : list (K * V)) (k : K) : bool :=
  match od_get d k with Some _ => true | None => false end.

Definition od_keys (d : list (K * V)) : list K := map fst d.
End odict.

End Py.
Import Py.

(** ** Data model *)

(** A question record of [questions.json]. A field is [None] when the key
    is absent; the fields the code reads are modelled with string values. *)
Record Question : Type := mkQuestion {
  q_id : option string;
  q_question_kg : option string;
  q_text : option string;
  q_options : option (list (string * string));
  q_answer : option string;
  q_correct : option string;
  q_explanation_kg : option string;
  q_explanation : option string;
  q_difficulty : option string;
  q_topic : option string;
  q_image : option string
}.

(** [USER_PROGRESS[user_id]]: [{"difficulty": ..., "index": ...}] *)
Record Progress : Type := mkProgress {
  p_difficulty : string;
  p_index : nat
}.

(** One entry of [by_diff]: [{"total": ..., "correct": ...}] *)
Record DiffStats : Type := mkDiffStats {
  d_total : nat;
  d_correct : nat
}.

(** [USER_STATS[user_id]] *)
Record Stats : Type := mkStats {
  total : nat;
  correct : nat;
  by_diff : list (string * DiffStats);
  wrong_qnums : gset string
}.

(** ** Statistics ledger *)

(** [get_user_stats]: creates the entry when the user has none, and returns
    it together with the updated [USER_STATS]. *)
Definition get_user_stats (user_id : Z) (USER_STATS : gmap Z Stats)
  : Stats * gmap Z Stats :=
  match USER_STATS !! user_id with
  | Some stats => (stats, USER_STATS)
  | None =>
      let fresh := mkStats 0 0 [] ∅ in
      (fresh, <[user_id := fresh]> USER_STATS)
  end.

Definition update_stats (user_id : Z) (question : Question) (qnum : string)
    (is_correct : bool) (USER_STATS : gmap Z Stats) : gmap Z Stats :=
  let '(stats, USER_STATS) := get_user_stats user_id USER_STATS in
  let total' := (total stats + 1)%nat in
  let correct' := if is_correct then (correct stats + 1)%nat else correct stats in
  (* diff = question.get("difficulty", "unknown") *)
  let diff := default "unknown" (q_difficulty question) in
  (* by_diff = stats["by_diff"].setdefault(diff, {"total": 0, "correct": 0}) *)
  let entry := default (mkDiffStats 0 0) (od_get (by_diff stats) diff) in
  let entry' :=
    mkDiffStats (d_total entry + 1)%nat
      (if is_correct then (d_correct entry + 1)%nat else d_correct entry) in
  let by_diff' := od_set (by_diff stats) diff entry' in
  let wrong' :=
    if is_correct then wrong_qnums stats ∖ {[qnum]}
    else wrong_qnums stats ∪ {[qnum]} in
  <[user_id := mkStats total' correct' by_diff' wrong']> USER_STATS.

(** A recorded call of [update_stats], and a run of several of them. *)
Record StatsCall : Type := mkStatsCall {
  sc_user : Z;
  sc_question : Question;
  sc_qnum : string;
  sc_is_correct : bool
}.

Definition apply_call (m : gmap Z Stats) (c : StatsCall) : gmap Z Stats :=
  update_stats (sc_user c) (sc_question c) (sc_qnum c) (sc_is_correct c) m.

Definition run_calls (m : gmap Z Stats) (cs : list StatsCall) : gmap Z Stats :=
  foldl apply_call m cs.

Definition sum_total (d : list (string * DiffStats)) : nat :=
  sum_list (map (λ kv, d_total kv.2) d).

Definition sum_correct (d : list (string * DiffStats)) : nat :=
  sum_list (map (λ kv, d_correct kv.2) d).

(** [total == sum(by_diff[*].total)] and [correct == sum(by_diff[*].correct)] *)
Definition stats_consistent (s : Stats) : Prop :=
  total s = sum_total (by_diff s) ∧ correct s = sum_correct (by_diff s).

(** The wrong-set of a user; empty when the user has no entry. *)
Definition wrong_of (m : gmap Z Stats) (user_id : Z) : gset string :=
  match m !! user_id with
  | Some s => wrong_qnums s
  | None => ∅
  end.


(** ** Text

    Message texts and callback data are [string]s of 8-bit characters (the
    UTF-8 encoding of the Python [str]). Whitespace and digits are the ASCII
    ones; the non-ASCII characters that Python's [isspace] and [isdigit]
    also accept are not modelled. Case folding, float formatting, the file
    system and [int] on text that is not ASCII are left to the [Runtime]. *)

Class Runtime : Type := {
  (** [str.lower] *)
  lower : string → string;
  (** [f"{(c / t) * 100:.1f}"] for [t > 0] *)
  fmt_pct : nat → nat → string;
  (** [(BASE_DIR / path).exists()] *)
  path_exists : string → bool;
  (** [int(s)] for a text [s] with a character that is not ASCII (Unicode
      decimal digits and whitespace are accepted there) *)
  int_unicode : string → exn + Z
}.

Module Str.

(** [c.isspace()] on an ASCII character *)
Definition isspace (a : ascii) : bool :=
  let n := nat_of_ascii a in
  ((9 <=? n) && (n <=? 13) || (28 <=? n) && (n <=? 32))%nat.

(** [c.isdigit()] on an ASCII character *)
Definition isdigit_char (a : ascii) : bool :=
  let n := nat_of_ascii a in
  ((48 <=? n) && (n <=? 57))%nat.

Fixpoint all_chars (f : ascii → bool) (s : string) : bool :=
  match s with
  | EmptyString => true
  | String a s' => f a && all_chars f s'
  end.

(** [s.isdigit()]: false on the empty string *)
Definition isdigit (s : string) : bool :=
  negb (String.eqb s "") && all_chars isdigit_char s.

(** [s.startswith(p)] *)
Definition startswith (s p : string) : bool := String.prefix p s.

(** [s.lstrip()] *)
Fixpoint lstrip (s : string) : string :=
  match s with
  | EmptyString => ""
  | String a s' => if isspace a then lstrip s' else s
  end.

(** [s.rstrip()] *)
Fixpoint rstrip (s : string) : string :=
  match s with
  | EmptyString => ""
  | String a s' =>
      let r := rstrip s' in
      if isspace a && String.eqb r "" then "" else String a r
  end.

(** [s.strip()] *)
Definition strip (s : string) : string := rstrip (lstrip s).

(** The word that starts at the head of [s] (empty when [s] starts with
    whitespace) and the words after it. *)
Fixpoint words (s : string) : string * list string :=
  match s with
  | EmptyString => ("", [])
  | String a s' =>
      let '(w, ws) := words s' in
      if isspace a then ("", if String.eqb w "" then ws else w :: ws)
      else (String a w, ws)
  end.

(** [s.split()] *)
Definition split (s : string) : list string :=
  let '(w, ws) := words s in
  if String.eqb w "" then ws else w :: ws.

(** The longest whitespace-free prefix of [s] and what follows it. *)
Fixpoint span_word (s : string) : string * string :=
  match s with
  | EmptyString => ("", "")
  | String a s' =>
      if isspace a then ("", s)
      else let '(w, r) := span_word s' in (String a w, r)
  end.

(** [s.split(maxsplit=1)]: the remainder keeps its trailing whitespace. *)
Definition split_max1 (s : string) : list string :=
  let s0 := lstrip s in
  if String.eqb s0 "" then []
  else
    let '(w, r) := span_word s0 in
    let r0 := lstrip r in
    if String.eqb r0 "" then [w] else [w; r0].

(** [s.split(sep)] for a one-character separator: empty fields are kept
    and the result is never empty. *)
Fixpoint split_on (sep : ascii) (s : string) : list string :=
  match s with
  | EmptyString => [""]
  | String a s' =>
      if Ascii.eqb a sep then "" :: split_on sep s'
      else
        match split_on sep s' with
        | w :: ws => String a w :: ws
        | [] => [String a ""]
        end
  end.

(** [sep.join(l)] *)
Fixpoint join (sep : string) (l : list string) : string :=
  match l with
  | [] => ""
  | [x] => x
  | x :: l' => x ++ sep ++ join sep l'
  end.

Definition digit_val (a : ascii) : option Z :=
  if isdigit_char a then Some (Z.of_nat (nat_of_ascii a) - 48) else None.

(** The digits of an integer literal, most significant first; single
    underscores are allowed between digits. *)
Fixpoint int_digits (acc : Z) (s : string) : option Z :=
  match s with
  | EmptyString => None
  | String a s' =>
      match digit_val a with
      | None => None
      | Some d =>
          let acc' := acc * 10 + d in
          match s' with
          | EmptyString => Some acc'
          | String "_"%char s'' => int_digits acc' s''
          | String _ _ => int_digits acc' s'
          end
      end
  end.

(** The whitespace that [int] skips around an ASCII literal: tab to
    carriage return, and the space. The separators [0x1C] to [0x1F], which
    [isspace] and [strip] take for whitespace, are not among it. *)
Definition isspace_c (a : ascii) : bool :=
  let n := nat_of_ascii a in
  ((9 <=? n) && (n <=? 13) || (n =? 32))%nat.

Fixpoint lstrip_c (s : string) : string :=
  match s with
  | EmptyString => ""
  | String a s' => if isspace_c a then lstrip_c s' else s
  end.

Fixpoint rstrip_c (s : string) : string :=
  match s with
  | EmptyString => ""
  | String a s' =>
      let r := rstrip_c s' in
      if isspace_c a && String.eqb r "" then "" else String a r
  end.

Definition is_ascii (s : string) : bool :=
  all_chars (λ a, (nat_of_ascii a <? 128)%nat) s.

(** [int(s)] on ASCII text: surrounding whitespace and a sign are accepted;
    anything else around the digits is a [ValueError]. (The cap on the
    number of digits is not modelled: callback data is at most 64 bytes.) *)
Definition int_ascii (s : string) : exn + Z :=
  let t := rstrip_c (lstrip_c s) in
  let r :=
    match t with
    | String "-"%char d => Z.opp <$> int_digits 0 d
    | String "+"%char d => int_digits 0 d
    | _ => int_digits 0 t
    end in
  match r with
  | Some z => inr z
  | None => inl ValueError
  end.

(** [int(s)] *)
Definition int `{Runtime} (s : string) : exn + Z :=
  if is_ascii s then int_ascii s else int_unicode s.

(** [str(z)] *)
Definition str (z : Z) : string := pretty z.

(** [f"{o}"] for a value that may be [None] *)
Definition fmt_opt (o : option string) : string := default "None" o.

End Str.

(** ** Catalog *)

(** The module globals that [load_questions] fills and nothing else
    writes. *)
Record Catalog : Type := mkCatalog {
  QUESTIONS : list Question;
  ORDERED_QUESTIONS : list Question;
  QUESTION_INDEX : list (string * Question);
  TOPIC_INDEX : list (string * list string);
  TOPIC_NAME_MAP : list (string * string)
}.

(** A dict comprehension [{k: v for ...}] over the pairs of [l]. *)
Definition od_of_list {K V} `{EqDecision K} (l : list (K * V)) : list (K * V) :=
  foldl (λ d kv, od_set d kv.1 kv.2) [] l.

(** [enumerate(l)], counting from [i] *)
Fixpoint enumerate_from {A} (i : nat) (l : list A) : list (nat * A) :=
  match l with
  | [] => []
  | x :: l' => (i, x) :: enumerate_from (S i) l'
  end.

(** [(str(i + 1), q) for i, q in enumerate(ORDERED_QUESTIONS)] *)
Definition index_items (qs : list Question) : list (string * Question) :=
  map (λ iq, (Str.str (Z.of_nat iq.1 + 1), iq.2)) (enumerate_from 0 qs).

(** One step of the loop that builds [TOPIC_INDEX]:
    [TOPIC_INDEX.setdefault(topic_str, []).append(qnum)] when [topic] is
    truthy. *)
Definition add_topic (idx : list (string * list string))
    (item : string * Question) : list (string * list string) :=
  match q_topic item.2 with
  | Some topic =>
      if String.eqb topic "" then idx
      else od_set idx topic (default [] (od_get idx topic) ++ [item.1])%list
  | None => idx
  end.

Definition load_questions `{Runtime} (json : list Question) : Catalog :=
  let index := od_of_list (index_items json) in
  let topics := foldl add_topic [] index in
  {| QUESTIONS := json;
     ORDERED_QUESTIONS := json;
     QUESTION_INDEX := index;
     TOPIC_INDEX := topics;
     TOPIC_NAME_MAP := od_of_list (map (λ t, (lower t, t)) (od_keys topics)) |}.

(** ** Bot state and outgoing calls *)

(** The mutable module globals. *)
Record State : Type := mkState {
  USER_PROGRESS : gmap Z Progress;
  SEEN_USERS : gset Z;
  USER_STATS : gmap Z Stats
}.

Record Button : Type := mkButton {
  b_text : string;
  b_callback_data : string
}.

(** An [InlineKeyboardBuilder]: its buttons in the order added and the row
    sizes given to [adjust]. *)
Record Keyboard : Type := mkKeyboard {
  kb_buttons : list Button;
  kb_adjust : list nat
}.

(** A call to the Telegram API. [Answer] is [message.answer] or
    [callback.message.answer], which goes to the chat of the incoming
    update. *)
Inductive Out : Type :=
  | Answer (text : string) (reply_markup : option Keyboard)
  | SendMessage (chat_id : Z) (text : string) (reply_markup : option Keyboard)
  | SendPhoto (chat_id : Z) (photo : string) (caption : string)
      (reply_markup : Keyboard)
  | CallbackAnswer.

Record World : Type := mkWorld {
  globals : State;
  sent : list Out
}.

(** A computation that reads and writes the [World] and returns a value or
    raises; what was done before a [raise] stays done. *)
Definition M (A : Type) : Type := World → (exn + A) * World.

Global Instance M_ret : MRet M := λ A a w, (inr a, w).
Global Instance M_bind : MBind M := λ A B f m w,
  match m w with
  | (inl e, w') => (inl e, w')
  | (inr a, w') => f a w'
  end.

Definition raise {A} (e : exn) : M A := λ w, (inl e, w).

(** Lifts a lookup that may fail. *)
Definition lift {A} (r : exn + A) : M A := λ w, (r, w).

Definition get_state : M State := λ w, (inr (globals w), w).

Definition modify (f : State → State) : M unit :=
  λ w, (inr tt, mkWorld (f (globals w)) (sent w)).

Definition emit (o : Out) : M unit :=
  λ w, (inr tt, mkWorld (globals w) (sent w ++ [o])%list).

(** [d[k]] on a field that may be absent *)
Definition getitem {A} (o : option A) : M A :=
  match o with
  | Some a => mret a
  | None => raise KeyError
  end.

Definition set_progress (user_id : Z) (p : Progress) (s : State) : State :=
  mkState (<[user_id := p]> (USER_PROGRESS s)) (SEEN_USERS s) (USER_STATS s).

Definition set_stats (f : gmap Z Stats → gmap Z Stats) (s : State) : State :=
  mkState (USER_PROGRESS s) (SEEN_USERS s) (f (USER_STATS s)).

Definition add_seen (user_id : Z) (s : State) : State :=
  mkState (USER_PROGRESS s) (SEEN_USERS s ∪ {[user_id]}) (USER_STATS s).

(** [random.randint(1, n)], drawing from the entropy [rnd] *)
Definition randint1 (n : nat) (rnd : nat) : M nat :=
  if (n =? 0)%nat then raise ValueError else mret (1 + rnd mod n)%nat.

(** [random.choice(l)] *)
Definition choice {A} (l : list A) (rnd : nat) : M A :=
  match l !! (rnd mod length l)%nat with
  | Some x => mret x
  | None => raise IndexError
  end.

(** ** Handlers *)

Section handlers.
Context `{Runtime} (cat : Catalog).

(** [get_questions_by_difficulty] *)
Definition get_questions_by_difficulty (difficulty : string) : list Question :=
  filter (λ q, q_difficulty q = Some difficulty) (QUESTIONS cat).

(** The answer buttons: [q['id']] is read once per option letter. *)
Definition answer_buttons (q : Question) (options : list (string * string))
    (nav_mode : string) (qnum : option string) : M (list Button) :=
  match options with
  | [] => mret []
  | _ :: _ =>
      id ← getitem (q_id q);
      mret (map (λ lt : string * string,
                   mkButton lt.1
                     ("answer|" ++ id ++ "|" ++ lt.1 ++ "|" ++ nav_mode ++ "|"
                      ++ Str.fmt_opt qnum))
                options)
  end.

Definition send_question_universal (user_id : Z) (q : Question)
    (qnum : option string) (nav_mode : string) : M unit :=
  let question_text := or_str (or_ (q_question_kg q) (q_text q)) "Суроо жок" in
  options ← getitem (q_options q);
  let options_block :=
    Str.join nl (map (λ lt : string * string, lt.1 ++ ") " ++ lt.2) options) in
  let header :=
    "Суроо " ++ Str.fmt_opt qnum ++ " / "
    ++ pretty (length (ORDERED_QUESTIONS cat)) in
  let msg :=
    header ++ nl ++ "────────────────────────" ++ nl
    ++ question_text ++ nl ++ nl
    ++ "Жооп варианттары:" ++ nl ++ options_block in
  answers ← answer_buttons q options nav_mode qnum;
  let kb :=
    mkKeyboard
      (app answers
         [mkButton "⬅️ Previous" ("nav_prev|" ++ Str.fmt_opt qnum);
          mkButton "➡️ Next" ("nav_next|" ++ Str.fmt_opt qnum)])
      [4; 2]%nat in
  if truthy (q_image q) && path_exists (default "" (q_image q))
  then emit (SendPhoto user_id (default "" (q_image q)) msg kb)
  else emit (SendMessage user_id msg (Some kb)).

(** The scan for the global position of [q]: the first entry of
    [QUESTION_INDEX] with the same [id]. *)
Fixpoint find_qnum (items : list (string * Question)) (q : Question)
  : M (option string) :=
  match items with
  | [] => mret None
  | (num, obj) :: items' =>
      obj_id ← getitem (q_id obj);
      qid ← getitem (q_id q);
      if String.eqb obj_id qid then mret (Some num) else find_qnum items' q
  end.

Definition level_empty_msg : string := "Бул деңгээлде суроолор жок.".
Definition level_done_msg : string :=
  "Бул деңгээлдеги бардык суроолорду бүттүң.".

Definition send_sequential (user_id : Z) (difficulty : string) : M unit :=
  let questions := get_questions_by_difficulty difficulty in
  match questions with
  | [] => emit (SendMessage user_id level_empty_msg None)
  | _ :: _ =>
      s ← get_state;
      progress ←
        match USER_PROGRESS s !! user_id with
        | Some progress =>
            if String.eqb (p_difficulty progress) difficulty
            then mret progress
            else
              let progress := mkProgress difficulty 0 in
              modify (set_progress user_id progress);; mret progress
        | None =>
            let progress := mkProgress difficulty 0 in
            modify (set_progress user_id progress);; mret progress
        end;
      let idx := p_index progress in
      match questions !! idx with
      | None => emit (SendMessage user_id level_done_msg None)
      | Some q =>
          qnum ← find_qnum (QUESTION_INDEX cat) q;
          send_question_universal user_id q qnum "sequential"
      end
  end.

Definition intro_text : string :=
  "Салам! 👋 Бул бот SAT Math суроолорун кыргызча берёт: A/B/C/D варианттары, сүрөттөр, түшүндүрмө, Previous/Next навигациясы."
  ++ nl ++ nl ++ "Командалар:" ++ nl
  ++ "• /random — рандом суроо" ++ nl
  ++ "• /goto 25 — номер боюнча өтүү" ++ nl
  ++ "• /stats — статистика" ++ nl
  ++ "• /review_wrong — ката суроолор" ++ nl
  ++ "• /topics — темалар" ++ nl ++ nl
  ++ "🇬🇧 English: SAT Math practice in Kyrgyz: images, explanations, navigation.".

Definition send_intro : M unit :=
  let kb :=
    mkKeyboard
      [mkButton "Жеңил" "level|easy";
       mkButton "Орточо" "level|medium";
       mkButton "Кыйын" "level|hard";
       mkButton "🎲 Random суроо" "intro_random";
       mkButton "ℹ️ Командалар" "intro_help"]
      [1%nat] in
  emit (Answer intro_text (Some kb)).

Definition start_handler (user_id : Z) : M unit :=
  modify (add_seen user_id);;
  send_intro.

(** [a, b = l] *)
Definition unpack2 (l : list string) : M (string * string) :=
  match l with
  | [a; b] => mret (a, b)
  | _ => raise ValueError
  end.

Definition level_handler (user_id : Z) (data : string) : M unit :=
  '(_, difficulty) ← unpack2 (Str.split_on "|" data);
  modify (set_progress user_id (mkProgress difficulty 0));;
  emit (Answer ("Тандалды: " ++ difficulty ++ nl ++ "Мына биринчи суроо:") None);;
  send_sequential user_id difficulty;;
  emit CallbackAnswer.

(** [q = QUESTION_INDEX[qnum]] *)
Definition index_at (qnum : string) : M Question :=
  getitem (od_get (QUESTION_INDEX cat) qnum).

(** [str(random.randint(1, len(ORDERED_QUESTIONS)))] and the question
    there. *)
Definition random_question (user_id : Z) (rnd : nat) : M unit :=
  n ← randint1 (length (ORDERED_QUESTIONS cat)) rnd;
  let qnum := Str.str (Z.of_nat n) in
  q ← index_at qnum;
  send_question_universal user_id q (Some qnum) "manual".

Definition intro_random (user_id : Z) (rnd : nat) : M unit :=
  random_question user_id rnd;;
  emit CallbackAnswer.

Definition help_text : string :=
  "Негизги командалар:" ++ nl
  ++ "• /start — баштапкы меню" ++ nl
  ++ "• /random — рандом суроо" ++ nl
  ++ "• /goto 25 — 25-суроого өтүү" ++ nl
  ++ "• /stats — сенин статистикаң" ++ nl
  ++ "• /review_wrong — мурун ката кеткен суроолор" ++ nl
  ++ "• /topics — бардык темалар" ++ nl
  ++ "• /topic Algebra — белгилүү тема боюнча суроо".

Definition intro_help : M unit :=
  emit (Answer help_text None);;
  emit CallbackAnswer.

Definition goto_format_msg : string := "Туура формат: /goto 59".
Definition goto_missing_msg : string := "Бул номердеги суроо жок.".

Definition goto_handler (user_id : Z) (text : string) : M unit :=
  match Str.split text with
  | [_; qnum] =>
      if negb (Str.isdigit qnum) then emit (Answer goto_format_msg None)
      else
        match od_get (QUESTION_INDEX cat) qnum with
        | None => emit (Answer goto_missing_msg None)
        | Some q => send_question_universal user_id q (Some qnum) "manual"
        end
  | _ => emit (Answer goto_format_msg None)
  end.

Definition random_handler (user_id : Z) (rnd : nat) : M unit :=
  random_question user_id rnd.

Definition no_stats_msg : string :=
  "Азырынча статистика жок. Адегенде суроолорду чеч.".

Definition pct (c t : nat) : string :=
  if (0 <? t)%nat then fmt_pct c t else "0.0".

Definition stats_handler (user_id : Z) : M unit :=
  s ← get_state;
  match USER_STATS s !! user_id with
  | None => emit (Answer no_stats_msg None)
  | Some stats =>
      if (total stats =? 0)%nat then emit (Answer no_stats_msg None)
      else
        let head :=
          ["📊 Сенин статистикаң:";
           "Бардык суроолор: " ++ pretty (total stats);
           "Туура жооптор: " ++ pretty (correct stats)
             ++ " (" ++ pct (correct stats) (total stats) ++ "%)";
           ""] in
        let levels :=
          match by_diff stats with
          | [] => ["Деңгээл боюнча маалымат жок."]
          | _ :: _ =>
              "Деңгээл боюнча:" ::
              map (λ dd : string * DiffStats,
                     "• " ++ dd.1 ++ ": " ++ pretty (d_correct dd.2) ++ "/"
                     ++ pretty (d_total dd.2)
                     ++ " (" ++ pct (d_correct dd.2) (d_total dd.2) ++ "%)")
                  (by_diff stats)
          end in
        let wrong := elements (wrong_qnums stats) in
        let tail :=
          (nl ++ "Кайталай турган суроолор (wrong): " ++ pretty (length wrong))
          :: match wrong with
             | [] => []
             | _ :: _ => ["Мисалы: " ++ Str.join ", " (take 10 wrong)]
             end in
        emit (Answer (Str.join nl (head ++ levels ++ tail)%list) None)
  end.

Definition no_wrong_msg : string :=
  "Азырынча ката суроолор жок же баарын оңдогонсүң. 👌".

Definition review_wrong_handler (user_id : Z) (rnd : nat) : M unit :=
  s ← get_state;
  match USER_STATS s !! user_id with
  | None => emit (Answer no_wrong_msg None)
  | Some stats =>
      match elements (wrong_qnums stats) with
      | [] => emit (Answer no_wrong_msg None)
      | wrong =>
          qnum ← choice wrong rnd;
          q ← index_at qnum;
          send_question_universal user_id q (Some qnum) "review"
      end
  end.

(** [sorted(TOPIC_INDEX.items())] orders by topic name; the order is taken
    from [merge_sort] on the byte strings. *)
Definition topics_sorted : list (string * list string) :=
  merge_sort (λ a b : string * list string, Is_true (String.leb a.1 b.1))
    (TOPIC_INDEX cat).

Definition topics_handler : M unit :=
  match TOPIC_INDEX cat with
  | [] => emit (Answer "Азырынча темалар белгиленген эмес." None)
  | _ :: _ =>
      let items :=
        map (λ tl : string * list string,
               "• " ++ tl.1 ++ " (" ++ pretty (length tl.2) ++ " суроо)")
          topics_sorted in
      let usage :=
        nl ++ "Белгилүү темадан суроо алуу үчүн:" ++ nl
        ++ "/topic <аталыш>" ++ nl ++ "Мисалы: /topic Algebra" in
      let lines := ("Бар болгон темалар:" :: items ++ [usage])%list in
      emit (Answer (Str.join nl lines) None)
  end.

Definition topic_format_msg : string := "Туура формат: /topic Algebra".
Definition topic_missing_msg : string :=
  "Мындай тема табылган жок. /topics командасын кара.".

(** The loop over [TOPIC_NAME_MAP.items()]: the first lowercased name that
    starts with [query]. *)
Fixpoint first_prefix (items : list (string * string)) (query : string)
  : option string :=
  match items with
  | [] => None
  | (low, canon) :: items' =>
      if Str.startswith low query then Some canon else first_prefix items' query
  end.

(** The resolution of a normalised query in [topic_handler]. *)
Definition resolve_topic (query : string) : option string :=
  match od_get (TOPIC_NAME_MAP cat) query with
  | Some canon => Some canon
  | None => first_prefix (TOPIC_NAME_MAP cat) query
  end.

(** The end of [topic_handler], once the topic is resolved: a random
    question of [TOPIC_INDEX[topic_canonical]], in manual mode. *)
Definition send_topic_question (user_id : Z) (topic_canonical : string)
    (rnd : nat) : M unit :=
  qnums ← getitem (od_get (TOPIC_INDEX cat) topic_canonical);
  qnum ← choice qnums rnd;
  q ← index_at qnum;
  send_question_universal user_id q (Some qnum) "manual".

Definition topic_handler (user_id : Z) (text : string) (rnd : nat) : M unit :=
  match Str.split_max1 text with
  | [_; arg] =>
      let query := lower (Str.strip arg) in
      if truthy (resolve_topic query) then
        send_topic_question user_id (default "" (resolve_topic query)) rnd
      else emit (Answer topic_missing_msg None)
  | _ => emit (Answer topic_format_msg None)
  end.

Definition first_question_msg : string := "Бул биринчи суроо.".
Definition last_question_msg : string := "Бул акыркы суроо.".

Definition nav_prev (user_id : Z) (data : string) : M unit :=
  '(_, qnum) ← unpack2 (Str.split_on "|" data);
  cur ← lift (Str.int qnum);
  let prev_num := Str.str (cur - 1) in
  match od_get (QUESTION_INDEX cat) prev_num with
  | None =>
      emit (Answer first_question_msg None);;
      emit CallbackAnswer
  | Some q =>
      send_question_universal user_id q (Some prev_num) "manual";;
      emit CallbackAnswer
  end.

Definition nav_next (user_id : Z) (data : string) : M unit :=
  '(_, qnum) ← unpack2 (Str.split_on "|" data);
  cur ← lift (Str.int qnum);
  let next_num := Str.str (cur + 1) in
  match od_get (QUESTION_INDEX cat) next_num with
  | None =>
      emit (Answer last_question_msg None);;
      emit CallbackAnswer
  | Some q =>
      send_question_universal user_id q (Some next_num) "manual";;
      emit CallbackAnswer
  end.

(** [_, qid, choice, nav_mode, qnum = l] *)
Definition unpack5 (l : list string)
  : M (string * string * string * string * string) :=
  match l with
  | [a; b; c; d; e] => mret (a, b, c, d, e)
  | _ => raise ValueError
  end.

(** [q.get("answer") or q.get("correct")] *)
Definition correct_letter (q : Question) : option string :=
  or_ (q_answer q) (q_correct q).

(** [q.get("explanation_kg") or q.get("explanation") or ""] *)
Definition explanation_of (q : Question) : string :=
  or_str (or_ (q_explanation_kg q) (q_explanation q)) "".

(** [choice == correct] *)
Definition is_correct_choice (choice : string) (q : Question) : bool :=
  bool_decide (Some choice = correct_letter q).

(** [q['options'][correct]] *)
Definition correct_option_text (q : Question) : M string :=
  options ← getitem (q_options q);
  match correct_letter q with
  | Some letter => getitem (od_get options letter)
  | None => raise KeyError
  end.

Definition feedback_text (result : string) (q : Question) : string :=
  result ++ nl ++ nl ++ "Түшүндүрмө:" ++ nl ++ explanation_of q.

Definition right_msg : string := "✅ Туура!".

Definition wrong_msg (letter : option string) (text : string) : string :=
  "❌ Туура эмес." ++ nl ++ "Туура жооп: " ++ Str.fmt_opt letter ++ ") " ++ text.

(** The [if is_correct: ... else: ...] block that builds [result]. *)
Definition answer_result (is_correct : bool) (q : Question) : M string :=
  if is_correct then mret right_msg
  else
    text ← correct_option_text q;
    mret (wrong_msg (correct_letter q) text).

(** The block under [# SEQUENTIAL navigation]: advance the cursor and send
    the next question of the level. *)
Definition continue_sequential (user_id : Z) (nav_mode : string) : M unit :=
  if String.eqb nav_mode "sequential" then
    s ← get_state;
    match USER_PROGRESS s !! user_id with
    | Some progress =>
        let progress :=
          mkProgress (p_difficulty progress) (p_index progress + 1)%nat in
        modify (set_progress user_id progress);;
        send_sequential user_id (p_difficulty progress)
    | None => mret tt
    end
  else mret tt.

Definition answer_handler (user_id : Z) (data : string) : M unit :=
  '(_, qid, choice, nav_mode, qnum) ← unpack5 (Str.split_on "|" data);
  q ← index_at qnum;
  let is_correct := is_correct_choice choice q in
  modify (set_stats (update_stats user_id q qnum is_correct));;
  result ← answer_result is_correct q;
  emit (Answer (feedback_text result q) None);;
  continue_sequential user_id nav_mode;;
  emit CallbackAnswer.

Definition fallback_msg : string :=
  "Команда түшүнүксүз." ++ nl
  ++ "Колдонсоң болот:" ++ nl
  ++ "• /start — баштапкы меню" ++ nl
  ++ "• /random — рандом суроо" ++ nl
  ++ "• /goto 15 — 15-суроого өтүү" ++ nl
  ++ "• /stats — сенин статистикаң" ++ nl
  ++ "• /review_wrong — ката суроолор".

(** [text] is [message.text or ""]. *)
Definition fallback_handler (user_id : Z) (text : string) : M unit :=
  if Str.startswith text "/" then mret tt
  else
    s ← get_state;
    if bool_decide (user_id ∈ SEEN_USERS s) then emit (Answer fallback_msg None)
    else modify (add_seen user_id);; send_intro.

(** An operation of the bot: one handler invoked on an update from the
    user, with the text or callback data it receives and, where it draws
    a random number, the entropy it draws from. *)
Inductive Op : Type :=
  | OpStart
  | OpLevel (data : string)
  | OpIntroRandom (rnd : nat)
  | OpIntroHelp
  | OpGoto (text : string)
  | OpRandom (rnd : nat)
  | OpStats
  | OpReviewWrong (rnd : nat)
  | OpTopics
  | OpTopic (text : string) (rnd : nat)
  | OpNavPrev (data : string)
  | OpNavNext (data : string)
  | OpAnswer (data : string)
  | OpFallback (text : string).

Definition run_op (user_id : Z) (op : Op) : M unit :=
  match op with
  | OpStart => start_handler user_id
  | OpLevel data => level_handler user_id data
  | OpIntroRandom rnd => intro_random user_id rnd
  | OpIntroHelp => intro_help
  | OpGoto text => goto_handler user_id text
  | OpRandom rnd => random_handler user_id rnd
  | OpStats => stats_handler user_id
  | OpReviewWrong rnd => review_wrong_handler user_id rnd
  | OpTopics => topics_handler
  | OpTopic text rnd => topic_handler user_id text rnd
  | OpNavPrev data => nav_prev user_id data
  | OpNavNext data => nav_next user_id data
  | OpAnswer data => answer_handler user_id data
  | OpFallback text => fallback_handler user_id text
  end.

End handlers.

(** ** Analytics store ([db.py]) *)

Module Db.

(** Values the queries return that the model does not compute with:
    Python floats and database dates. *)
Class Values : Type := {
  float : Type;
  (** [0.0] *)
  float_zero : float;
  (** [(a / b) * 100] *)
  percent : Z → Z → float;
  date : Type;
  (** [d.strftime('%Y-%m-%d')] *)
  strftime : date → string
}.

(** The SQL statements of the read queries. *)
Inductive Sql : Type :=
  | SelectDau
  | SelectAttemptsToday
  | SelectAttemptsTotal
  | SelectAccuracy
  | SelectAttemptsPerDay (timezone_offset : Z)
  | SelectTopUsers
  | SelectRetentionD1.

Section db.
Context `{Values}.

(** What a connection answers: a value, or an exception. [fetchval] gives
    [None] for SQL NULL, [fetchrow] gives [None] when there is no row. *)
Record Connection : Type := mkConnection {
  fetchval : Sql → list Z → exn + option Z;
  fetchrow : Sql → list Z → exn + option (Z * Z);
  fetch_dates : Sql → list Z → exn + list (date * Z);
  fetch_users : Sql → list Z → exn + list (Z * Z)
}.

(** The pool: what [acquire] gives on entering [async with], and the
    exception, if any, that releasing the connection raises on leaving. *)
Record Pool : Type := mkPool {
  acquire : exn + Connection;
  release : option exn
}.

(** The module global [_pool] and the clock ([datetime.utcnow()], in
    microseconds). *)
Record Env : Type := mkEnv {
  _pool : option Pool;
  utcnow : Z
}.

(** [get_conn], an [asynccontextmanager] generator, around the body of the
    [async with] statement. The generator yields [None] without a pool,
    and from its [except] clause when [acquire] raises. An exception that
    reaches it at [yield conn] (from the body, or from the release on the
    way out) is caught by the same clause, which yields a second time: the
    context manager reports that as a [RuntimeError]. *)
Definition get_conn {A} (pool : option Pool)
    (body : option Connection → exn + A) : exn + A :=
  match pool with
  | None => body None
  | Some p =>
      match acquire p with
      | inl _ => body None
      | inr conn =>
          match body (Some conn) with
          | inr a =>
              match release p with
              | None => inr a
              | Some _ => inl RuntimeError
              end
          | inl _ => inl RuntimeError
          end
      end
  end.

(** [try: body except Exception: return zero] *)
Definition try_return {A} (body : exn + A) (zero : A) : exn + A :=
  match body with
  | inr a => inr a
  | inl _ => inr zero
  end.

Definition hours (n : Z) : Z := n * 3600000000.
Definition days_us (n : Z) : Z := n * 86400000000.

(** The start of the local day, back in UTC. *)
Definition start_of_day_utc (now timezone_offset : Z) : Z :=
  let tz_offset := hours timezone_offset in
  let local_now := now + tz_offset in
  let start_of_day := local_now - local_now `mod` 86400000000 in
  start_of_day - tz_offset.

(** [local_now - timedelta(days=n)], back in UTC. *)
Definition start_date_utc (now timezone_offset n : Z) : Z :=
  let tz_offset := hours timezone_offset in
  let local_now := now + tz_offset in
  let start_date := local_now - days_us n in
  start_date - tz_offset.

(** [count or 0] *)
Definition or_zero (count : option Z) : Z :=
  match count with
  | Some c => c
  | None => 0
  end.

(** The statement each function sends. *)
Definition dau_query (env : Env) (timezone_offset : Z) (conn : Connection) :=
  fetchval conn SelectDau [start_of_day_utc (utcnow env) timezone_offset].

Definition attempts_today_query (env : Env) (timezone_offset : Z)
    (conn : Connection) :=
  fetchval conn SelectAttemptsToday
    [start_of_day_utc (utcnow env) timezone_offset].

Definition attempts_total_query (conn : Connection) :=
  fetchval conn SelectAttemptsTotal [].

Definition accuracy_query (conn : Connection) :=
  fetchrow conn SelectAccuracy [].

Definition attempts_per_day_query (env : Env) (days timezone_offset : Z)
    (conn : Connection) :=
  fetch_dates conn (SelectAttemptsPerDay timezone_offset)
    [start_date_utc (utcnow env) timezone_offset days].

Definition top_users_query (env : Env) (limit timezone_offset : Z)
    (conn : Connection) :=
  fetch_users conn SelectTopUsers
    [start_date_utc (utcnow env) timezone_offset 7; limit].

Definition retention_query (conn : Connection) :=
  fetchrow conn SelectRetentionD1 [].

Definition get_dau_today (env : Env) (timezone_offset : Z) : exn + Z :=
  get_conn (_pool env) (λ conn,
    match conn with
    | None => inr 0
    | Some conn =>
        try_return (or_zero <$> dau_query env timezone_offset conn) 0
    end).

Definition get_attempts_today (env : Env) (timezone_offset : Z) : exn + Z :=
  get_conn (_pool env) (λ conn,
    match conn with
    | None => inr 0
    | Some conn =>
        try_return (or_zero <$> attempts_today_query env timezone_offset conn) 0
    end).

Definition get_attempts_total (env : Env) : exn + Z :=
  get_conn (_pool env) (λ conn,
    match conn with
    | None => inr 0
    | Some conn => try_return (or_zero <$> attempts_total_query conn) 0
    end).

(** [(a / b) * 100 if result and b > 0 else 0.0] on a fetched row *)
Definition ratio (result : option (Z * Z)) : float :=
  match result with
  | Some (whole, part) => if 0 <? whole then percent part whole else float_zero
  | None => float_zero
  end.

Definition get_accuracy (env : Env) : exn + float :=
  get_conn (_pool env) (λ conn,
    match conn with
    | None => inr float_zero
    | Some conn => try_return (ratio <$> accuracy_query conn) float_zero
    end).

Definition get_attempts_per_day (env : Env) (days timezone_offset : Z)
  : exn + list (string * Z) :=
  get_conn (_pool env) (λ conn,
    match conn with
    | None => inr []
    | Some conn =>
        try_return
          (map (λ row : date * Z, (strftime row.1, row.2))
             <$> attempts_per_day_query env days timezone_offset conn)
          []
    end).

Definition get_top_users_last_7_days (env : Env) (limit timezone_offset : Z)
  : exn + list (Z * Z) :=
  get_conn (_pool env) (λ conn,
    match conn with
    | None => inr []
    | Some conn =>
        try_return (top_users_query env limit timezone_offset conn) []
    end).

Definition get_retention_d1 (env : Env) : exn + float :=
  get_conn (_pool env) (λ conn,
    match conn with
    | None => inr float_zero
    | Some conn => try_return (ratio <$> retention_query conn) float_zero
    end).

(** The store is unavailable ([_pool] unset, or no connection can be
    acquired), or the statement [query] raises on the acquired connection,
    which is then released normally. *)
Definition degraded {A} (env : Env) (query : Connection → exn + A) : Prop :=
  match _pool env with
  | None => True
  | Some p =>
      match acquire p with
      | inl _ => True
      | inr conn => (∃ e, query conn = inl e) ∧ release p = None
      end
  end.

(** The seven read queries, with their arguments. *)
Inductive ReadQuery : Type :=
  | DauToday (timezone_offset : Z)
  | AttemptsToday (timezone_offset : Z)
  | AttemptsTotal
  | Accuracy
  | AttemptsPerDay (days timezone_offset : Z)
  | TopUsersLast7Days (limit timezone_offset : Z)
  | RetentionD1.

(** What a read query returns. *)
Inductive Result : Type :=
  | Count (n : Z)
  | Percentage (x : float)
  | PerDay (rows : list (string * Z))
  | PerUser (rows : list (Z * Z)).

Definition run_query (env : Env) (q : ReadQuery) : exn + Result :=
  match q with
  | DauToday tz => Count <$> get_dau_today env tz
  | AttemptsToday tz => Count <$> get_attempts_today env tz
  | AttemptsTotal => Count <$> get_attempts_total env
  | Accuracy => Percentage <$> get_accuracy env
  | AttemptsPerDay days tz => PerDay <$> get_attempts_per_day env days tz
  | TopUsersLast7Days limit tz =>
      PerUser <$> get_top_users_last_7_days env limit tz
  | RetentionD1 => Percentage <$> get_retention_d1 env
  end.

(** The zero value of the result type of a query: [0], [0.0] or [[]]. *)
Definition zero_value (q : ReadQuery) : Result :=
  match q with
  | DauToday _ | AttemptsToday _ | AttemptsTotal => Count 0
  | Accuracy | RetentionD1 => Percentage float_zero
  | AttemptsPerDay _ _ => PerDay []
  | TopUsersLast7Days _ _ => PerUser []
  end.

(** The store is unavailable, or the statement of [q] errors. *)
Definition degraded_for (env : Env) (q : ReadQuery) : Prop :=
  match q with
  | DauToday tz => degraded env (dau_query env tz)
  | AttemptsToday tz => degraded env (attempts_today_query env tz)
  | AttemptsTotal => degraded env attempts_total_query
  | Accuracy => degraded env accuracy_query
  | AttemptsPerDay days tz => degraded env (attempts_per_day_query env days tz)
  | TopUsersLast7Days limit tz => degraded env (top_users_query env limit tz)
  | RetentionD1 => degraded env retention_query
  end.

End db.
End Db.

(** ** Vocabulary of the properties *)

(** A computation that leaves the bot's globals (every Session and every
    Statistics entry, and the seen-users set) as they were, whether it
    returns or raises. *)
Definition keeps_globals {A} (m : M A) : Prop :=
  ∀ w, globals (m w).2 = globals w.

(** A non-negative integer literal: the decimal numeral of a natural
    number. *)
Definition nat_literal (tok : string) : Prop :=
  ∃ n : nat, tok = Str.str (Z.of_nat n).

(** The world after a handler that only replied [outs]. *)
Definition replied (w : World) (outs : list Out) : World :=
  mkWorld (globals w) (sent w ++ outs)%list.

(** The text of the correct option, when the question has options and its
    correct letter is one of their keys. *)
Definition option_text_of (q : Question) : option string :=
  match q_options q, correct_letter q with
  | Some options, Some letter => od_get options letter
  | _, _ => None
  end.

(** The result line of the feedback, when it can be built. *)
Definition result_line (is_correct : bool) (q : Question) : option string :=
  if is_correct then Some right_msg
  else wrong_msg (correct_letter q) <$> option_text_of q.

(** The invariant of the data model: the correct option letter is a key of
    the options mapping. *)
Definition well_formed (q : Question) : bool :=
  match option_text_of q with
  | Some _ => true
  | None => false
  end.

Definition catalog_well_formed (cat : Catalog) : bool :=
  forallb (λ item : string * Question, well_formed item.2) (QUESTION_INDEX cat).

(** The cursor rule in the specification's words. Selecting a level puts
    the user's session at cursor 0 of that level; an answer in sequential
    mode to a question of the catalog, by a user who has a session, moves
    that session's cursor up by one, whatever the answer; nothing else
    changes any session. *)
Definition cursor_spec (cat : Catalog) (user_id : Z) (op : Op)
    (sessions : gmap Z Progress) : gmap Z Progress :=
  match op with
  | OpLevel data =>
      match Str.split_on "|" data with
      | [_; difficulty] => <[user_id := mkProgress difficulty 0]> sessions
      | _ => sessions
      end
  | OpAnswer data =>
      match Str.split_on "|" data with
      | [_; _; _; nav_mode; qnum] =>
          if String.eqb nav_mode "sequential"
             && od_mem (QUESTION_INDEX cat) qnum
          then
            match sessions !! user_id with
            | Some p =>
                <[user_id := mkProgress (p_difficulty p) (p_index p + 1)%nat]>
                  sessions
            | None => sessions
            end
          else sessions
      | _ => sessions
      end
  | _ => sessions
  end.

(** A computation that leaves every Statistics entry as it was. *)
Definition keeps_stats {A} (m : M A) : Prop :=
  ∀ w, USER_STATS (globals (m w).2) = USER_STATS (globals w).

(** A computation that only adds to the trace of outgoing calls. *)
Definition appends {A} (m : M A) : Prop :=
  ∀ w, ∃ outs, sent (m w).2 = (sent w ++ outs)%list.

(** What the specification asks of a failed lookup: the handler returns
    normally and the user has been told something. *)
Definition handled (w : World) (r : (exn + unit) * World) : Prop :=
  r.1 = inr tt ∧ ∃ text markup outs,
    sent r.2 = (sent w ++ Answer text markup :: outs)%list.

(** A question that [send_question_universal] can show: it has options,
    and an id when there is an option to put on a button. *)
Definition presentable (q : Question) : bool :=
  match q_options q with
  | Some [] => true
  | Some (_ :: _) => match q_id q with Some _ => true | None => false end
  | None => false
  end.

(** What presenting a question is: the one message that shows [q] to
    [user_id] under the position label [qnum]. Its text has the label and
    the size of the catalog in the header, then the question and one line
    per option. Its keyboard has one answer button per option, which
    carries the id of the question, the letter, the mode and the label,
    and then Previous and Next, which carry the label. The message is a
    photo with that caption when the question has an image whose file
    exists. There is no such message for a question without options, or
    without an id when it has an option. *)
Definition question_message `{Runtime} (cat : Catalog) (user_id : Z)
    (q : Question) (qnum : option string) (nav_mode : string) : option Out :=
  if presentable q then
    let options := default [] (q_options q) in
    let id := default "" (q_id q) in
    let question_text := or_str (or_ (q_question_kg q) (q_text q)) "Суроо жок" in
    let options_block :=
      Str.join nl (map (λ lt : string * string, lt.1 ++ ") " ++ lt.2) options) in
    let header :=
      "Суроо " ++ Str.fmt_opt qnum ++ " / "
      ++ pretty (length (ORDERED_QUESTIONS cat)) in
    let text :=
      header ++ nl ++ "────────────────────────" ++ nl
      ++ question_text ++ nl ++ nl
      ++ "Жооп варианттары:" ++ nl ++ options_block in
    let answers :=
      map (λ lt : string * string,
             mkButton lt.1
               ("answer|" ++ id ++ "|" ++ lt.1 ++ "|" ++ nav_mode ++ "|"
                ++ Str.fmt_opt qnum))
        options in
    let kb :=
      mkKeyboard
        (app answers
           [mkButton "⬅️ Previous" ("nav_prev|" ++ Str.fmt_opt qnum);
            mkButton "➡️ Next" ("nav_next|" ++ Str.fmt_opt qnum)])
        [4; 2]%nat in
    Some (if truthy (q_image q) && path_exists (default "" (q_image q))
          then SendPhoto user_id (default "" (q_image q)) text kb
          else SendMessage user_id text (Some kb))
  else None.

(** ** A small catalog and runtime to run the model on *)

Module Sample.

Definition lower_char (a : ascii) : ascii :=
  let n := nat_of_ascii a in
  if ((65 <=? n) && (n <=? 90))%nat then ascii_of_nat (n + 32) else a.

Fixpoint lower_ascii (s : string) : string :=
  match s with
  | EmptyString => ""
  | String a s' => String (lower_char a) (lower_ascii s')
  end.

(** ASCII case folding, percentages rounded down to a tenth, no image
    files, and no integer literal outside ASCII. *)
Definition runtime : Runtime := {|
  lower := lower_ascii;
  fmt_pct := λ c t,
    pretty (c * 1000 / t / 10)%nat ++ "." ++ pretty ((c * 1000 / t) mod 10)%nat;
  path_exists := λ _, false;
  int_unicode := λ _, inl ValueError
|}.

Definition question (id answer difficulty topic : string) : Question :=
  {| q_id := Some id;
     q_question_kg := Some ("2 + 2 = ? (" ++ id ++ ")");
     q_text := None;
     q_options := Some [("A", "4"); ("B", "5")];
     q_answer := Some answer;
     q_correct := None;
     q_explanation_kg := None;
     q_explanation := None;
     q_difficulty := Some difficulty;
     q_topic := Some topic;
     q_image := None |}.

Definition q1 : Question := question "q1" "A" "easy" "Algebra II".
Definition q2 : Question := question "q2" "B" "easy" "Algebra".
Definition q3 : Question := question "q3" "A" "easy" "Geometry".

Definition json : list Question := [q1; q2; q3].

(** A question whose answer letter is not among its options, and a
    question without options. *)
Definition q_malformed : Question := question "q4" "C" "easy" "Algebra".

Definition q_bare : Question :=
  {| q_id := Some "q5";
     q_question_kg := Some "2 + 2 = ?";
     q_text := None;
     q_options := None;
     q_answer := Some "A";
     q_correct := None;
     q_explanation_kg := None;
     q_explanation := None;
     q_difficulty := Some "easy";
     q_topic := None;
     q_image := None |}.

Definition catalog : Catalog := @load_questions runtime json.

Definition start : World := mkWorld (mkState ∅ ∅ ∅) [].

(** The world after the user picked the easy level. *)
Definition picked_easy (user_id : Z) : World :=
  (@level_handler runtime catalog user_id "level|easy" start).2.

Definition values : Db.Values := {|
  Db.float := Z;
  Db.float_zero := 0;
  Db.percent := λ a b, a * 100 `div` b;
  Db.date := Z;
  Db.strftime := λ d, pretty d
|}.

Definition no_store : @Db.Env values := Db.mkEnv None 0.

(** A store whose connection raises on every statement. *)
Definition broken_connection : @Db.Connection values := {|
  Db.fetchval := λ _ _, inl DatabaseError;
  Db.fetchrow := λ _ _, inl DatabaseError;
  Db.fetch_dates := λ _ _, inl DatabaseError;
  Db.fetch_users := λ _ _, inl DatabaseError
|}.

Definition broken_store : @Db.Env values :=
  Db.mkEnv (Some (Db.mkPool (inr broken_connection) None)) 0.

(** The same store, whose pool raises when the connection is given
    back. *)
Definition leaking_store : @Db.Env values :=
  Db.mkEnv (Some (Db.mkPool (inr broken_connection) (Some DatabaseError))) 0.

End Sample.

(** ** Further vocabulary *)

(** A string without the separator of the callback data. *)
Definition bar_free (s : string) : bool :=
  Str.all_chars (λ a, negb (Ascii.eqb a "|")) s.

Definition catalog_presentable (cat : Catalog) : bool :=
  forallb (λ item : string * Question, presentable item.2) (QUESTION_INDEX cat).

(** A history of the bot: the updates handled so far, each with its
    user. An update whose handler raised leaves what it had done. *)
Definition run_ops `{Runtime} (cat : Catalog) (ops : list (Z * Op))
    (w : World) : World :=
  foldl (λ w uo, (run_op cat uo.1 uo.2 w).2) w ops.

(** Every position in a wrong-set is a key of [QUESTION_INDEX]. *)
Definition wrong_sets_indexed (cat : Catalog) (s : State) : Prop :=
  ∀ user_id stats qnum,
    USER_STATS s !! user_id = Some stats →
    qnum ∈ wrong_qnums stats →
    od_mem (QUESTION_INDEX cat) qnum = true.

(** The counters of an entry fit together. *)
Definition stats_bounded (s : Stats) : Prop :=
  (1 ≤ total s)%nat ∧ (correct s ≤ total s)%nat ∧
  (size (wrong_qnums s) ≤ total s - correct s)%nat.

(** Position [qnum] is in the list that the topic index keeps for
    [topic]. *)
Definition listed_under (idx : list (string * list string))
    (topic qnum : string) : Prop :=
  ∃ l, od_get idx topic = Some l ∧ qnum ∈ l.

(** The keyboard under a question message sent to [chat_id], if [o] is
    one. *)
Definition question_keyboard (chat_id : Z) (o : Out) : option Keyboard :=
  match o with
  | SendMessage c _ (Some kb) => if decide (c = chat_id) then Some kb else None
  | SendPhoto c _ _ kb => if decide (c = chat_id) then Some kb else None
  | _ => None
  end.

(** A computation that leaves one of the globals, read by [field], as it
    was. *)
Definition keeps_field {A B} (field : State → B) (m : M A) : Prop :=
  ∀ w, field (globals (m w).2) = field (globals w).

(** [q['id']] can be read. *)
Definition has_id (q : Question) : bool :=
  match q_id q with
  | Some _ => true
  | None => false
  end.

(** The handlers of typed messages; the other handlers receive the
    callback data of the bot's own buttons. *)
Definition typed (op : Op) : bool :=
  match op with
  | OpStart | OpGoto _ | OpRandom _ | OpStats | OpReviewWrong _ | OpTopics
  | OpTopic _ _ | OpFallback _ => true
  | _ => false
  end.

(** ** Analytics store, write side ([db.py]) *)

Module DbWrite.
Import Db.

(** The statements the write functions execute, with their arguments. *)
Inductive Statement : Type :=
  | UpsertUser (user_id : Z) (username first_name last_name : option string)
  | InsertEvent (user_id : Z) (event_type : string)
      (metadata : list (string * string))
  | InsertAttempt (user_id : Z) (question_id : string)
      (question_num : option string) (user_answer correct_answer : string)
      (is_correct : bool) (difficulty topic : option string).

(** The statements executed so far, oldest first. *)
Definition Log : Type := list Statement.

(** A computation on the store: a value or an exception, and the
    statements executed. *)
Definition W (A : Type) : Type := Log → (exn + A) * Log.

Section write.
Context `{Values}.

(** [conn.execute]: the exception it raises, if any. *)
Variable execute : Connection → Statement → option exn.

(** [await conn.execute(...)] *)
Definition run_execute (conn : Connection) (stmt : Statement) : W unit :=
  λ log,
    match execute conn stmt with
    | None => (inr tt, log ++ [stmt])%list
    | Some e => (inl e, log)
    end.

(** [Db.get_conn] around a body that executes statements. *)
Definition get_conn {A} (pool : option Pool)
    (body : option Connection → W A) : W A :=
  λ log,
    match pool with
    | None => body None log
    | Some p =>
        match acquire p with
        | inl _ => body None log
        | inr conn =>
            match body (Some conn) log with
            | (inr a, log') =>
                match release p with
                | None => (inr a, log')
                | Some _ => (inl RuntimeError, log')
                end
            | (inl _, log') => (inl RuntimeError, log')
            end
        end
    end.

(** [try: body; return True except Exception: return False] *)
Definition try_true {A} (body : W A) : W bool :=
  λ log,
    match body log with
    | (inr _, log') => (inr true, log')
    | (inl _, log') => (inr false, log')
    end.

Definition ensure_user (env : Env) (user_id : Z)
    (username first_name last_name : option string) : W bool :=
  get_conn (_pool env) (λ conn,
    match conn with
    | None => λ log, (inr false, log)
    | Some conn =>
        try_true
          (run_execute conn (UpsertUser user_id username first_name last_name))
    end).

(** [metadata or {}] *)
Definition or_empty (metadata : option (list (string * string)))
  : list (string * string) :=
  match metadata with
  | Some m => m
  | None => []
  end.

(** [await ensure_user(user_id)] and then the statement, inside one
    [try]. *)
Definition after_ensure_user (env : Env) (user_id : Z) (conn : Connection)
    (stmt : Statement) : W unit :=
  λ log,
    match ensure_user env user_id None None None log with
    | (inr _, log') => run_execute conn stmt log'
    | (inl e, log') => (inl e, log')
    end.

Definition log_event (env : Env) (user_id : Z) (event_type : string)
    (metadata : option (list (string * string))) : W bool :=
  get_conn (_pool env) (λ conn,
    match conn with
    | None => λ log, (inr false, log)
    | Some conn =>
        try_true
          (after_ensure_user env user_id conn
             (InsertEvent user_id event_type (or_empty metadata)))
    end).

Definition log_attempt (env : Env) (user_id : Z) (question_id : string)
    (question_num : option string) (user_answer correct_answer : string)
    (is_correct : bool) (difficulty topic : option string) : W bool :=
  get_conn (_pool env) (λ conn,
    match conn with
    | None => λ log, (inr false, log)
    | Some conn =>
        try_true
          (after_ensure_user env user_id conn
             (InsertAttempt user_id question_id question_num user_answer
                correct_answer is_correct difficulty topic))
    end).

(** The three write functions, with their arguments. *)
Inductive WriteCall : Type :=
  | EnsureUser (user_id : Z) (username first_name last_name : option string)
  | LogEvent (user_id : Z) (event_type : string)
      (metadata : option (list (string * string)))
  | LogAttempt (user_id : Z) (question_id : string)
      (question_num : option string) (user_answer correct_answer : string)
      (is_correct : bool) (difficulty topic : option string).

Definition run_write (env : Env) (c : WriteCall) : W bool :=
  match c with
  | EnsureUser u n f l => ensure_user env u n f l
  | LogEvent u t m => log_event env u t m
  | LogAttempt u q n a c ok d t => log_attempt env u q n a c ok d t
  end.

(** The statement of the function itself, and the upsert of the user row
    that [log_event] and [log_attempt] try first. *)
Definition own_statement (c : WriteCall) : Statement :=
  match c with
  | EnsureUser u n f l => UpsertUser u n f l
  | LogEvent u t m => InsertEvent u t (or_empty m)
  | LogAttempt u q n a c ok d t => InsertAttempt u q n a c ok d t
  end.

Definition user_upsert (c : WriteCall) : list Statement :=
  match c with
  | EnsureUser _ _ _ _ => []
  | LogEvent u _ _ | LogAttempt u _ _ _ _ _ _ _ => [UpsertUser u None None None]
  end.

(** The statements of [l] that execute without an exception on [conn]. *)
Definition executed (conn : Connection) (l : list Statement) : list Statement :=
  filter (λ stmt, execute conn stmt = None) l.

End write.
End DbWrite.

(** A connection for the write side: the upsert of the user row is refused
    and the inserts go through. *)
Module SampleWrite.

Definition execute (conn : @Db.Connection Sample.values)
    (stmt : DbWrite.Statement) : option exn :=
  match stmt with
  | DbWrite.UpsertUser _ _ _ _ => Some DatabaseError
  | _ => None
  end.

End SampleWrite.

(** * Properties *)

(** ** Decimal numerals *)

Section numerals.

Lemma str_app_nil_l (t : string) : "" ++ t = t.
Proof. reflexivity. Qed.

Lemma str_app_cons (a : ascii) (s t : string) :
  String a s ++ t = String a (s ++ t).
Proof. reflexivity. Qed.

Lemma str_app_assoc (s t u : string) : (s ++ t) ++ u = s ++ (t ++ u).
Proof.
  induction s as [|a s IH]; [done|]. by rewrite !str_app_cons, IH.
Qed.

Lemma pretty_N_char_digit (x : N) :
  (x < 10)%N →
  Str.isdigit_char (pretty_N_char x) = true ∧
  Str.digit_val (pretty_N_char x) = Some (Z.of_N x).
Proof.
  intros Hx.
  assert (x = 0 ∨ x = 1 ∨ x = 2 ∨ x = 3 ∨ x = 4 ∨ x = 5 ∨ x = 6 ∨ x = 7
          ∨ x = 8 ∨ x = 9)%N as Hc by lia.
  repeat (destruct Hc as [->|Hc]; [by split|]). by subst.
Qed.

Lemma pretty_N_go_app (x : N) (s : string) :
  pretty_N_go x s = pretty_N_go x "" ++ s.
Proof.
  revert s. induction (N.lt_wf_0 x) as [x _ IH]; intros s.
  destruct (decide (x = 0)%N) as [->|Hx]; [by rewrite !pretty_N_go_0|].
  rewrite !(pretty_N_go_step x) by lia.
  assert (x `div` 10 < x)%N as Hlt by (apply N.div_lt; lia).
  rewrite (IH _ Hlt (String _ s)), (IH _ Hlt (String _ "")).
  by rewrite str_app_assoc.
Qed.

Lemma all_chars_app f s t :
  Str.all_chars f (s ++ t) = Str.all_chars f s && Str.all_chars f t.
Proof.
  induction s as [|a s IH]; [done|].
  rewrite str_app_cons. simpl. by rewrite IH, andb_assoc.
Qed.

Lemma pretty_N_go_digits (x : N) :
  Str.all_chars Str.isdigit_char (pretty_N_go x "") = true.
Proof.
  induction (N.lt_wf_0 x) as [x _ IH].
  destruct (decide (x = 0)%N) as [->|Hx]; [done|].
  rewrite pretty_N_go_step, pretty_N_go_app, all_chars_app by lia.
  rewrite IH by (apply N.div_lt; lia). simpl.
  destruct (pretty_N_char_digit (x `mod` 10)) as [-> _]; [|done].
  apply N.mod_lt; lia.
Qed.

Lemma pretty_N_go_nonempty (x : N) : (0 < x)%N → pretty_N_go x "" ≠ "".
Proof.
  intros Hx. rewrite pretty_N_go_step, pretty_N_go_app by done.
  by destruct (pretty_N_go (x `div` 10) "").
Qed.

(** A digit is neither an underscore nor a separator nor whitespace. *)
Lemma isdigit_char_cases (a : ascii) :
  Str.isdigit_char a = true →
  a ≠ "_"%char ∧ a ≠ "|"%char ∧ a ≠ "-"%char ∧ a ≠ "+"%char
  ∧ Str.isspace a = false.
Proof.
  destruct a as [[] [] [] [] [] [] [] []]; vm_compute; intros; by repeat split.
Qed.

Lemma isdigit_char_ascii (a : ascii) :
  Str.isdigit_char a = true →
  Str.isspace_c a = false ∧ (nat_of_ascii a <? 128)%nat = true.
Proof.
  destruct a as [[] [] [] [] [] [] [] []]; vm_compute; intros; by split.
Qed.

Lemma lstrip_c_no_space s :
  Str.all_chars (λ a, negb (Str.isspace_c a)) s = true → Str.lstrip_c s = s.
Proof.
  destruct s as [|a s]; simpl; [done|].
  intros [Ha _]%andb_true_iff. by destruct (Str.isspace_c a).
Qed.

Lemma rstrip_c_no_space s :
  Str.all_chars (λ a, negb (Str.isspace_c a)) s = true → Str.rstrip_c s = s.
Proof.
  induction s as [|a s IH]; simpl; [done|].
  intros [Ha Hs]%andb_true_iff. rewrite IH by done.
  by destruct (Str.isspace_c a).
Qed.

Lemma int_digits_snoc (acc : Z) (s : string) (c : ascii) (d : Z) :
  s ≠ "" → Str.all_chars Str.isdigit_char s = true →
  Str.digit_val c = Some d →
  Str.int_digits acc (s ++ String c "")
  = (λ v, v * 10 + d) <$> Str.int_digits acc s.
Proof.
  intros Hne Hs Hc. revert acc Hne Hs.
  induction s as [|a s IH]; intros acc Hne Hs; [done|].
  simpl in Hs. apply andb_true_iff in Hs as [Ha Hs].
  assert (∃ da, Str.digit_val a = Some da) as [da Hda].
  { unfold Str.digit_val. rewrite Ha. eauto. }
  destruct s as [|b s].
  - simpl. rewrite Hda.
    assert (Str.isdigit_char c = true) as Hcd.
    { unfold Str.digit_val in Hc. by destruct (Str.isdigit_char c). }
    destruct (isdigit_char_cases c Hcd) as (Hu & _).
    rewrite Hc.
    destruct c as [[] [] [] [] [] [] [] []]; try done.
  - specialize (IH (acc * 10 + da) ltac:(done) Hs).
    simpl in Hs. apply andb_true_iff in Hs as [Hb Hs].
    destruct (isdigit_char_cases b Hb) as (Hu & _).
    change ((String a (String b s)) ++ String c "")
      with (String a (String b s ++ String c "")).
    change (Str.int_digits acc (String a (String b s ++ String c "")))
      with (match Str.digit_val a with
            | None => None
            | Some d0 =>
                match (String b s ++ String c "") with
                | "" => Some (acc * 10 + d0)
                | String "_"%char s'' => Str.int_digits (acc * 10 + d0) s''
                | String _ _ =>
                    Str.int_digits (acc * 10 + d0) (String b s ++ String c "")
                end
            end).
    change (Str.int_digits acc (String a (String b s)))
      with (match Str.digit_val a with
            | None => None
            | Some d0 =>
                match String b s with
                | "" => Some (acc * 10 + d0)
                | String "_"%char s'' => Str.int_digits (acc * 10 + d0) s''
                | String _ _ => Str.int_digits (acc * 10 + d0) (String b s)
                end
            end).
    rewrite Hda.
    change (String b s ++ String c "") with (String b (s ++ String c "")) in *.
    destruct b as [[] [] [] [] [] [] [] []]; try done; apply IH.
Qed.

Lemma int_digits_pretty_N_go (x : N) :
  (0 < x)%N → Str.int_digits 0 (pretty_N_go x "") = Some (Z.of_N x).
Proof.
  induction (N.lt_wf_0 x) as [x _ IH]; intros Hx.
  assert (x `mod` 10 < 10)%N as Hm by (apply N.mod_lt; lia).
  destruct (pretty_N_char_digit _ Hm) as [Hd Hv].
  rewrite pretty_N_go_step by done.
  destruct (decide (x `div` 10 = 0)%N) as [Hz|Hnz].
  - rewrite Hz, pretty_N_go_0. simpl. rewrite Hv. f_equal.
    pose proof (N.div_mod x 10 ltac:(done)). lia.
  - assert (0 < x `div` 10)%N as Hpos by (by apply N.neq_0_lt_0).
    assert (x `div` 10 < x)%N as Hlt by (apply N.div_lt; lia).
    rewrite pretty_N_go_app.
    rewrite (int_digits_snoc 0 _ _ _ (pretty_N_go_nonempty _ Hpos)
               (pretty_N_go_digits _) Hv).
    rewrite (IH _ Hlt Hpos). simpl. f_equal.
    pose proof (N.div_mod x 10 ltac:(done)). lia.
Qed.

Lemma lstrip_no_space s :
  Str.all_chars (λ a, negb (Str.isspace a)) s = true → Str.lstrip s = s.
Proof.
  destruct s as [|a s]; simpl; [done|].
  intros [Ha _]%andb_true_iff. by destruct (Str.isspace a).
Qed.

Lemma rstrip_no_space s :
  Str.all_chars (λ a, negb (Str.isspace a)) s = true → Str.rstrip s = s.
Proof.
  induction s as [|a s IH]; simpl; [done|].
  intros [Ha Hs]%andb_true_iff. rewrite IH by done.
  by destruct (Str.isspace a).
Qed.

Lemma all_chars_impl (f g : ascii → bool) s :
  (∀ a, f a = true → g a = true) →
  Str.all_chars f s = true → Str.all_chars g s = true.
Proof.
  intros Hfg. induction s as [|a s IH]; simpl; [done|].
  intros [Ha Hs]%andb_true_iff. by rewrite (Hfg a Ha), IH.
Qed.

(** The numeral of a positive number: digits only, and not empty. *)
Lemma str_pos_digits (k : Z) :
  0 < k →
  Str.str k ≠ "" ∧ Str.all_chars Str.isdigit_char (Str.str k) = true.
Proof.
  intros Hk. destruct k as [|p|p]; try lia.
  unfold Str.str, pretty, pretty_Z, pretty, pretty_positive, pretty, pretty_N.
  rewrite decide_False by done.
  split; [apply pretty_N_go_nonempty; lia | apply pretty_N_go_digits].
Qed.

Lemma str_pos_isdigit (k : Z) : 0 < k → Str.isdigit (Str.str k) = true.
Proof.
  intros Hk. destruct (str_pos_digits k Hk) as [Hne Hd].
  unfold Str.isdigit. rewrite Hd.
  destruct (Str.str k); [done|]. done.
Qed.

(** [int(str(k)) == k] for a position [k]. *)
Lemma int_ascii_str (k : Z) : 0 < k → Str.int_ascii (Str.str k) = inr k.
Proof.
  intros Hk. destruct (str_pos_digits k Hk) as [Hne Hd].
  assert (Str.all_chars (λ a, negb (Str.isspace_c a)) (Str.str k) = true)
    as Hsp.
  { revert Hd. apply all_chars_impl. intros a Ha.
    destruct (isdigit_char_ascii a Ha) as [-> _]. done. }
  unfold Str.int_ascii.
  rewrite (lstrip_c_no_space _ Hsp), (rstrip_c_no_space _ Hsp).
  assert (Str.int_digits 0 (Str.str k) = Some k) as Hint.
  { destruct k as [|p|p]; try lia.
    unfold Str.str, pretty, pretty_Z, pretty, pretty_positive, pretty, pretty_N.
    rewrite decide_False by done.
    rewrite int_digits_pretty_N_go by lia. f_equal. }
  destruct (Str.str k) as [|a s] eqn:E; [done|].
  simpl in Hd. apply andb_true_iff in Hd as [Ha _].
  destruct (isdigit_char_cases a Ha) as (_ & _ & Hm & Hp & _).
  rewrite Hint.
  destruct a as [[] [] [] [] [] [] [] []]; try done.
Qed.

Lemma int_str `{Runtime} (k : Z) : 0 < k → Str.int (Str.str k) = inr k.
Proof.
  intros Hk. unfold Str.int.
  destruct (str_pos_digits k Hk) as [_ Hd].
  assert (Str.is_ascii (Str.str k) = true) as ->.
  { revert Hd. apply all_chars_impl. intros a Ha.
    by destruct (isdigit_char_ascii a Ha) as [_ ->]. }
  by apply int_ascii_str.
Qed.

Lemma str_inj (a b : Z) : Str.str a = Str.str b → a = b.
Proof. apply pretty_Z_inj. Qed.

(** Splitting on a separator that the last field does not contain. *)
Lemma split_on_no_sep (sep : ascii) (s : string) :
  Str.all_chars (λ a, negb (Ascii.eqb a sep)) s = true →
  Str.split_on sep s = [s].
Proof.
  induction s as [|a s IH]; simpl; [done|].
  intros [Ha Hs]%andb_true_iff. rewrite (IH Hs).
  by destruct (Ascii.eqb a sep).
Qed.

Lemma split_on_app (sep : ascii) (s t : string) :
  Str.all_chars (λ a, negb (Ascii.eqb a sep)) s = true →
  Str.split_on sep (s ++ String sep t) = s :: Str.split_on sep t.
Proof.
  induction s as [|a s IH]; simpl.
  - intros _. by rewrite Ascii.eqb_refl.
  - intros [Ha Hs]%andb_true_iff. rewrite (IH Hs).
    by destruct (Ascii.eqb a sep).
Qed.

Lemma digits_no_bar (s : string) :
  Str.all_chars Str.isdigit_char s = true →
  Str.all_chars (λ a, negb (Ascii.eqb a "|")) s = true.
Proof.
  apply all_chars_impl. intros a Ha.
  destruct (isdigit_char_cases a Ha) as (_ & Hb & _).
  destruct (Ascii.eqb_spec a "|"); done.
Qed.

End numerals.

(** ** Ordered dictionaries and the catalog indices *)

Section catalog.

Lemma od_get_None {V} (d : list (string * V)) (k : string) :
  od_get d k = None ↔ k ∉ od_keys d.
Proof.
  unfold od_keys. induction d as [|[k' v] d IH]; simpl.
  - split; [intros _; apply not_elem_of_nil | done].
  - rewrite not_elem_of_cons. destruct (decide (k' = k)) as [-> |Hne].
    + split; [done | intros [? _]; done].
    + rewrite IH. split; [intros ?; split; [congruence | done] | tauto].
Qed.

Lemma od_get_Some_elem {V} (d : list (string * V)) (k : string) (v : V) :
  od_get d k = Some v → (k, v) ∈ d.
Proof.
  induction d as [|[k' v'] d IH]; simpl; [done|].
  destruct (decide (k' = k)) as [-> |Hne].
  - intros [= ->]. apply elem_of_cons. by left.
  - intros Hd. apply elem_of_cons. right. by apply IH.
Qed.

Lemma od_get_app {V} (d1 d2 : list (string * V)) (k : string) :
  od_get (d1 ++ d2)%list k
  = match od_get d1 k with Some v => Some v | None => od_get d2 k end.
Proof.
  induction d1 as [|[k' v'] d1 IH]; simpl; [done|].
  by destruct (decide (k' = k)).
Qed.

Lemma od_set_fresh {V} (d : list (string * V)) (k : string) (v : V) :
  od_get d k = None → od_set d k v = (d ++ [(k, v)])%list.
Proof.
  induction d as [|[k' v'] d IH]; simpl; [done|].
  destruct (decide (k' = k)); [done|]. intros Hd. by rewrite IH.
Qed.

(** What [d[k] = v] leaves in the dictionary. *)
Lemma od_set_elem {V} (d : list (string * V)) (k : string) (v : V) kv :
  kv ∈ od_set d k v → kv ∈ d ∨ kv = (k, v).
Proof.
  induction d as [|[k' v'] d IH]; simpl.
  - intros ?%list_elem_of_singleton. by right.
  - destruct (decide (k' = k)) as [-> |Hne]; rewrite !elem_of_cons.
    + intros [->|?]; [by right | left; by right].
    + intros [-> |Hin]; [left; by left|].
      destruct (IH Hin) as [?|?]; [left; by right | by right].
Qed.

Lemma od_set_keys {V} (d : list (string * V)) (k : string) (v : V) k0 :
  k0 ∈ od_keys (od_set d k v) ↔ k0 ∈ od_keys d ∨ k0 = k.
Proof.
  unfold od_keys. induction d as [|[k' v'] d IH]; simpl.
  - rewrite list_elem_of_singleton. split; [by right | intros [H|H]; [|done]].
    by apply not_elem_of_nil in H.
  - destruct (decide (k' = k)) as [-> |Hne]; simpl; rewrite !elem_of_cons.
    + tauto.
    + rewrite IH. tauto.
Qed.

Lemma od_of_list_from_nodup {V} (d l : list (string * V)) :
  NoDup (od_keys (d ++ l)%list) →
  foldl (λ d kv, od_set d kv.1 kv.2) d l = (d ++ l)%list.
Proof.
  revert d. induction l as [|[k v] l IH]; intros d Hnd; simpl.
  - by rewrite app_nil_r.
  - assert (od_get d k = None) as Hfresh.
    { apply od_get_None. unfold od_keys in *. rewrite fmap_app in Hnd.
      apply NoDup_app in Hnd as (_ & Hdisj & _). intros Hin.
      apply (Hdisj k Hin). simpl. apply elem_of_cons. by left. }
    rewrite (od_set_fresh _ _ _ Hfresh).
    rewrite IH; rewrite <-app_assoc; done.
Qed.

Lemma od_of_list_nodup {V} (l : list (string * V)) :
  NoDup (od_keys l) → od_of_list l = l.
Proof. intros Hnd. unfold od_of_list. by rewrite od_of_list_from_nodup. Qed.

(** A dict comprehension keeps only pairs it was given, and every key it
    was given. *)
Lemma od_of_list_from_elem {V} (d l : list (string * V)) kv :
  kv ∈ foldl (λ d kv, od_set d kv.1 kv.2) d l → kv ∈ d ∨ kv ∈ l.
Proof.
  revert d. induction l as [|[k v] l IH]; intros d; simpl; [by left|].
  intros Hin. destruct (IH _ Hin) as [Hd|Hl].
  - destruct (od_set_elem _ _ _ _ Hd) as [?| ->]; [by left|].
    right. apply elem_of_cons. by left.
  - right. apply elem_of_cons. by right.
Qed.

Lemma od_of_list_elem {V} (l : list (string * V)) kv :
  kv ∈ od_of_list l → kv ∈ l.
Proof.
  intros Hin. destruct (od_of_list_from_elem [] l kv Hin) as [Hd|?]; [|done].
  by apply not_elem_of_nil in Hd.
Qed.

Lemma od_of_list_from_keys {V} (d l : list (string * V)) k :
  k ∈ od_keys (foldl (λ d kv, od_set d kv.1 kv.2) d l)
  ↔ k ∈ od_keys d ∨ k ∈ od_keys l.
Proof.
  revert d. induction l as [|[k0 v] l IH]; intros d; simpl.
  - split; [by left | intros [?|H]; [done|]]. by apply not_elem_of_nil in H.
  - rewrite IH, od_set_keys. unfold od_keys at 4. simpl.
    rewrite elem_of_cons. unfold od_keys. tauto.
Qed.

Lemma od_of_list_keys {V} (l : list (string * V)) k :
  k ∈ od_keys (od_of_list l) ↔ k ∈ od_keys l.
Proof.
  unfold od_of_list. rewrite od_of_list_from_keys.
  split; [intros [H|?]; [|done] | by right]. by apply not_elem_of_nil in H.
Qed.

(** The keys of [QUESTION_INDEX] are the numerals of [1 .. len]. *)
Lemma index_items_from_lookup (j : nat) (qs : list Question) (tok : string) q :
  od_get (map (λ iq : nat * Question, (Str.str (Z.of_nat iq.1 + 1), iq.2))
            (enumerate_from j qs)) tok = Some q
  ↔ ∃ i : nat, tok = Str.str (Z.of_nat (j + i) + 1) ∧ qs !! i = Some q.
Proof.
  revert j. induction qs as [|q0 qs IH]; intros j; simpl.
  - split; [done | intros (i & _ & Hi); done].
  - destruct (decide (Str.str (Z.of_nat j + 1) = tok)) as [<-|Hne].
    + split.
      * intros [= ->]. exists 0%nat. by rewrite Nat.add_0_r.
      * intros (i & Heq & Hi). apply str_inj in Heq.
        assert (i = 0%nat) as -> by lia. simpl in Hi. congruence.
    + rewrite IH. split.
      * intros (i & -> & Hi). exists (S i). split; [|done].
        f_equal. lia.
      * intros (i & -> & Hi). destruct i as [|i].
        { rewrite Nat.add_0_r in Hne. done. }
        exists i. split; [|done]. f_equal. lia.
Qed.

Lemma index_items_from_keys (j : nat) (qs : list Question) (tok : string) :
  tok ∈ od_keys (map (λ iq : nat * Question,
                        (Str.str (Z.of_nat iq.1 + 1), iq.2))
                   (enumerate_from j qs))
  → ∃ i : nat, tok = Str.str (Z.of_nat (j + i) + 1).
Proof.
  unfold od_keys. revert j. induction qs as [|q0 qs IH]; intros j; simpl.
  - intros H. by apply not_elem_of_nil in H.
  - rewrite elem_of_cons. intros [-> |Hin].
    + exists 0%nat. by rewrite Nat.add_0_r.
    + destruct (IH _ Hin) as (i & ->). exists (S i). f_equal. lia.
Qed.

Lemma index_items_from_nodup (j : nat) (qs : list Question) :
  NoDup (od_keys (map (λ iq : nat * Question,
                         (Str.str (Z.of_nat iq.1 + 1), iq.2))
                    (enumerate_from j qs))).
Proof.
  revert j. induction qs as [|q0 qs IH]; intros j; simpl.
  - apply NoDup_nil_2.
  - unfold od_keys. simpl. apply NoDup_cons. split; [|apply IH].
    intros Hin. apply index_items_from_keys in Hin as (i & Heq).
    apply str_inj in Heq. lia.
Qed.

Section loaded.
Context `{Runtime} (json : list Question).

Lemma QUESTION_INDEX_loaded :
  QUESTION_INDEX (load_questions json) = index_items json.
Proof.
  simpl. apply od_of_list_nodup, index_items_from_nodup.
Qed.

(** [QUESTION_INDEX.get(tok)] finds a question exactly when [tok] is the
    numeral of a 1-based position of the catalog. *)
Lemma QUESTION_INDEX_lookup (tok : string) (q : Question) :
  od_get (QUESTION_INDEX (load_questions json)) tok = Some q
  ↔ ∃ i : nat, tok = Str.str (Z.of_nat i + 1) ∧ json !! i = Some q.
Proof.
  rewrite QUESTION_INDEX_loaded. unfold index_items.
  by rewrite index_items_from_lookup.
Qed.

Lemma QUESTION_INDEX_at (k : Z) :
  od_get (QUESTION_INDEX (load_questions json)) (Str.str k)
  = if decide (1 ≤ k) then json !! Z.to_nat (k - 1) else None.
Proof.
  destruct (od_get _ (Str.str k)) as [q|] eqn:E.
  - apply QUESTION_INDEX_lookup in E as (i & Heq & Hi).
    apply str_inj in Heq. subst k. rewrite decide_True by lia.
    replace (Z.to_nat (Z.of_nat i + 1 - 1)) with i by lia. done.
  - case_decide as Hk; [|done].
    destruct (json !! Z.to_nat (k - 1)) as [q|] eqn:Hq; [|done].
    assert (od_get (QUESTION_INDEX (load_questions json)) (Str.str k) = Some q)
      as Hs; [|congruence].
    apply QUESTION_INDEX_lookup. exists (Z.to_nat (k - 1)).
    split; [f_equal; lia | done].
Qed.

End loaded.
End catalog.
(** ** Properties of the ledger *)

Section ledger.

(** Writing [by_diff[k]] changes the sum of a counter by the difference
    between the new and the old (or initial, zero) value of that counter. *)
Lemma sum_od_set (f : DiffStats → nat) (d : list (string * DiffStats)) k v :
  (sum_list (map (λ kv, f kv.2) (od_set d k v))
   + default 0 (f <$> od_get d k)
   = sum_list (map (λ kv, f kv.2) d) + f v)%nat.
Proof.
  induction d as [|[k' v'] d IH]; simpl.
  - lia.
  - destruct (decide (k' = k)) as [->|Hne]; simpl; lia.
Qed.

Lemma update_stats_lookup user_id question qnum is_correct m :
  ∃ s, update_stats user_id question qnum is_correct m !! user_id = Some s.
Proof.
  unfold update_stats, get_user_stats.
  destruct (m !! user_id); eexists; apply lookup_insert_eq.
Qed.

Lemma update_stats_other user_id question qnum is_correct m u :
  u ≠ user_id →
  update_stats user_id question qnum is_correct m !! u = m !! u.
Proof.
  intros Hne. unfold update_stats, get_user_stats.
  destruct (m !! user_id) eqn:E; rewrite !lookup_insert_ne; done.
Qed.

Lemma entry_consistent (s : Stats) (diff : string) (is_correct : bool) :
  stats_consistent s →
  let entry := default (mkDiffStats 0 0) (od_get (by_diff s) diff) in
  let entry' :=
    mkDiffStats (d_total entry + 1)%nat
      (if is_correct then (d_correct entry + 1)%nat else d_correct entry) in
  (total s + 1)%nat = sum_total (od_set (by_diff s) diff entry') ∧
  (if is_correct then (correct s + 1)%nat else correct s)
    = sum_correct (od_set (by_diff s) diff entry').
Proof.
  intros [Ht Hc]. unfold sum_total, sum_correct in *. simpl.
  pose proof (sum_od_set d_total (by_diff s) diff
    (mkDiffStats
       (d_total (default (mkDiffStats 0 0) (od_get (by_diff s) diff)) + 1)%nat
       (if is_correct
        then (d_correct (default (mkDiffStats 0 0) (od_get (by_diff s) diff)) + 1)%nat
        else d_correct (default (mkDiffStats 0 0) (od_get (by_diff s) diff)))))
    as H1.
  pose proof (sum_od_set d_correct (by_diff s) diff
    (mkDiffStats
       (d_total (default (mkDiffStats 0 0) (od_get (by_diff s) diff)) + 1)%nat
       (if is_correct
        then (d_correct (default (mkDiffStats 0 0) (od_get (by_diff s) diff)) + 1)%nat
        else d_correct (default (mkDiffStats 0 0) (od_get (by_diff s) diff)))))
    as H2.
  simpl in H1, H2.
  destruct (od_get (by_diff s) diff) as [e|]; simpl in *;
    destruct is_correct; lia.
Qed.

(** One call keeps every entry consistent. *)
Lemma update_stats_consistent user_id question qnum is_correct m :
  map_Forall (λ _ s, stats_consistent s) m →
  map_Forall (λ _ s, stats_consistent s)
    (update_stats user_id question qnum is_correct m).
Proof.
  intros Hm u s Hs.
  destruct (decide (u = user_id)) as [->|Hne].
  2:{ rewrite update_stats_other in Hs by done. by apply (Hm u). }
  unfold update_stats, get_user_stats in Hs.
  destruct (m !! user_id) as [s0|] eqn:E.
  - rewrite lookup_insert_eq in Hs. injection Hs as <-.
    apply (entry_consistent s0 (default "unknown" (q_difficulty question))
             is_correct). by apply (Hm user_id).
  - rewrite lookup_insert_eq in Hs. injection Hs as <-.
    apply (entry_consistent (mkStats 0 0 [] ∅)
             (default "unknown" (q_difficulty question)) is_correct). by split.
Qed.

Lemma run_calls_consistent cs m :
  map_Forall (λ _ s, stats_consistent s) m →
  map_Forall (λ _ s, stats_consistent s) (run_calls m cs).
Proof.
  revert m. induction cs as [|c cs IH]; intros m Hm; simpl; [done|].
  apply IH. by apply update_stats_consistent.
Qed.

Lemma run_calls_snoc m cs c :
  run_calls m (cs ++ [c]) = apply_call (run_calls m cs) c.
Proof. unfold run_calls. by rewrite foldl_app. Qed.

Lemma wrong_of_update user_id question qnum is_correct m :
  wrong_of (update_stats user_id question qnum is_correct m) user_id
  = if is_correct then wrong_of m user_id ∖ {[qnum]}
    else wrong_of m user_id ∪ {[qnum]}.
Proof.
  unfold wrong_of, update_stats, get_user_stats.
  destruct (m !! user_id) as [s0|] eqn:E; rewrite lookup_insert_eq; done.
Qed.

Lemma od_get_set_eq {V} (d : list (string * V)) k v :
  od_get (od_set d k v) k = Some v.
Proof.
  induction d as [|[k' v'] d IH]; simpl.
  - by rewrite decide_True.
  - destruct (decide (k' = k)) as [->|Hne]; simpl.
    + by rewrite decide_True.
    + by rewrite decide_False.
Qed.

Lemma od_get_set_ne {V} (d : list (string * V)) k k0 v :
  k ≠ k0 → od_get (od_set d k v) k0 = od_get d k0.
Proof.
  intros Hne. induction d as [|[k' v'] d IH]; simpl.
  - by rewrite decide_False.
  - destruct (decide (k' = k)) as [->|Hne']; simpl.
    + by rewrite !decide_False.
    + destruct (decide (k' = k0)); done.
Qed.

Lemma update_stats_entry user_id question qnum (is_correct : bool) m :
  let old := default (mkStats 0 0 [] ∅) (m !! user_id) in
  let diff := default "unknown" (q_difficulty question) in
  let entry := default (mkDiffStats 0 0) (od_get (by_diff old) diff) in
  update_stats user_id question qnum is_correct m !! user_id
  = Some (mkStats (total old + 1)
            (if is_correct then correct old + 1 else correct old)%nat
            (od_set (by_diff old) diff
               (mkDiffStats (d_total entry + 1)
                  (if is_correct then d_correct entry + 1
                   else d_correct entry)%nat))
            (if is_correct then wrong_qnums old ∖ {[qnum]}
             else wrong_qnums old ∪ {[qnum]})).
Proof.
  unfold update_stats, get_user_stats.
  destruct (m !! user_id) as [s|]; simpl; by rewrite lookup_insert_eq.
Qed.

End ledger.

(** C1. Starting from the empty [USER_STATS], after any sequence of calls
    to [update_stats] followed by one more call, the caller has an entry,
    and every entry (the caller's included) has [total] equal to the sum of
    [by_diff[*].total] and [correct] equal to the sum of
    [by_diff[*].correct]. *)
Theorem update_stats_sums_invariant (cs : list StatsCall) (c : StatsCall) :
  let m := run_calls ∅ (cs ++ [c]) in
  (∃ s, m !! sc_user c = Some s ∧ stats_consistent s) ∧
  map_Forall (λ _ s, stats_consistent s) m.
Proof.
  simpl.
  assert (map_Forall (λ _ s, stats_consistent s) (run_calls ∅ (cs ++ [c])))
    as Hall by (apply run_calls_consistent, map_Forall_empty).
  split; [|done].
  rewrite run_calls_snoc. unfold apply_call.
  destruct (update_stats_lookup (sc_user c) (sc_question c) (sc_qnum c)
              (sc_is_correct c) (run_calls ∅ cs)) as [s Hs].
  exists s. split; [done|].
  rewrite run_calls_snoc in Hall. by apply (Hall (sc_user c)).
Qed.

(** C3. From any ledger: right after an incorrect answer of a user to
    position [p], [p] is in the user's [wrong_qnums]; whatever calls
    follow, right after a later correct answer to [p] it is absent; and
    whatever calls follow that, right after a further incorrect answer to
    [p] it is present again. *)
Theorem wrong_qnums_tracks_last_answer
    (m : gmap Z Stats) (user_id : Z) (p : string)
    (q1 q2 q3 : Question) (between1 between2 : list StatsCall) :
  let m1 := update_stats user_id q1 p false m in
  let m2 := update_stats user_id q2 p true (run_calls m1 between1) in
  let m3 := update_stats user_id q3 p false (run_calls m2 between2) in
  p ∈ wrong_of m1 user_id ∧ (p ∉ wrong_of m2 user_id) ∧ p ∈ wrong_of m3 user_id.
Proof.
  simpl. rewrite !wrong_of_update.
  split; [apply elem_of_union_r, elem_of_singleton_2; reflexivity|].
  split; [|apply elem_of_union_r, elem_of_singleton_2; reflexivity].
  rewrite elem_of_difference, elem_of_singleton. tauto.
Qed.

(** ** Handlers *)

Global Arguments load_questions : simpl never.

Ltac m_unfold :=
  unfold mbind, M_bind, mret, M_ret, raise, lift, emit, modify, get_state,
    getitem in *.

Section frame.

Lemma keeps_globals_ret {A} (a : A) : keeps_globals (mret a).
Proof. by intros w. Qed.

Lemma keeps_globals_raise {A} (e : exn) : keeps_globals (@raise A e).
Proof. by intros w. Qed.

Lemma keeps_globals_lift {A} (r : exn + A) : keeps_globals (lift r).
Proof. by intros w. Qed.

Lemma keeps_globals_emit (o : Out) : keeps_globals (emit o).
Proof. by intros w. Qed.

Lemma keeps_globals_get_state : keeps_globals get_state.
Proof. by intros w. Qed.

Lemma keeps_globals_getitem {A} (o : option A) : keeps_globals (getitem o).
Proof. by destruct o; intros w. Qed.

Lemma keeps_globals_bind {A B} (m : M A) (f : A → M B) :
  keeps_globals m → (∀ a, keeps_globals (f a)) → keeps_globals (m ≫= f).
Proof.
  intros Hm Hf w. specialize (Hm w). m_unfold.
  destruct (m w) as [[e|a] w'] eqn:E; simpl in *; [done|].
  by rewrite Hf.
Qed.

Lemma keeps_globals_choice {A} (l : list A) (rnd : nat) :
  keeps_globals (choice l rnd).
Proof. unfold choice. by destruct (l !! _); intros w. Qed.

Lemma keeps_globals_randint1 (n rnd : nat) : keeps_globals (randint1 n rnd).
Proof. unfold randint1. by destruct (n =? 0)%nat; intros w. Qed.

End frame.

Create HintDb frame discriminated.
#[export] Hint Resolve keeps_globals_ret keeps_globals_raise keeps_globals_lift
  keeps_globals_emit keeps_globals_get_state keeps_globals_getitem
  keeps_globals_choice keeps_globals_randint1 : frame.

Ltac frame_step :=
  match goal with
  | |- keeps_globals (_ ≫= _) => apply keeps_globals_bind; [|intros ?]
  | |- keeps_globals (match ?x with _ => _ end) => destruct x
  | |- keeps_globals (if ?b then _ else _) => destruct b
  | |- keeps_globals (let '(_, _) := ?x in _) => destruct x
  | |- keeps_globals _ => solve [auto with frame]
  end.

Ltac frame := repeat frame_step.

Section presenter.
Context `{Runtime} (cat : Catalog).

Lemma keeps_globals_answer_buttons q options nav_mode qnum :
  keeps_globals (answer_buttons q options nav_mode qnum).
Proof. unfold answer_buttons. frame. Qed.

Lemma keeps_globals_send_question_universal user_id q qnum nav_mode :
  keeps_globals (send_question_universal cat user_id q qnum nav_mode).
Proof.
  unfold send_question_universal. frame.
  apply keeps_globals_answer_buttons.
Qed.

Lemma keeps_globals_find_qnum items q : keeps_globals (find_qnum items q).
Proof.
  induction items as [|[num obj] items IH]; simpl; frame.
Qed.

Lemma keeps_globals_index_at qnum : keeps_globals (index_at cat qnum).
Proof. unfold index_at. frame. Qed.

Lemma keeps_globals_unpack2 l : keeps_globals (unpack2 l).
Proof. unfold unpack2. frame. Qed.

Lemma keeps_globals_unpack5 l : keeps_globals (unpack5 l).
Proof. unfold unpack5. frame. Qed.

(** [send_question_universal] sends the message that presents the
    question, or raises [KeyError] before sending anything. *)
Lemma send_question_universal_run user_id q qnum nav_mode w :
  send_question_universal cat user_id q qnum nav_mode w
  = match question_message cat user_id q qnum nav_mode with
    | Some o => (inr tt, replied w [o])
    | None => (inl KeyError, w)
    end.
Proof.
  unfold question_message, presentable, send_question_universal,
    answer_buttons.
  destruct (q_options q) as [[|lt options]|]; [| |done].
  - m_unfold. simpl.
    by destruct (truthy (q_image q) && path_exists (default "" (q_image q))).
  - destruct (q_id q) as [id|]; [|done]. m_unfold. simpl.
    by destruct (truthy (q_image q) && path_exists (default "" (q_image q))).
Qed.

Lemma question_message_presentable user_id q qnum nav_mode :
  presentable q = true →
  ∃ o, question_message cat user_id q qnum nav_mode = Some o.
Proof. intros Hp. unfold question_message. rewrite Hp. eauto. Qed.

Lemma question_message_not_presentable user_id q qnum nav_mode :
  presentable q = false →
  question_message cat user_id q qnum nav_mode = None.
Proof. intros Hp. unfold question_message. by rewrite Hp. Qed.

End presenter.

#[export] Hint Resolve keeps_globals_answer_buttons
  keeps_globals_send_question_universal keeps_globals_find_qnum
  keeps_globals_index_at keeps_globals_unpack2 keeps_globals_unpack5 : frame.

Section navigation.
Context `{Runtime} (cat : Catalog).

Lemma keeps_globals_goto_handler user_id text :
  keeps_globals (goto_handler cat user_id text).
Proof. unfold goto_handler. frame. Qed.

Lemma keeps_globals_nav_prev user_id data :
  keeps_globals (nav_prev cat user_id data).
Proof. unfold nav_prev. frame. Qed.

Lemma keeps_globals_nav_next user_id data :
  keeps_globals (nav_next cat user_id data).
Proof. unfold nav_next. frame. Qed.

Lemma keeps_globals_random_question user_id rnd :
  keeps_globals (random_question cat user_id rnd).
Proof. unfold random_question. frame. Qed.

Lemma keeps_globals_topic_handler user_id text rnd :
  keeps_globals (topic_handler cat user_id text rnd).
Proof. unfold topic_handler, send_topic_question. frame. Qed.

Lemma keeps_globals_topics_handler : keeps_globals (topics_handler cat).
Proof. unfold topics_handler. frame. Qed.

Lemma keeps_globals_stats_handler user_id :
  keeps_globals (stats_handler user_id).
Proof. unfold stats_handler. frame. Qed.

Lemma keeps_globals_review_wrong_handler user_id rnd :
  keeps_globals (review_wrong_handler cat user_id rnd).
Proof. unfold review_wrong_handler. frame. Qed.

Lemma keeps_globals_intro_help : keeps_globals intro_help.
Proof. unfold intro_help. frame. Qed.

End navigation.

(** ** Navigation by position *)

Section goto.
Context `{Runtime} (json : list Question).

(** A token found in [QUESTION_INDEX] is the numeral of a position. *)
Lemma indexed_token_literal (tok : string) (q : Question) :
  od_get (QUESTION_INDEX (load_questions json)) tok = Some q →
  nat_literal tok.
Proof.
  intros (i & -> & _)%QUESTION_INDEX_lookup.
  exists (i + 1)%nat. f_equal. lia.
Qed.

(** C5. A [/goto] request that has no single token, or whose token is not
    a non-negative integer literal or names no position of the catalog, is
    answered with the format message or the not-found message and nothing
    else: the globals (all Session and Statistics entries) are unchanged
    and the handler returns normally. *)
Theorem goto_bad_token_replies_and_keeps_state
    (user_id : Z) (text : string) (w : World) :
  (∀ cmd tok, Str.split text = [cmd; tok] →
     ¬ nat_literal tok
     ∨ od_get (QUESTION_INDEX (load_questions json)) tok = None) →
  ∃ msg, (msg = goto_format_msg ∨ msg = goto_missing_msg) ∧
    goto_handler (load_questions json) user_id text w
    = (inr tt, replied w [Answer msg None]).
Proof.
  intros Hbad. unfold goto_handler.
  destruct (Str.split text) as [|cmd [|tok [|x l]]] eqn:E;
    try (exists goto_format_msg; split; [by left | done]).
  assert (od_get (QUESTION_INDEX (load_questions json)) tok = None) as Hnone.
  { destruct (Hbad cmd tok eq_refl) as [Hlit|?]; [|done].
    destruct (od_get _ tok) as [q|] eqn:Hq; [|done].
    destruct Hlit. by eapply indexed_token_literal. }
  rewrite Hnone. destruct (Str.isdigit tok).
  - exists goto_missing_msg. split; [by right | done].
  - exists goto_format_msg. split; [by left | done].
Qed.

End goto.

Section relative.
Context `{Runtime} (json : list Question).

Lemma split_callback (name : string) (k : Z) :
  Str.all_chars (λ a, negb (Ascii.eqb a "|")) name = true →
  0 < k →
  Str.split_on "|" (name ++ String "|" (Str.str k)) = [name; Str.str k].
Proof.
  intros Hname Hk. rewrite split_on_app by done.
  rewrite split_on_no_sep; [done|].
  apply digits_no_bar. by apply str_pos_digits.
Qed.

Lemma nav_prev_at (user_id : Z) (k : Z) (w : World) :
  0 < k →
  nav_prev (load_questions json) user_id ("nav_prev|" ++ Str.str k) w
  = match od_get (QUESTION_INDEX (load_questions json)) (Str.str (k - 1)) with
    | None => (inr tt, replied w [Answer first_question_msg None; CallbackAnswer])
    | Some q =>
        (send_question_universal (load_questions json) user_id q
           (Some (Str.str (k - 1))) "manual";;
         emit CallbackAnswer) w
    end.
Proof.
  intros Hk. unfold nav_prev.
  change ("nav_prev|" ++ Str.str k)
    with ("nav_prev" ++ String "|" (Str.str k)).
  rewrite split_callback by done.
  unfold unpack2. m_unfold. simpl. rewrite int_str by done.
  destruct (od_get _ (Str.str (k - 1))); [done|].
  unfold replied. simpl. by rewrite <-app_assoc.
Qed.

Lemma nav_next_at (user_id : Z) (k : Z) (w : World) :
  0 < k →
  nav_next (load_questions json) user_id ("nav_next|" ++ Str.str k) w
  = match od_get (QUESTION_INDEX (load_questions json)) (Str.str (k + 1)) with
    | None => (inr tt, replied w [Answer last_question_msg None; CallbackAnswer])
    | Some q =>
        (send_question_universal (load_questions json) user_id q
           (Some (Str.str (k + 1))) "manual";;
         emit CallbackAnswer) w
    end.
Proof.
  intros Hk. unfold nav_next.
  change ("nav_next|" ++ Str.str k)
    with ("nav_next" ++ String "|" (Str.str k)).
  rewrite split_callback by done.
  unfold unpack2. m_unfold. simpl. rewrite int_str by done.
  destruct (od_get _ (Str.str (k + 1))); [done|].
  unfold replied. simpl. by rewrite <-app_assoc.
Qed.

Lemma present_then_acknowledge user_id q qnum w :
  (send_question_universal (load_questions json) user_id q qnum "manual";;
   emit CallbackAnswer) w
  = match question_message (load_questions json) user_id q qnum "manual" with
    | Some o => (inr tt, replied w [o; CallbackAnswer])
    | None => (inl KeyError, w)
    end.
Proof.
  m_unfold. rewrite send_question_universal_run.
  destruct (question_message _ user_id q qnum "manual") as [o|]; [|done].
  unfold replied. simpl. by rewrite <-app_assoc.
Qed.

(** C6. From a displayed position [k] of the catalog (any difficulties, any
    per-user state): [nav_prev] presents, in manual mode, the question at
    position [k - 1] when [k > 1] and that question can be shown (it has
    options, and an id when it has an option): what is sent is its
    message under the label [k - 1], and then the acknowledgement of the
    button. For a question that cannot be shown it raises [KeyError] and
    nothing is sent. When [k = 1] it replies with the first-question
    notice. [nav_next] does the same with position [k + 1] and the
    last-question notice. Neither changes the globals. *)
Theorem nav_prev_next_walk_full_catalog
    (user_id : Z) (k : Z) (w : World) :
  1 ≤ k ≤ Z.of_nat (length json) →
  let cat := load_questions json in
  (∀ q, 1 < k → json !! Z.to_nat (k - 2) = Some q →
     (presentable q = true →
      ∃ o, question_message cat user_id q (Some (Str.str (k - 1))) "manual"
           = Some o ∧
        nav_prev cat user_id ("nav_prev|" ++ Str.str k) w
        = (inr tt, replied w [o; CallbackAnswer])) ∧
     (presentable q = false →
      nav_prev cat user_id ("nav_prev|" ++ Str.str k) w = (inl KeyError, w))) ∧
  (k = 1 →
     nav_prev cat user_id ("nav_prev|" ++ Str.str k) w
     = (inr tt, replied w [Answer first_question_msg None; CallbackAnswer])) ∧
  (∀ q, k < Z.of_nat (length json) → json !! Z.to_nat k = Some q →
     (presentable q = true →
      ∃ o, question_message cat user_id q (Some (Str.str (k + 1))) "manual"
           = Some o ∧
        nav_next cat user_id ("nav_next|" ++ Str.str k) w
        = (inr tt, replied w [o; CallbackAnswer])) ∧
     (presentable q = false →
      nav_next cat user_id ("nav_next|" ++ Str.str k) w = (inl KeyError, w))) ∧
  (k = Z.of_nat (length json) →
     nav_next cat user_id ("nav_next|" ++ Str.str k) w
     = (inr tt, replied w [Answer last_question_msg None; CallbackAnswer])) ∧
  globals (nav_prev cat user_id ("nav_prev|" ++ Str.str k) w).2 = globals w ∧
  globals (nav_next cat user_id ("nav_next|" ++ Str.str k) w).2 = globals w.
Proof.
  intros Hk cat. subst cat.
  split; [|split; [|split; [|split; [|split]]]].
  - intros q Hk1 Hq. rewrite nav_prev_at by lia.
    rewrite QUESTION_INDEX_at, decide_True by lia.
    replace (Z.to_nat (k - 1 - 1)) with (Z.to_nat (k - 2)) by lia.
    rewrite Hq, present_then_acknowledge. split; intros Hp.
    + destruct (question_message_presentable (load_questions json) user_id q
                  (Some (Str.str (k - 1))) "manual" Hp) as [o Ho].
      exists o. by rewrite Ho.
    + by rewrite question_message_not_presentable.
  - intros ->. rewrite nav_prev_at by lia.
    by rewrite QUESTION_INDEX_at, decide_False by lia.
  - intros q Hk1 Hq. rewrite nav_next_at by lia.
    rewrite QUESTION_INDEX_at, decide_True by lia.
    replace (Z.to_nat (k + 1 - 1)) with (Z.to_nat k) by lia.
    rewrite Hq, present_then_acknowledge. split; intros Hp.
    + destruct (question_message_presentable (load_questions json) user_id q
                  (Some (Str.str (k + 1))) "manual" Hp) as [o Ho].
      exists o. by rewrite Ho.
    + by rewrite question_message_not_presentable.
  - intros ->. rewrite nav_next_at by lia.
    rewrite QUESTION_INDEX_at, decide_True by lia.
    rewrite lookup_ge_None_2; [done|]. lia.
  - apply keeps_globals_nav_prev.
  - apply keeps_globals_nav_next.
Qed.

End relative.

(** ** Topic lookup *)

Section topics.
Context `{Runtime} (json : list Question).

Lemma add_topic_keys idx item (t : string) :
  t ∈ od_keys (add_topic idx item) → t ∈ od_keys idx ∨ t ≠ "".
Proof.
  unfold add_topic. destruct (q_topic item.2) as [topic|]; [|by left].
  destruct (String.eqb_spec topic ""); [by left|].
  rewrite od_set_keys. intros [?| ->]; [by left | by right].
Qed.

Lemma topic_keys_nonempty_from idx items (t : string) :
  t ∈ od_keys (foldl add_topic idx items) → t ∈ od_keys idx ∨ t ≠ "".
Proof.
  revert idx. induction items as [|item items IH]; intros idx; simpl.
  - by left.
  - intros Hin. destruct (IH _ Hin) as [Hk|?]; [|by right].
    by apply add_topic_keys in Hk.
Qed.

(** [if topic:] keeps the empty name out of [TOPIC_INDEX]. *)
Lemma TOPIC_INDEX_nonempty (t : string) :
  t ∈ od_keys (TOPIC_INDEX (load_questions json)) → t ≠ "".
Proof.
  intros Hin. apply topic_keys_nonempty_from in Hin as [Hin|?]; [|done].
  by apply not_elem_of_nil in Hin.
Qed.

(** An entry of [TOPIC_NAME_MAP] maps the lowercased name of a known topic
    to that topic. *)
Lemma TOPIC_NAME_MAP_elem (low canon : string) :
  (low, canon) ∈ TOPIC_NAME_MAP (load_questions json) →
  canon ∈ od_keys (TOPIC_INDEX (load_questions json)) ∧ lower canon = low.
Proof.
  intros Hin. apply od_of_list_elem in Hin.
  apply list_elem_of_fmap in Hin as (t & [= -> ->] & Ht). done.
Qed.

Lemma TOPIC_NAME_MAP_keys (t : string) :
  t ∈ od_keys (TOPIC_INDEX (load_questions json)) →
  lower t ∈ od_keys (TOPIC_NAME_MAP (load_questions json)).
Proof.
  intros Ht. apply od_of_list_keys. unfold od_keys.
  apply list_elem_of_fmap. exists (lower t, t). split; [done|].
  apply list_elem_of_fmap. by exists t.
Qed.

Lemma first_prefix_Some items query canon :
  first_prefix items query = Some canon →
  ∃ low, (low, canon) ∈ items ∧ Str.startswith low query = true.
Proof.
  induction items as [|[low0 canon0] items IH]; simpl; [done|].
  destruct (Str.startswith low0 query) eqn:E.
  - intros [= ->]. exists low0. split; [apply elem_of_cons; by left | done].
  - intros (low & Hin & Hp)%IH. exists low.
    split; [apply elem_of_cons; by right | done].
Qed.

Lemma first_prefix_None items query :
  (∀ low canon, (low, canon) ∈ items → Str.startswith low query = false) →
  first_prefix items query = None.
Proof.
  induction items as [|[low0 canon0] items IH]; simpl; [done|].
  intros Hall. rewrite (Hall low0 canon0) by (apply elem_of_cons; by left).
  apply IH. intros low canon Hin. apply (Hall low canon).
  apply elem_of_cons. by right.
Qed.

(** C7. For a [/topic] request with an argument, whose normalised query is
    [lower(strip(arg))]: (1) if a known topic has that lowercased name, the
    handler resolves a known topic with that lowercased name (the topic
    itself when it is the only one), whatever topics match by prefix, and
    goes on to send one of its questions; (2) if no known topic matches the
    query exactly or by prefix, the handler replies with the not-found
    message, changes nothing and returns normally. *)
Theorem topic_exact_match_wins_and_miss_is_reported
    (user_id : Z) (text cmd arg : string) (rnd : nat) (w : World) :
  Str.split_max1 text = [cmd; arg] →
  let cat := load_questions json in
  let query := lower (Str.strip arg) in
  (∀ topic, topic ∈ od_keys (TOPIC_INDEX cat) → lower topic = query →
     ∃ resolved,
       resolved ∈ od_keys (TOPIC_INDEX cat) ∧ lower resolved = query ∧
       ((∀ t, t ∈ od_keys (TOPIC_INDEX cat) → lower t = query → t = topic) →
        resolved = topic) ∧
       topic_handler cat user_id text rnd w
       = send_topic_question cat user_id resolved rnd w) ∧
  ((∀ topic, topic ∈ od_keys (TOPIC_INDEX cat) →
      lower topic ≠ query ∧ Str.startswith (lower topic) query = false) →
   topic_handler cat user_id text rnd w
   = (inr tt, replied w [Answer topic_missing_msg None])).
Proof.
  intros Hsplit cat query. split.
  - intros topic Hknown Hlow.
    destruct (od_get (TOPIC_NAME_MAP cat) query) as [canon|] eqn:Hget.
    2:{ apply od_get_None in Hget. destruct Hget.
        rewrite <-Hlow. by apply TOPIC_NAME_MAP_keys. }
    pose proof (od_get_Some_elem _ _ _ Hget) as Hin.
    apply TOPIC_NAME_MAP_elem in Hin as [Hc Hl].
    exists canon. repeat split; [done | done | by intros Huniq; apply Huniq |].
    unfold topic_handler. rewrite Hsplit. fold cat query.
    unfold resolve_topic. rewrite Hget. simpl.
    pose proof (TOPIC_INDEX_nonempty canon Hc) as Hne.
    by destruct (String.eqb_spec canon "").
  - intros Hnone. unfold topic_handler. rewrite Hsplit. fold cat query.
    assert (resolve_topic cat query = None) as ->; [|done].
    unfold resolve_topic.
    destruct (od_get (TOPIC_NAME_MAP cat) query) as [canon|] eqn:Hget.
    { pose proof (od_get_Some_elem _ _ _ Hget) as Hin.
      apply TOPIC_NAME_MAP_elem in Hin as [Hc Hl].
      by destruct (Hnone canon Hc). }
    apply first_prefix_None. intros low canon Hin.
    apply TOPIC_NAME_MAP_elem in Hin as [Hc <-].
    by destruct (Hnone canon Hc).
Qed.

End topics.

(** ** Sequential mode and answer evaluation *)

Section sequential.
Context `{Runtime} (cat : Catalog).

Lemma keeps_globals_run {A} (m : M A) (w : World) :
  keeps_globals m → globals (m w).2 = globals w.
Proof. intros Hm. apply Hm. Qed.

(** The part of [send_sequential] after the session is settled. *)
Lemma keeps_globals_send_at user_id (questions : list Question) (idx : nat) :
  keeps_globals
    (match questions !! idx with
     | None => emit (SendMessage user_id level_done_msg None)
     | Some q =>
         qnum ← find_qnum (QUESTION_INDEX cat) q;
         send_question_universal cat user_id q qnum "sequential"
     end).
Proof. frame. Qed.

(** [send_sequential] for the level the user's session is already on
    leaves the globals alone: the reset branch is not taken. *)
Lemma send_sequential_same_level user_id difficulty (p : Progress) w :
  USER_PROGRESS (globals w) !! user_id = Some p →
  p_difficulty p = difficulty →
  globals (send_sequential cat user_id difficulty w).2 = globals w.
Proof.
  intros Hp Hd. unfold send_sequential.
  destruct (get_questions_by_difficulty cat difficulty) as [|q0 qs]; [done|].
  m_unfold. simpl. rewrite Hp, Hd, String.eqb_refl.
  apply (keeps_globals_send_at user_id (q0 :: qs) (p_index p)).
Qed.

Lemma continue_sequential_no_session user_id nav_mode w :
  USER_PROGRESS (globals w) !! user_id = None →
  continue_sequential cat user_id nav_mode w = (inr tt, w).
Proof.
  intros Hp. unfold continue_sequential.
  destruct (String.eqb nav_mode "sequential"); [|done].
  m_unfold. simpl. by rewrite Hp.
Qed.

Lemma continue_sequential_manual user_id nav_mode w :
  String.eqb nav_mode "sequential" = false →
  continue_sequential cat user_id nav_mode w = (inr tt, w).
Proof. intros Hn. unfold continue_sequential. by rewrite Hn. Qed.

Lemma continue_sequential_advances user_id (p : Progress) w :
  USER_PROGRESS (globals w) !! user_id = Some p →
  globals (continue_sequential cat user_id "sequential" w).2
  = set_progress user_id
      (mkProgress (p_difficulty p) (p_index p + 1)%nat) (globals w).
Proof.
  intros Hp. unfold continue_sequential. simpl.
  m_unfold. simpl. rewrite Hp.
  rewrite (send_sequential_same_level user_id (p_difficulty p)
             (mkProgress (p_difficulty p) (p_index p + 1)%nat));
    [done | simpl; apply lookup_insert_eq | done].
Qed.

Lemma correct_option_text_run (q : Question) w :
  correct_option_text q w
  = (match option_text_of q with Some t => inr t | None => inl KeyError end, w).
Proof.
  unfold correct_option_text, option_text_of. m_unfold.
  destruct (q_options q) as [options|]; simpl; [|done].
  destruct (correct_letter q) as [letter|]; [|done].
  by destruct (od_get options letter).
Qed.

Lemma answer_result_run (is_correct : bool) (q : Question) w :
  answer_result is_correct q w
  = (match result_line is_correct q with
     | Some r => inr r
     | None => inl KeyError
     end, w).
Proof.
  unfold answer_result, result_line. destruct is_correct; [done|].
  m_unfold. rewrite correct_option_text_run.
  by destruct (option_text_of q).
Qed.

(** [answer_handler] on well-shaped callback data for a position of the
    index: the ledger is updated first; then the feedback is built and sent,
    unless the text of the correct option cannot be looked up; then comes
    the sequential continuation. *)
Lemma answer_handler_run user_id data a qid choice nav_mode qnum q w :
  Str.split_on "|" data = [a; qid; choice; nav_mode; qnum] →
  od_get (QUESTION_INDEX cat) qnum = Some q →
  answer_handler cat user_id data w
  = let is_correct := is_correct_choice choice q in
    let recorded :=
      set_stats (update_stats user_id q qnum is_correct) (globals w) in
    match result_line is_correct q with
    | None => (inl KeyError, mkWorld recorded (sent w))
    | Some result =>
        (continue_sequential cat user_id nav_mode;; emit CallbackAnswer)
          (mkWorld recorded
             (sent w ++ [Answer (feedback_text result q) None]))
    end.
Proof.
  intros Hsplit Hq. unfold answer_handler, index_at. rewrite Hsplit.
  unfold unpack5. m_unfold.
  cbn -[answer_result continue_sequential update_stats is_correct_choice].
  rewrite Hq.
  cbn -[answer_result continue_sequential update_stats is_correct_choice].
  rewrite answer_result_run.
  by destruct (result_line (is_correct_choice choice q) q).
Qed.

Lemma answer_handler_unknown_position user_id data a qid choice nav_mode qnum w :
  Str.split_on "|" data = [a; qid; choice; nav_mode; qnum] →
  od_get (QUESTION_INDEX cat) qnum = None →
  answer_handler cat user_id data w = (inl KeyError, w).
Proof.
  intros Hsplit Hq. unfold answer_handler, index_at. rewrite Hsplit.
  unfold unpack5. m_unfold. simpl. by rewrite Hq.
Qed.

Lemma answer_handler_bad_data user_id data w :
  (∀ a qid choice nav_mode qnum,
     Str.split_on "|" data ≠ [a; qid; choice; nav_mode; qnum]) →
  answer_handler cat user_id data w = (inl ValueError, w).
Proof.
  intros Hsplit. unfold answer_handler.
  destruct (Str.split_on "|" data) as [|a [|b [|c [|d [|e [|f l]]]]]]; try done.
  by destruct (Hsplit a b c d e).
Qed.

End sequential.

(** ** The trace only grows *)

Section trace.

Lemma appends_ret {A} (a : A) : appends (mret a).
Proof. intros w. exists []. simpl. by rewrite app_nil_r. Qed.

Lemma appends_raise {A} (e : exn) : appends (@raise A e).
Proof. intros w. exists []. simpl. by rewrite app_nil_r. Qed.

Lemma appends_lift {A} (r : exn + A) : appends (lift r).
Proof. intros w. exists []. simpl. by rewrite app_nil_r. Qed.

Lemma appends_get_state : appends get_state.
Proof. intros w. exists []. simpl. by rewrite app_nil_r. Qed.

Lemma appends_modify f : appends (modify f).
Proof. intros w. exists []. simpl. by rewrite app_nil_r. Qed.

Lemma appends_emit (o : Out) : appends (emit o).
Proof. intros w. by exists [o]. Qed.

Lemma appends_getitem {A} (o : option A) : appends (getitem o).
Proof. destruct o; [apply appends_ret | apply appends_raise]. Qed.

Lemma appends_bind {A B} (m : M A) (f : A → M B) :
  appends m → (∀ a, appends (f a)) → appends (m ≫= f).
Proof.
  intros Hm Hf w. destruct (Hm w) as [outs Houts]. m_unfold.
  destruct (m w) as [[e|a] w'] eqn:E; simpl in *; [by exists outs|].
  destruct (Hf a w') as [outs' Houts']. exists (outs ++ outs')%list.
  by rewrite Houts', Houts, app_assoc.
Qed.

End trace.

Create HintDb trace discriminated.
#[export] Hint Resolve appends_ret appends_raise appends_lift appends_get_state
  appends_modify appends_emit appends_getitem : trace.

Ltac trace_step :=
  match goal with
  | |- appends (_ ≫= _) => apply appends_bind; [|intros ?]
  | |- appends (match ?x with _ => _ end) => destruct x
  | |- appends (if ?b then _ else _) => destruct b
  | |- appends _ => solve [auto with trace]
  end.

Ltac trace := repeat trace_step.

Section trace_handlers.
Context `{Runtime} (cat : Catalog).

Lemma appends_send_question_universal user_id q qnum nav_mode :
  appends (send_question_universal cat user_id q qnum nav_mode).
Proof. unfold send_question_universal, answer_buttons. trace. Qed.

Lemma appends_find_qnum items q : appends (find_qnum items q).
Proof. induction items as [|[num obj] items IH]; simpl; trace. Qed.

Lemma appends_send_sequential user_id difficulty :
  appends (send_sequential cat user_id difficulty).
Proof.
  unfold send_sequential. trace;
    auto using appends_find_qnum, appends_send_question_universal.
Qed.

Lemma appends_continue_sequential user_id nav_mode :
  appends (continue_sequential cat user_id nav_mode).
Proof.
  unfold continue_sequential. trace. apply appends_send_sequential.
Qed.

Lemma keeps_stats_of_globals {A} (m : M A) : keeps_globals m → keeps_stats m.
Proof. intros Hm w. by rewrite Hm. Qed.

Lemma keeps_stats_set_progress user_id p :
  keeps_stats (modify (set_progress user_id p)).
Proof. by intros w. Qed.

Lemma keeps_stats_bind {A B} (m : M A) (f : A → M B) :
  keeps_stats m → (∀ a, keeps_stats (f a)) → keeps_stats (m ≫= f).
Proof.
  intros Hm Hf w. specialize (Hm w). m_unfold.
  destruct (m w) as [[e|a] w'] eqn:E; simpl in *; [done|].
  by rewrite Hf.
Qed.

Ltac stats_step :=
  match goal with
  | |- keeps_stats (modify (set_progress _ _)) => apply keeps_stats_set_progress
  | |- keeps_stats (_ ≫= _) => apply keeps_stats_bind; [|intros ?]
  | |- keeps_stats (match ?x with _ => _ end) => destruct x
  | |- keeps_stats (if ?b then _ else _) => destruct b
  | |- keeps_stats _ => solve [apply keeps_stats_of_globals; frame]
  end.

(** [send_sequential] and the continuation write sessions only. *)
Lemma keeps_stats_send_sequential user_id difficulty :
  keeps_stats (send_sequential cat user_id difficulty).
Proof. unfold send_sequential. repeat stats_step. Qed.

Lemma keeps_stats_continue_sequential user_id nav_mode :
  keeps_stats (continue_sequential cat user_id nav_mode).
Proof.
  unfold continue_sequential. repeat stats_step.
  apply keeps_stats_send_sequential.
Qed.

(** A last step that keeps the globals does not change what the first
    steps made of them. *)
Lemma globals_bind_keeps {A B} (m : M A) (f : A → M B) w :
  (∀ a, keeps_globals (f a)) →
  globals ((m ≫= f) w).2 = globals (m w).2.
Proof.
  intros Hf. m_unfold. destruct (m w) as [[e|a] w']; simpl; [done|].
  apply Hf.
Qed.

End trace_handlers.

(** ** The session cursor *)

Section cursor.
Context `{Runtime} (cat : Catalog).

Lemma progress_of_keeps_globals {A} (m : M A) w :
  keeps_globals m →
  USER_PROGRESS (globals (m w).2) = USER_PROGRESS (globals w).
Proof. intros Hm. by rewrite Hm. Qed.

Lemma well_formed_indexed qnum q :
  catalog_well_formed cat = true →
  od_get (QUESTION_INDEX cat) qnum = Some q →
  well_formed q = true.
Proof.
  intros Hwf Hq. unfold catalog_well_formed in Hwf.
  rewrite forallb_forall in Hwf.
  apply (Hwf (qnum, q)). apply list_elem_of_In. by apply od_get_Some_elem.
Qed.

Lemma result_line_well_formed (is_correct : bool) q :
  well_formed q = true → ∃ r, result_line is_correct q = Some r.
Proof.
  unfold well_formed, result_line. destruct is_correct; [by eauto|].
  destruct (option_text_of q); [by eauto | done].
Qed.

Lemma level_handler_progress user_id data w :
  USER_PROGRESS (globals (level_handler cat user_id data w).2)
  = cursor_spec cat user_id (OpLevel data) (USER_PROGRESS (globals w)).
Proof.
  unfold level_handler, cursor_spec, unpack2.
  destruct (Str.split_on "|" data) as [|a [|difficulty [|x l]]]; try done.
  m_unfold. cbn -[send_sequential].
  match goal with
  | |- context [send_sequential cat user_id difficulty ?w1] =>
      pose proof (send_sequential_same_level cat user_id difficulty
                    (mkProgress difficulty 0) w1
                    (lookup_insert_eq _ _ _) eq_refl) as Hs;
      destruct (send_sequential cat user_id difficulty w1) as [[e|[]] w2]
  end; simpl in *; by rewrite Hs.
Qed.

Lemma answer_handler_progress user_id data w :
  catalog_well_formed cat = true →
  USER_PROGRESS (globals (answer_handler cat user_id data w).2)
  = cursor_spec cat user_id (OpAnswer data) (USER_PROGRESS (globals w)).
Proof.
  intros Hwf. unfold cursor_spec.
  destruct (Str.split_on "|" data)
    as [|a [|qid [|choice [|nav_mode [|qnum [|x l]]]]]] eqn:E;
    try (rewrite answer_handler_bad_data; [done | intros; congruence]).
  unfold od_mem.
  destruct (od_get (QUESTION_INDEX cat) qnum) as [q|] eqn:Hq.
  2:{ rewrite (answer_handler_unknown_position cat user_id data _ _ _ _ _ w E Hq).
      by rewrite andb_false_r. }
  rewrite (answer_handler_run cat user_id data _ _ _ _ _ q w E Hq). cbv zeta.
  destruct (result_line_well_formed (is_correct_choice choice q) q
              (well_formed_indexed _ _ Hwf Hq)) as [r ->].
  rewrite globals_bind_keeps by (intros ?; apply keeps_globals_emit).
  rewrite andb_true_r.
  destruct (String.eqb_spec nav_mode "sequential") as [->|Hne].
  - destruct (USER_PROGRESS (globals w) !! user_id) as [p|] eqn:Hp.
    + by rewrite (continue_sequential_advances cat user_id p).
    + by rewrite continue_sequential_no_session.
  - rewrite continue_sequential_manual; [done|].
    by apply String.eqb_neq.
Qed.

Lemma fallback_handler_progress user_id text w :
  USER_PROGRESS (globals (fallback_handler user_id text w).2)
  = USER_PROGRESS (globals w).
Proof.
  unfold fallback_handler. destruct (Str.startswith text "/"); [done|].
  m_unfold. simpl. by case_bool_decide.
Qed.

(** C2. On a catalog whose questions carry their correct option, every
    operation leaves the sessions as the cursor rule says: an answer in
    sequential mode by a user with a session moves that user's cursor up by
    exactly one, correct or not; selecting a level sets it to 0; and no
    other operation, and no operation of another user, changes a cursor. *)
Theorem cursor_follows_the_rule (user_id : Z) (op : Op) (w : World) :
  catalog_well_formed cat = true →
  USER_PROGRESS (globals (run_op cat user_id op w).2)
  = cursor_spec cat user_id op (USER_PROGRESS (globals w)).
Proof.
  intros Hwf. destruct op; simpl run_op.
  - done.
  - apply level_handler_progress.
  - apply progress_of_keeps_globals. unfold intro_random. frame.
    apply keeps_globals_random_question.
  - apply progress_of_keeps_globals, keeps_globals_intro_help.
  - apply progress_of_keeps_globals, keeps_globals_goto_handler.
  - apply progress_of_keeps_globals, keeps_globals_random_question.
  - apply progress_of_keeps_globals, keeps_globals_stats_handler.
  - apply progress_of_keeps_globals, keeps_globals_review_wrong_handler.
  - apply progress_of_keeps_globals, keeps_globals_topics_handler.
  - apply progress_of_keeps_globals, keeps_globals_topic_handler.
  - apply progress_of_keeps_globals, keeps_globals_nav_prev.
  - apply progress_of_keeps_globals, keeps_globals_nav_next.
  - by apply answer_handler_progress.
  - apply fallback_handler_progress.
Qed.

End cursor.

(** ** Answer evaluation *)

Section evaluation.
Context `{Runtime} (cat : Catalog).

Lemma answer_handler_stats user_id data a qid choice nav_mode qnum q w :
  Str.split_on "|" data = [a; qid; choice; nav_mode; qnum] →
  od_get (QUESTION_INDEX cat) qnum = Some q →
  USER_STATS (globals (answer_handler cat user_id data w).2)
  = update_stats user_id q qnum (is_correct_choice choice q)
      (USER_STATS (globals w)).
Proof.
  intros Hsplit Hq. rewrite (answer_handler_run cat _ _ _ _ _ _ _ _ _ Hsplit Hq).
  cbv zeta. destruct (result_line _ q) as [r|]; [|done].
  rewrite globals_bind_keeps by (intros ?; apply keeps_globals_emit).
  by rewrite keeps_stats_continue_sequential.
Qed.

Lemma answer_handler_feedback user_id data a qid choice nav_mode qnum q w r :
  Str.split_on "|" data = [a; qid; choice; nav_mode; qnum] →
  od_get (QUESTION_INDEX cat) qnum = Some q →
  result_line (is_correct_choice choice q) q = Some r →
  ∃ rest,
    sent (answer_handler cat user_id data w).2
    = (sent w ++ Answer (feedback_text r q) None :: rest)%list.
Proof.
  intros Hsplit Hq Hr. rewrite (answer_handler_run cat _ _ _ _ _ _ _ _ _ Hsplit Hq).
  cbv zeta. rewrite Hr.
  destruct (appends_bind (continue_sequential cat user_id nav_mode)
              (λ _, emit CallbackAnswer)
              (appends_continue_sequential cat user_id nav_mode)
              (λ _, appends_emit CallbackAnswer)
              (mkWorld
                 (set_stats (update_stats user_id q qnum
                               (is_correct_choice choice q)) (globals w))
                 (sent w ++ [Answer (feedback_text r q) None])))
    as [rest Hrest].
  exists rest. rewrite Hrest. simpl. by rewrite <-app_assoc.
Qed.

(** C9. For an answer to an indexed question [q]: the letter the choice is
    compared with is [q]'s [answer] field, or its [correct] field when
    [answer] is absent or empty; the answer is recorded as correct exactly
    when the choice is that letter, character for character; a correct
    answer is acknowledged with the right-answer line, an incorrect one
    with the wrong-answer line naming the letter and its option text; and
    the explanation that ends the feedback is empty when [q] has neither
    explanation field. *)
Theorem answer_judged_by_exact_letter
    (user_id : Z) (data a qid choice nav_mode qnum : string) (q : Question)
    (w : World) :
  Str.split_on "|" data = [a; qid; choice; nav_mode; qnum] →
  od_get (QUESTION_INDEX cat) qnum = Some q →
  let after := (answer_handler cat user_id data w).2 in
  let letter :=
    match q_answer q with
    | Some s => if String.eqb s "" then q_correct q else Some s
    | None => q_correct q
    end in
  let judged := bool_decide (letter = Some choice) in
  USER_STATS (globals after)
  = update_stats user_id q qnum judged (USER_STATS (globals w)) ∧
  ∃ explanation,
    (q_explanation_kg q = None → q_explanation q = None → explanation = "") ∧
    (judged = true →
     ∃ rest, sent after
       = (sent w ++
          Answer (right_msg ++ nl ++ nl ++ "Түшүндүрмө:" ++ nl ++ explanation)
            None :: rest)%list) ∧
    (judged = false → ∀ text, option_text_of q = Some text →
     ∃ rest, sent after
       = (sent w ++
          Answer (wrong_msg letter text ++ nl ++ nl ++ "Түшүндүрмө:" ++ nl
                  ++ explanation) None :: rest)%list).
Proof.
  intros Hsplit Hq after letter judged.
  assert (letter = correct_letter q) as Hletter.
  { unfold letter, correct_letter, or_, truthy.
    destruct (q_answer q) as [s|]; [|done]. by destruct (String.eqb s ""). }
  assert (judged = is_correct_choice choice q) as Hjudged.
  { unfold judged, is_correct_choice. rewrite Hletter.
    apply bool_decide_ext. split; congruence. }
  split.
  { subst after. rewrite Hjudged. by eapply answer_handler_stats. }
  exists (explanation_of q). split; [|split].
  - intros Hkg Hex. unfold explanation_of. by rewrite Hkg, Hex.
  - intros Htrue. rewrite Hjudged in Htrue.
    apply (answer_handler_feedback user_id data a qid choice nav_mode qnum q w
             right_msg Hsplit Hq).
    unfold result_line. by rewrite Htrue.
  - intros Hfalse text Htext. rewrite Hjudged in Hfalse. rewrite Hletter.
    apply (answer_handler_feedback user_id data a qid choice nav_mode qnum q w
             (wrong_msg (correct_letter q) text) Hsplit Hq).
    unfold result_line. by rewrite Hfalse, Htext.
Qed.

(** C10. An answer in sequential mode from a user who has no session is
    recorded in the ledger like any other: the user's entry (a fresh one
    when there was none) gets one more answer in [total] and in the
    counters of the question's difficulty, one more correct answer exactly
    when the answer is correct, and the position enters the wrong-set on an
    incorrect answer and leaves it on a correct one; the entries of the
    other users stay as they were. No session changes, and no question
    follows: either the feedback and the acknowledgement of the button are
    all that is sent, or (an incorrect answer to a question that lacks its
    correct option) the handler raises and nothing is sent. *)
Theorem sequential_answer_without_session
    (user_id : Z) (data a qid choice qnum : string) (q : Question) (w : World) :
  Str.split_on "|" data = [a; qid; choice; "sequential"; qnum] →
  od_get (QUESTION_INDEX cat) qnum = Some q →
  USER_PROGRESS (globals w) !! user_id = None →
  let result := answer_handler cat user_id data w in
  let is_correct := is_correct_choice choice q in
  let old := default (mkStats 0 0 [] ∅) (USER_STATS (globals w) !! user_id) in
  let diff := default "unknown" (q_difficulty q) in
  let before := default (mkDiffStats 0 0) (od_get (by_diff old) diff) in
  let gain := if is_correct then 1%nat else 0%nat in
  USER_STATS (globals result.2)
  = update_stats user_id q qnum is_correct (USER_STATS (globals w)) ∧
  (∃ new, USER_STATS (globals result.2) !! user_id = Some new ∧
     total new = (total old + 1)%nat ∧
     correct new = (correct old + gain)%nat ∧
     od_get (by_diff new) diff
     = Some (mkDiffStats (d_total before + 1) (d_correct before + gain)) ∧
     (∀ d, d ≠ diff → od_get (by_diff new) d = od_get (by_diff old) d) ∧
     (qnum ∈ wrong_qnums new ↔ is_correct = false) ∧
     (∀ p, p ≠ qnum → p ∈ wrong_qnums new ↔ p ∈ wrong_qnums old)) ∧
  (∀ other, other ≠ user_id →
     USER_STATS (globals result.2) !! other
     = USER_STATS (globals w) !! other) ∧
  USER_PROGRESS (globals result.2) = USER_PROGRESS (globals w) ∧
  ((∃ text, result.1 = inr tt ∧
      sent result.2 = (sent w ++ [Answer text None; CallbackAnswer])%list)
   ∨ (result.1 = inl KeyError ∧ sent result.2 = sent w)).
Proof.
  intros Hsplit Hq Hnone result is_correct old diff before gain.
  assert (USER_STATS (globals result.2)
          = update_stats user_id q qnum is_correct (USER_STATS (globals w)))
    as Hstats by (by eapply answer_handler_stats).
  split; [done|]. split.
  { rewrite Hstats. eexists. split; [apply update_stats_entry|].
    subst old diff before gain. simpl.
    destruct is_correct; simpl; rewrite ?Nat.add_0_r;
      (split; [done|]; split; [done|]; split; [apply od_get_set_eq|];
       split; [intros d Hd; by apply od_get_set_ne|]).
    - split.
      + rewrite elem_of_difference, elem_of_singleton. split; [tauto | done].
      + intros p Hp. rewrite elem_of_difference, elem_of_singleton. tauto.
    - split.
      + rewrite elem_of_union, elem_of_singleton. split; [done | tauto].
      + intros p Hp. rewrite elem_of_union, elem_of_singleton. tauto. }
  split.
  { intros other Hne. rewrite Hstats. by apply update_stats_other. }
  subst result.
  rewrite (answer_handler_run cat _ _ _ _ _ _ _ _ _ Hsplit Hq). cbv zeta.
  destruct (result_line _ q) as [r|]; [|split; [done | by right]].
  m_unfold. rewrite continue_sequential_no_session by done. simpl.
  split; [done|]. left. exists (feedback_text r q).
  split; [done|]. by rewrite <-app_assoc.
Qed.

End evaluation.

(** ** Analytics queries *)

Section analytics.
Import Db.
Context `{Values}.

(** The shape all seven functions share: [if not conn: return zero], then
    [try: ... except Exception: return zero]. *)
Lemma guarded_query_degraded {A B} (env : Env) (query : Connection → exn + A)
    (f : A → B) (zero : B) :
  degraded env query →
  get_conn (_pool env) (λ conn,
    match conn with
    | None => inr zero
    | Some conn => try_return (f <$> query conn) zero
    end) = inr zero.
Proof.
  unfold degraded, get_conn.
  destruct (_pool env) as [p|]; [|done].
  destruct (acquire p) as [e|conn]; [done|].
  intros [[e He] Hrel]. rewrite He, Hrel. done.
Qed.

Lemma guarded_query_degraded_id {A} (env : Env) (query : Connection → exn + A)
    (zero : A) :
  degraded env query →
  get_conn (_pool env) (λ conn,
    match conn with
    | None => inr zero
    | Some conn => try_return (query conn) zero
    end) = inr zero.
Proof.
  unfold degraded, get_conn.
  destruct (_pool env) as [p|]; [|done].
  destruct (acquire p) as [e|conn]; [done|].
  intros [[e He] Hrel]. rewrite He, Hrel. done.
Qed.

(** When releasing the connection raises, the [except] clause of [get_conn]
    yields a second time and the caller gets a [RuntimeError], whatever the
    body returned. *)
Remark get_conn_release_raises {A} (p : Pool) (conn : Connection) (e : exn)
    (body : option Connection → exn + A) :
  acquire p = inr conn → release p = Some e →
  get_conn (Some p) body = inl RuntimeError.
Proof.
  intros Ha Hr. unfold get_conn. rewrite Ha, Hr.
  by destruct (body (Some conn)).
Qed.

(** X25. Each of the seven read queries returns the zero value of its
    result type, and does not raise, when the store is unavailable (no
    pool, or no connection can be acquired) or when its statement raises on
    the acquired connection (which is then released normally). *)
Theorem read_queries_degrade_to_zero (env : Env) (q : ReadQuery) :
  degraded_for env q → run_query env q = inr (zero_value q).
Proof.
  destruct q; simpl; intros Hd.
  - unfold get_dau_today. by rewrite guarded_query_degraded.
  - unfold get_attempts_today. by rewrite guarded_query_degraded.
  - unfold get_attempts_total. by rewrite guarded_query_degraded.
  - unfold get_accuracy. by rewrite guarded_query_degraded.
  - unfold get_attempts_per_day. by rewrite guarded_query_degraded.
  - unfold get_top_users_last_7_days. by rewrite guarded_query_degraded_id.
  - unfold get_retention_d1. by rewrite guarded_query_degraded.
Qed.

End analytics.

(** ** The theorems at work on the sample catalog *)

Section sample.
Local Existing Instance Sample.runtime.
Local Existing Instance Sample.values.

(** C2 on the sample: after picking the easy level, a wrong answer to the
    first question moves user 7 from cursor 0 to cursor 1. *)
Lemma cursor_follows_the_rule_sample :
  catalog_well_formed Sample.catalog = true ∧
  USER_PROGRESS
    (globals (run_op Sample.catalog 7 (OpAnswer "answer|q1|B|sequential|1")
                (Sample.picked_easy 7)).2)
  = cursor_spec Sample.catalog 7 (OpAnswer "answer|q1|B|sequential|1")
      (USER_PROGRESS (globals (Sample.picked_easy 7))) ∧
  cursor_spec Sample.catalog 7 (OpAnswer "answer|q1|B|sequential|1")
    (USER_PROGRESS (globals (Sample.picked_easy 7))) !! 7
  = Some (mkProgress "easy" 1).
Proof.
  split; [vm_compute; reflexivity|].
  split; [|vm_compute; reflexivity].
  apply (cursor_follows_the_rule Sample.catalog 7
           (OpAnswer "answer|q1|B|sequential|1") (Sample.picked_easy 7)).
  vm_compute. reflexivity.
Defined.

(** C2 needs its hypothesis: on a question whose answer letter is not
    among its options the cursor rule fails. After user 7 picked the
    level, an incorrect answer in sequential mode is counted, the handler
    raises [KeyError] and the cursor stays at 0, where the rule says 1. *)
Lemma cursor_stays_when_feedback_fails :
  let cat := load_questions [Sample.q_malformed] in
  let w := (level_handler cat 7 "level|easy" Sample.start).2 in
  let op := OpAnswer "answer|q4|A|sequential|1" in
  USER_PROGRESS (globals w) !! 7 = Some (mkProgress "easy" 0) ∧
  (run_op cat 7 op w).1 = inl KeyError ∧
  total <$> USER_STATS (globals (run_op cat 7 op w).2) !! 7 = Some 1%nat ∧
  USER_PROGRESS (globals (run_op cat 7 op w).2) !! 7
  = Some (mkProgress "easy" 0) ∧
  cursor_spec cat 7 op (USER_PROGRESS (globals w)) !! 7
  = Some (mkProgress "easy" 1) ∧
  USER_PROGRESS (globals (run_op cat 7 op w).2)
  ≠ cursor_spec cat 7 op (USER_PROGRESS (globals w)).
Proof.
  cbv zeta.
  assert (USER_PROGRESS
            (globals (run_op (load_questions [Sample.q_malformed]) 7
                        (OpAnswer "answer|q4|A|sequential|1")
                        (level_handler (load_questions [Sample.q_malformed]) 7
                           "level|easy" Sample.start).2).2) !! 7
          = Some (mkProgress "easy" 0)) as Hstays
    by (vm_compute; reflexivity).
  assert (cursor_spec (load_questions [Sample.q_malformed]) 7
            (OpAnswer "answer|q4|A|sequential|1")
            (USER_PROGRESS
               (globals (level_handler (load_questions [Sample.q_malformed]) 7
                           "level|easy" Sample.start).2)) !! 7
          = Some (mkProgress "easy" 1)) as Hrule
    by (vm_compute; reflexivity).
  split; [vm_compute; reflexivity|].
  split; [vm_compute; reflexivity|].
  split; [vm_compute; reflexivity|].
  split; [exact Hstays|]. split; [exact Hrule|].
  intros Heq. rewrite Heq, Hrule in Hstays. discriminate Hstays.
Qed.

(** C4. On the sample, an answer to position 99, which the catalog does
    not have, is not handled: [answer_handler] raises [KeyError] at
    [QUESTION_INDEX[qnum]] and tells the user nothing, where [/goto 99]
    replies that there is no such question and [nav_next] from the last
    position replies with the last-question notice. *)
Theorem answer_to_unknown_position_not_handled :
  od_get (QUESTION_INDEX Sample.catalog) "99" = None ∧
  answer_handler Sample.catalog 7 "answer|q1|A|manual|99" Sample.start
  = (inl KeyError, Sample.start) ∧
  ¬ handled Sample.start
      (answer_handler Sample.catalog 7 "answer|q1|A|manual|99" Sample.start) ∧
  goto_handler Sample.catalog 7 "/goto 99" Sample.start
  = (inr tt, replied Sample.start [Answer goto_missing_msg None]) ∧
  nav_next Sample.catalog 7 "nav_next|3" Sample.start
  = (inr tt, replied Sample.start [Answer last_question_msg None; CallbackAnswer]).
Proof.
  split; [vm_compute; reflexivity|].
  split; [vm_compute; reflexivity|]. split.
  - intros [Hreturned _]. vm_compute in Hreturned. discriminate Hreturned.
  - split; vm_compute; reflexivity.
Qed.

(** C5 on the sample: [/goto 99] on three questions. *)
Lemma goto_bad_token_sample :
  (∀ cmd tok, Str.split "/goto 99" = [cmd; tok] →
     ¬ nat_literal tok ∨ od_get (QUESTION_INDEX Sample.catalog) tok = None) ∧
  ∃ msg, (msg = goto_format_msg ∨ msg = goto_missing_msg) ∧
    goto_handler Sample.catalog 7 "/goto 99" Sample.start
    = (inr tt, replied Sample.start [Answer msg None]).
Proof.
  assert (∀ cmd tok, Str.split "/goto 99" = [cmd; tok] →
            ¬ nat_literal tok
            ∨ od_get (QUESTION_INDEX (load_questions Sample.json)) tok = None)
    as Hbad.
  { intros cmd tok Hsplit. vm_compute in Hsplit.
    injection Hsplit as <- <-. right. vm_compute. reflexivity. }
  split; [exact Hbad|].
  exact (goto_bad_token_replies_and_keeps_state Sample.json 7 "/goto 99"
           Sample.start Hbad).
Defined.

(** C6 on the sample: from position 2, [nav_prev] sends user 7 the first
    question under the label 1, with the buttons A, B, Previous and Next,
    and acknowledges the button. *)
Lemma nav_prev_next_sample :
  1 ≤ 2 ≤ Z.of_nat (length Sample.json) ∧
  presentable Sample.q1 = true ∧
  ∃ text kb,
    nav_prev Sample.catalog 7 ("nav_prev|" ++ Str.str 2) Sample.start
    = (inr tt,
       replied Sample.start [SendMessage 7 text (Some kb); CallbackAnswer]) ∧
    question_message Sample.catalog 7 Sample.q1 (Some (Str.str (2 - 1)))
      "manual"
    = Some (SendMessage 7 text (Some kb)) ∧
    Str.startswith text ("Суроо 1 / 3" ++ nl) = true ∧
    map b_callback_data (kb_buttons kb)
    = ["answer|q1|A|manual|1"; "answer|q1|B|manual|1"; "nav_prev|1";
       "nav_next|1"].
Proof.
  assert (1 ≤ 2 ≤ Z.of_nat (length Sample.json)) as Hk
    by (vm_compute; split; discriminate).
  split; [exact Hk|]. split; [reflexivity|].
  destruct (nav_prev_next_walk_full_catalog Sample.json 7 2 Sample.start Hk)
    as (Hprev & _).
  destruct (Hprev Sample.q1 ltac:(lia) eq_refl) as [Hshown _].
  destruct (Hshown eq_refl) as (o & Ho & Hrun).
  assert (∃ text kb, o = SendMessage 7 text (Some kb) ∧
            Str.startswith text ("Суроо 1 / 3" ++ nl) = true ∧
            map b_callback_data (kb_buttons kb)
            = ["answer|q1|A|manual|1"; "answer|q1|B|manual|1"; "nav_prev|1";
               "nav_next|1"]) as (text & kb & -> & Htext & Hkb).
  { vm_compute in Ho. injection Ho as <-.
    eexists _, _. split; [reflexivity|]. split; vm_compute; reflexivity. }
  exists text, kb. split; [exact Hrun|]. split; [exact Ho|].
  split; [exact Htext | exact Hkb].
Defined.

(** C6 needs a question that can be shown: where the next position holds
    a question without options, the position exists, and [nav_next] raises
    [KeyError] with nothing sent. *)
Lemma nav_next_to_question_without_options_raises :
  let cat := load_questions [Sample.q1; Sample.q_bare] in
  od_get (QUESTION_INDEX cat) "2" = Some Sample.q_bare ∧
  ¬ handled Sample.start (nav_next cat 7 "nav_next|1" Sample.start) ∧
  nav_next cat 7 "nav_next|1" Sample.start = (inl KeyError, Sample.start).
Proof.
  split; [vm_compute; reflexivity|]. split.
  - intros [Hreturned _]. vm_compute in Hreturned. discriminate Hreturned.
  - vm_compute. reflexivity.
Qed.

(** C7 on the sample: [algebra] is a prefix of the first topic of the
    index, Algebra II, and the exact name of the second, which wins; [zzz]
    matches nothing. *)
Lemma topic_lookup_sample :
  Str.split_max1 "/topic algebra" = ["/topic"; "algebra"] ∧
  topic_handler Sample.catalog 7 "/topic algebra" 0 Sample.start
  = send_topic_question Sample.catalog 7 "Algebra" 0 Sample.start ∧
  Str.split_max1 "/topic zzz" = ["/topic"; "zzz"] ∧
  topic_handler Sample.catalog 7 "/topic zzz" 0 Sample.start
  = (inr tt, replied Sample.start [Answer topic_missing_msg None]).
Proof.
  assert (od_keys (TOPIC_INDEX (load_questions Sample.json))
          = ["Algebra II"; "Algebra"; "Geometry"]) as Hkeys
    by (vm_compute; reflexivity).
  unfold Sample.catalog.
  split; [vm_compute; reflexivity|]. split.
  - destruct (topic_exact_match_wins_and_miss_is_reported Sample.json 7
                "/topic algebra" "/topic" "algebra" 0 Sample.start eq_refl)
      as [Hexact _].
    destruct (Hexact "Algebra") as (resolved & _ & _ & Hsame & Hrun).
    + rewrite Hkeys. apply elem_of_cons. right. apply elem_of_cons. by left.
    + vm_compute. reflexivity.
    + rewrite Hrun, Hsame; [reflexivity|].
      intros t Ht Hl. rewrite Hkeys in Ht.
      repeat (apply elem_of_cons in Ht as [->|Ht]);
        [vm_compute in Hl; discriminate Hl | reflexivity
        | vm_compute in Hl; discriminate Hl | by apply not_elem_of_nil in Ht].
  - split; [vm_compute; reflexivity|].
    destruct (topic_exact_match_wins_and_miss_is_reported Sample.json 7
                "/topic zzz" "/topic" "zzz" 0 Sample.start eq_refl)
      as [_ Hmiss].
    apply Hmiss. intros t Ht. rewrite Hkeys in Ht.
    repeat (apply elem_of_cons in Ht as [->|Ht]);
      [split; [vm_compute; discriminate | vm_compute; reflexivity] ..
      | by apply not_elem_of_nil in Ht].
Defined.

(** C8. On a store whose connection raises on every statement and whose
    pool raises when the connection is given back, each of the seven read
    queries raises [RuntimeError] instead of returning its zero value:
    the [except] clause of [get_conn] catches the exception of the release
    and yields a second time. *)
Theorem read_queries_raise_on_leaking_store (q : Db.ReadQuery) :
  Db.run_query Sample.leaking_store q = inl RuntimeError ∧
  Db.run_query Sample.leaking_store q ≠ inr (Db.zero_value q).
Proof. destruct q; split; (reflexivity || discriminate). Qed.

(** X25 on the sample: without a pool, and with a connection that raises. *)
Lemma read_queries_sample :
  Db.degraded_for Sample.no_store (Db.DauToday 6) ∧
  Db.run_query Sample.no_store (Db.DauToday 6) = inr (Db.Count 0) ∧
  Db.degraded_for Sample.broken_store Db.Accuracy ∧
  Db.run_query Sample.broken_store Db.Accuracy = inr (Db.Percentage 0).
Proof.
  assert (Db.degraded_for Sample.no_store (Db.DauToday 6)) as H1
    by exact I.
  assert (Db.degraded_for Sample.broken_store Db.Accuracy) as H2
    by (split; [by exists DatabaseError | reflexivity]).
  split; [exact H1|].
  split; [exact (read_queries_degrade_to_zero _ _ H1)|].
  split; [exact H2|].
  exact (read_queries_degrade_to_zero _ _ H2).
Defined.

(** C9 on the sample: the answer of question 1 is [A]; the choice [a] is
    recorded as incorrect. *)
Lemma answer_judged_sample :
  Str.split_on "|" "answer|q1|a|manual|1" = ["answer"; "q1"; "a"; "manual"; "1"] ∧
  od_get (QUESTION_INDEX Sample.catalog) "1" = Some Sample.q1 ∧
  USER_STATS
    (globals (answer_handler Sample.catalog 7 "answer|q1|a|manual|1"
                Sample.start).2)
  = update_stats 7 Sample.q1 "1" false ∅.
Proof.
  split; [vm_compute; reflexivity|].
  split; [vm_compute; reflexivity|].
  apply (answer_judged_by_exact_letter Sample.catalog 7 "answer|q1|a|manual|1"
           "answer" "q1" "a" "manual" "1" Sample.q1 Sample.start);
    vm_compute; reflexivity.
Defined.

(** C10 on the sample: a correct sequential answer to the first question
    from user 7, who has neither a session nor an entry: the entry counts
    one answer, one correct answer, one of one at the easy level, and the
    wrong-set does not hold the position. *)
Lemma sequential_answer_without_session_sample :
  Str.split_on "|" "answer|q1|A|sequential|1"
  = ["answer"; "q1"; "A"; "sequential"; "1"] ∧
  od_get (QUESTION_INDEX Sample.catalog) "1" = Some Sample.q1 ∧
  USER_PROGRESS (globals Sample.start) !! 7 = None ∧
  let result :=
    answer_handler Sample.catalog 7 "answer|q1|A|sequential|1" Sample.start in
  (∃ new, USER_STATS (globals result.2) !! 7 = Some new ∧
     total new = 1%nat ∧ correct new = 1%nat ∧
     od_get (by_diff new) "easy" = Some (mkDiffStats 1 1) ∧
     ¬ "1" ∈ wrong_qnums new) ∧
  USER_PROGRESS (globals result.2) = USER_PROGRESS (globals Sample.start) ∧
  result.1 = inr tt ∧
  length (sent result.2) = 2%nat.
Proof.
  split; [vm_compute; reflexivity|].
  split; [vm_compute; reflexivity|].
  split; [reflexivity|].
  destruct (sequential_answer_without_session Sample.catalog 7
              "answer|q1|A|sequential|1" "answer" "q1" "A" "1" Sample.q1
              Sample.start)
    as (_ & (new & Hnew & Htotal & Hcorrect & Hdiff & _ & Hwrong & _)
        & _ & Hprogress & _);
    [vm_compute; reflexivity | vm_compute; reflexivity | reflexivity |].
  split.
  { exists new. split; [exact Hnew|].
    split; [exact Htotal|]. split; [exact Hcorrect|].
    split; [exact Hdiff|].
    intros Hin. apply Hwrong in Hin. vm_compute in Hin. discriminate Hin. }
  split; [exact Hprogress|].
  split; vm_compute; reflexivity.
Defined.

End sample.

(** ** More on the ledger *)

Section ledger_extra.

(** X1. One call of [update_stats] changes the caller's entry only. There
    it adds one to [total], one to [correct] exactly for a correct answer,
    and the same to the counters of the question's difficulty, which is
    [unknown] for a question without one; the counters of the other
    difficulties stay as they were. The position leaves the wrong-set on
    a correct answer and enters it on an incorrect one; the other
    positions of the wrong-set stay as they were. *)
Theorem update_stats_counts_one_answer
    (user_id : Z) (question : Question) (qnum : string) (is_correct : bool)
    (m : gmap Z Stats) :
  let old := default (mkStats 0 0 [] ∅) (m !! user_id) in
  let diff := default "unknown" (q_difficulty question) in
  let before := default (mkDiffStats 0 0) (od_get (by_diff old) diff) in
  let gain := if is_correct then 1%nat else 0%nat in
  let m' := update_stats user_id question qnum is_correct m in
  (∀ other, other ≠ user_id → m' !! other = m !! other) ∧
  ∃ new, m' !! user_id = Some new ∧
    total new = (total old + 1)%nat ∧
    correct new = (correct old + gain)%nat ∧
    od_get (by_diff new) diff
    = Some (mkDiffStats (d_total before + 1) (d_correct before + gain)) ∧
    (∀ d, d ≠ diff → od_get (by_diff new) d = od_get (by_diff old) d) ∧
    (qnum ∈ wrong_qnums new ↔ is_correct = false) ∧
    (∀ p, p ≠ qnum → p ∈ wrong_qnums new ↔ p ∈ wrong_qnums old).
Proof.
  simpl. split; [intros other Hne; by apply update_stats_other|].
  eexists. split; [apply update_stats_entry|]. simpl.
  destruct is_correct; simpl; rewrite ?Nat.add_0_r;
    (split; [done|]; split; [done|]; split; [apply od_get_set_eq|];
     split; [intros d Hd; by apply od_get_set_ne|]).
  - split.
    + rewrite elem_of_difference, elem_of_singleton. split; [tauto | done].
    + intros p Hp. rewrite elem_of_difference, elem_of_singleton. tauto.
  - split.
    + rewrite elem_of_union, elem_of_singleton. split; [done | tauto].
    + intros p Hp. rewrite elem_of_union, elem_of_singleton. tauto.
Qed.

Lemma update_stats_bounded user_id question qnum (is_correct : bool) m :
  map_Forall (λ _ s, stats_bounded s) m →
  map_Forall (λ _ s, stats_bounded s)
    (update_stats user_id question qnum is_correct m).
Proof.
  intros Hm u s Hs.
  destruct (decide (u = user_id)) as [->|Hne].
  2:{ rewrite update_stats_other in Hs by done. by apply (Hm u). }
  rewrite update_stats_entry in Hs. injection Hs as <-.
  assert (correct (default (mkStats 0 0 [] ∅) (m !! user_id))
          ≤ total (default (mkStats 0 0 [] ∅) (m !! user_id)) ∧
          size (wrong_qnums (default (mkStats 0 0 [] ∅) (m !! user_id)))
          ≤ total (default (mkStats 0 0 [] ∅) (m !! user_id))
            - correct (default (mkStats 0 0 [] ∅) (m !! user_id)))%nat
    as [Hc Hw].
  { destruct (m !! user_id) as [s0|] eqn:E; simpl.
    - destruct (Hm user_id s0 E) as (_ & ? & ?). done.
    - split; [lia|]. change (size (∅ : gset string) ≤ 0)%nat.
      by rewrite size_empty. }
  unfold stats_bounded. simpl. split; [lia|].
  destruct is_correct; simpl.
  - split; [lia|].
    pose proof (subseteq_size
      (wrong_qnums (default (mkStats 0 0 [] ∅) (m !! user_id)) ∖ {[qnum]})
      (wrong_qnums (default (mkStats 0 0 [] ∅) (m !! user_id)))
      (subseteq_difference_l _ _ _ (reflexivity _))).
    lia.
  - split; [lia|].
    rewrite size_union_alt.
    pose proof (subseteq_size
      (({[qnum]} : gset string)
       ∖ wrong_qnums (default (mkStats 0 0 [] ∅) (m !! user_id)))
      {[qnum]} (subseteq_difference_l _ _ _ (reflexivity _))) as Hle.
    rewrite size_singleton in Hle. lia.
Qed.

(** X2. From the empty ledger, after any calls of [update_stats], every
    entry has answered at least once, has no more correct answers than
    answers, and has no more positions in its wrong-set than incorrect
    answers. *)
Theorem ledger_counters_bounded (cs : list StatsCall) :
  map_Forall (λ _ s, stats_bounded s) (run_calls ∅ cs).
Proof.
  assert (∀ m, map_Forall (λ _ s, stats_bounded s) m →
               map_Forall (λ _ s, stats_bounded s) (run_calls m cs)) as Hgen.
  { induction cs as [|c cs IH]; intros m Hm; simpl; [done|].
    apply IH. by apply update_stats_bounded. }
  apply Hgen, map_Forall_empty.
Qed.

End ledger_extra.

(** ** More on the catalog *)

Section catalog_extra.
Context `{Runtime} (json : list Question).

Lemma index_items_from_key_list (j : nat) (qs : list Question) :
  od_keys (map (λ iq : nat * Question, (Str.str (Z.of_nat iq.1 + 1), iq.2))
             (enumerate_from j qs))
  = map (λ i : nat, Str.str (Z.of_nat i + 1)) (seq j (length qs)).
Proof.
  unfold od_keys. revert j. induction qs as [|q qs IH]; intros j; simpl.
  - done.
  - f_equal. apply IH.
Qed.

(** X3. After [load_questions], the keys of [QUESTION_INDEX] are, in
    order, the numerals of 1 to the number of questions, and a token finds
    a question exactly when it is the numeral of a position, in which case
    it finds the question at that position of the file. *)
Theorem question_index_maps_positions :
  od_keys (QUESTION_INDEX (load_questions json))
  = map (λ i : nat, Str.str (Z.of_nat i + 1)) (seq 0 (length json)) ∧
  ∀ tok q,
    od_get (QUESTION_INDEX (load_questions json)) tok = Some q
    ↔ ∃ i : nat, tok = Str.str (Z.of_nat i + 1) ∧ json !! i = Some q.
Proof.
  split.
  - rewrite QUESTION_INDEX_loaded. apply index_items_from_key_list.
  - intros tok q. apply QUESTION_INDEX_lookup.
Qed.

Lemma od_get_elem_nodup {V} (d : list (string * V)) k v :
  NoDup (od_keys d) → (k, v) ∈ d → od_get d k = Some v.
Proof.
  unfold od_keys. induction d as [|[k' v'] d IH]; simpl.
  - intros _ Hin. by apply not_elem_of_nil in Hin.
  - intros [Hnotin Hnd]%NoDup_cons [[= -> ->]|Hin]%elem_of_cons.
    + by rewrite decide_True.
    + destruct (decide (k' = k)) as [->|Hne]; [|by apply IH].
      destruct Hnotin. apply list_elem_of_fmap. by exists (k, v).
Qed.

Lemma add_topic_listed idx (n0 : string) (q0 : Question) (t n : string) :
  listed_under (add_topic idx (n0, q0)) t n
  ↔ listed_under idx t n ∨ (q_topic q0 = Some t ∧ t ≠ "" ∧ n = n0).
Proof.
  unfold add_topic, listed_under. simpl.
  destruct (q_topic q0) as [topic|]; [|by intuition congruence].
  destruct (String.eqb_spec topic "") as [->|Hne].
  { split; [by left | intros [?|([= <-] & ? & _)]; done]. }
  destruct (decide (topic = t)) as [->|Hdiff].
  - rewrite od_get_set_eq. split.
    + intros (l & [= <-] & Hin). apply elem_of_app in Hin as [Hin|Hin].
      * left. destruct (od_get idx t) as [l0|]; [by exists l0|].
        by apply not_elem_of_nil in Hin.
      * right. apply list_elem_of_singleton in Hin. done.
    + intros [(l & Hl & Hin)|(_ & _ & ->)]; eexists; (split; [done|]).
      * rewrite Hl. apply elem_of_app. by left.
      * apply elem_of_app. right. by apply list_elem_of_singleton.
  - rewrite od_get_set_ne by done. split; [by left|].
    intros [?|([= ?] & _)]; done.
Qed.

Lemma foldl_add_topic_listed idx items (t n : string) :
  listed_under (foldl add_topic idx items) t n
  ↔ listed_under idx t n
    ∨ (t ≠ "" ∧ ∃ q, (n, q) ∈ items ∧ q_topic q = Some t).
Proof.
  revert idx. induction items as [|[n0 q0] items IH]; intros idx; simpl.
  - split; [by left | intros [?|(_ & q & Hin & _)]; [done|]].
    by apply not_elem_of_nil in Hin.
  - rewrite IH, add_topic_listed. split.
    + intros [[?|(Ht & Hne & ->)]|(Hne & q & Hin & Ht)].
      * by left.
      * right. split; [done|]. exists q0. split; [|done].
        apply elem_of_cons. by left.
      * right. split; [done|]. exists q. split; [|done].
        apply elem_of_cons. by right.
    + intros [?|(Hne & q & [[= -> ->]|Hin]%elem_of_cons & Ht)].
      * left. by left.
      * left. by right.
      * right. split; [done|]. by exists q.
Qed.

Lemma add_topic_lists_nonempty idx item :
  (∀ t l, od_get idx t = Some l → l ≠ []) →
  ∀ t l, od_get (add_topic idx item) t = Some l → l ≠ [].
Proof.
  intros Hidx t l. unfold add_topic.
  destruct (q_topic item.2) as [topic|]; [|apply Hidx].
  destruct (String.eqb topic ""); [apply Hidx|].
  destruct (decide (topic = t)) as [->|Hne].
  - rewrite od_get_set_eq. intros [= <-].
    by destruct (default [] (od_get idx t)).
  - rewrite od_get_set_ne by done. apply Hidx.
Qed.

Lemma foldl_add_topic_lists_nonempty idx items :
  (∀ t l, od_get idx t = Some l → l ≠ []) →
  ∀ t l, od_get (foldl add_topic idx items) t = Some l → l ≠ [].
Proof.
  revert idx. induction items as [|item items IH]; intros idx Hidx; simpl.
  - done.
  - apply IH. by apply add_topic_lists_nonempty.
Qed.

(** X4. After [load_questions], a position is listed under a topic exactly
    when the topic is not empty and the question at that position has that
    topic; and no topic has an empty list. *)
Theorem topic_index_lists_the_topic_questions :
  (∀ topic qnum,
     listed_under (TOPIC_INDEX (load_questions json)) topic qnum
     ↔ topic ≠ "" ∧ ∃ q,
         od_get (QUESTION_INDEX (load_questions json)) qnum = Some q ∧
         q_topic q = Some topic) ∧
  (∀ topic l,
     od_get (TOPIC_INDEX (load_questions json)) topic = Some l → l ≠ []).
Proof.
  split.
  - intros topic qnum.
    change (TOPIC_INDEX (load_questions json))
      with (foldl add_topic [] (QUESTION_INDEX (load_questions json))).
    rewrite foldl_add_topic_listed. split.
    + intros [(l & Hl & _)|(Hne & q & Hin & Ht)]; [done|].
      split; [done|]. exists q. split; [|done].
      apply od_get_elem_nodup; [|done].
      rewrite QUESTION_INDEX_loaded. apply index_items_from_nodup.
    + intros (Hne & q & Hq & Ht). right. split; [done|]. exists q.
      split; [by apply od_get_Some_elem | done].
  - change (TOPIC_INDEX (load_questions json))
      with (foldl add_topic [] (QUESTION_INDEX (load_questions json))).
    by apply foldl_add_topic_lists_nonempty.
Qed.

End catalog_extra.

(** ** Presenting a question *)

Section presenter_extra.
Context `{Runtime} (cat : Catalog).

Lemma send_question_universal_ok user_id q qnum nav_mode w :
  presentable q = true →
  ∃ o kb,
    send_question_universal cat user_id q qnum nav_mode w
     = (inr tt, replied w [o]) ∧
     question_keyboard user_id o = Some kb ∧
     kb_buttons kb
     = (map (λ lt : string * string,
               mkButton lt.1
                 ("answer|" ++ default "" (q_id q) ++ "|" ++ lt.1 ++ "|"
                  ++ nav_mode ++ "|" ++ Str.fmt_opt qnum))
          (default [] (q_options q))
        ++ [mkButton "⬅️ Previous" ("nav_prev|" ++ Str.fmt_opt qnum);
            mkButton "➡️ Next" ("nav_next|" ++ Str.fmt_opt qnum)])%list ∧
     length (kb_buttons kb) = (length (default [] (q_options q)) + 2)%nat ∧
     kb_adjust kb = [4; 2]%nat.
Proof.
  intros Hp. rewrite send_question_universal_run.
  unfold question_message. rewrite Hp.
  destruct (truthy (q_image q) && path_exists (default "" (q_image q)));
    eexists _, _; (split; [reflexivity|]); simpl;
    rewrite decide_True by done;
    (split; [done|]); (split; [done|]); (split; [|done]); simpl;
    rewrite length_app, length_map; simpl; lia.
Qed.

Lemma send_question_universal_fails user_id q qnum nav_mode w :
  presentable q = false →
  send_question_universal cat user_id q qnum nav_mode w = (inl KeyError, w).
Proof.
  intros Hp. rewrite send_question_universal_run.
  by rewrite question_message_not_presentable.
Qed.

(** X5. [send_question_universal] sends exactly one message, to the user,
    when the question has options and (if any option) an id. The buttons
    under it are, in this order: one per option, with the option letter
    as its text and [answer|id|letter|mode|label] as its callback data;
    then Previous and Next, with [nav_prev|label] and [nav_next|label];
    they are laid out by [adjust(4, 2)]. For any other question it raises
    [KeyError] before sending anything. It never changes the globals. *)
Theorem send_question_universal_one_message_or_key_error
    (user_id : Z) (q : Question) (qnum : option string) (nav_mode : string)
    (w : World) :
  (presentable q = true →
   ∃ o kb,
     send_question_universal cat user_id q qnum nav_mode w
     = (inr tt, replied w [o]) ∧
     question_keyboard user_id o = Some kb ∧
     kb_buttons kb
     = (map (λ lt : string * string,
               mkButton lt.1
                 ("answer|" ++ default "" (q_id q) ++ "|" ++ lt.1 ++ "|"
                  ++ nav_mode ++ "|" ++ Str.fmt_opt qnum))
          (default [] (q_options q))
        ++ [mkButton "⬅️ Previous" ("nav_prev|" ++ Str.fmt_opt qnum);
            mkButton "➡️ Next" ("nav_next|" ++ Str.fmt_opt qnum)])%list ∧
     length (kb_buttons kb) = (length (default [] (q_options q)) + 2)%nat ∧
     kb_adjust kb = [4; 2]%nat) ∧
  (presentable q = false →
   send_question_universal cat user_id q qnum nav_mode w = (inl KeyError, w)) ∧
  globals (send_question_universal cat user_id q qnum nav_mode w).2 = globals w.
Proof.
  split; [apply send_question_universal_ok|].
  split; [apply send_question_universal_fails|].
  apply keeps_globals_send_question_universal.
Qed.

Lemma bar_free_app s t :
  bar_free (s ++ t) = bar_free s && bar_free t.
Proof. apply all_chars_app. Qed.

Lemma split_on_field (s t : string) :
  bar_free s = true →
  Str.split_on "|" (s ++ "|" ++ t) = s :: Str.split_on "|" t.
Proof. intros Hs. by apply (split_on_app "|" s t). Qed.

Lemma answer_data_fields (id letter nav_mode qnum : string) :
  bar_free id = true → bar_free letter = true →
  bar_free nav_mode = true → bar_free qnum = true →
  Str.split_on "|"
    ("answer|" ++ id ++ "|" ++ letter ++ "|" ++ nav_mode ++ "|" ++ qnum)
  = ["answer"; id; letter; nav_mode; qnum].
Proof.
  intros Hid Hletter Hnav Hqnum.
  change ("answer|" ++ id ++ "|" ++ letter ++ "|" ++ nav_mode ++ "|" ++ qnum)
    with ("answer" ++ "|" ++ id ++ "|" ++ letter ++ "|" ++ nav_mode ++ "|"
          ++ qnum).
  rewrite !split_on_field by done.
  by rewrite (split_on_no_sep "|" qnum).
Qed.

End presenter_extra.

(** ** Answer buttons and the answer handler *)

Section buttons.
Context `{Runtime} (json : list Question).

Lemma split_on_nonempty sep s : Str.split_on sep s ≠ [].
Proof.
  destruct s as [|a s]; simpl; [done|].
  destruct (Ascii.eqb a sep); [done|]. by destruct (Str.split_on sep s).
Qed.

Lemma split_on_length_cons sep a s :
  length (Str.split_on sep (String a s))
  = if Ascii.eqb a sep then S (length (Str.split_on sep s))
    else length (Str.split_on sep s).
Proof.
  simpl. destruct (Ascii.eqb a sep); [done|].
  pose proof (split_on_nonempty sep s).
  by destruct (Str.split_on sep s).
Qed.

Lemma split_on_length_app sep s t :
  length (Str.split_on sep (s ++ String sep t))
  = (length (Str.split_on sep s) + length (Str.split_on sep t))%nat.
Proof.
  induction s as [|a s IH].
  - rewrite str_app_nil_l, split_on_length_cons, Ascii.eqb_refl. done.
  - rewrite str_app_cons, !split_on_length_cons, IH.
    by destruct (Ascii.eqb a sep).
Qed.

Lemma split_on_length_pos sep s : (1 ≤ length (Str.split_on sep s))%nat.
Proof.
  pose proof (split_on_nonempty sep s).
  destruct (Str.split_on sep s); [done | simpl; lia].
Qed.

Lemma split_on_length_bar s :
  bar_free s = false → (2 ≤ length (Str.split_on "|" s))%nat.
Proof.
  unfold bar_free. induction s as [|a s IH]; [done|].
  rewrite split_on_length_cons. simpl.
  destruct (Ascii.eqb a "|"); simpl.
  - intros _. pose proof (split_on_length_pos "|" s). lia.
  - apply IH.
Qed.

(** X6. The callback data on an answer button leads back to the question
    it was made for: for the question at position [i + 1] of a loaded
    catalog, whose id, option letters and navigation mode hold no
    separator, pressing any of its answer buttons makes [answer_handler]
    record an answer to that question at that position, judged on the
    letter of the button. *)
Theorem answer_button_round_trip
    (user_id : Z) (i : nat) (q : Question) (id nav_mode : string)
    (options : list (string * string)) (b : Button) (bs : list Button)
    (w w' : World) :
  json !! i = Some q →
  q_id q = Some id → bar_free id = true → bar_free nav_mode = true →
  forallb (λ lt : string * string, bar_free lt.1) options = true →
  answer_buttons q options nav_mode (Some (Str.str (Z.of_nat i + 1))) w
  = (inr bs, w) →
  b ∈ bs →
  USER_STATS
    (globals (answer_handler (load_questions json) user_id
                (b_callback_data b) w').2)
  = update_stats user_id q (Str.str (Z.of_nat i + 1))
      (is_correct_choice (b_text b) q) (USER_STATS (globals w')).
Proof.
  intros Hq Hid Hbar Hnav Hletters Hbuttons Hb.
  unfold answer_buttons in Hbuttons. rewrite Hid in Hbuttons.
  assert (∃ lt, lt ∈ options ∧
            b = mkButton lt.1
                  ("answer|" ++ id ++ "|" ++ lt.1 ++ "|" ++ nav_mode ++ "|"
                   ++ Str.str (Z.of_nat i + 1))) as (lt & Hlt & ->).
  { destruct options as [|lt0 options]; m_unfold; simpl in Hbuttons;
      injection Hbuttons as <-.
    - by apply not_elem_of_nil in Hb.
    - change (b ∈ map (λ lt : string * string,
                         mkButton lt.1
                           ("answer|" ++ id ++ "|" ++ lt.1 ++ "|" ++ nav_mode
                            ++ "|" ++ Str.str (Z.of_nat i + 1)))
                    (lt0 :: options)) in Hb.
      apply list_elem_of_fmap in Hb as (lt & -> & Hin). by exists lt. }
  simpl.
  assert (bar_free lt.1 = true) as Hletter.
  { rewrite forallb_forall in Hletters. apply Hletters.
    by apply list_elem_of_In. }
  eapply answer_handler_stats.
  - apply answer_data_fields; [done..|].
    apply digits_no_bar, str_pos_digits. lia.
  - apply QUESTION_INDEX_lookup. by exists i.
Qed.

(** X7. A question id that contains the separator breaks the answer
    buttons: the callback data then splits into more than five fields, and
    [answer_handler] raises [ValueError] at the unpacking, records nothing
    and sends nothing. *)
Theorem answer_button_with_bar_in_id_raises
    (cat : Catalog) (user_id : Z) (id letter nav_mode qnum : string)
    (w : World) :
  bar_free id = false →
  answer_handler cat user_id
    ("answer|" ++ id ++ "|" ++ letter ++ "|" ++ nav_mode ++ "|" ++ qnum) w
  = (inl ValueError, w).
Proof.
  intros Hid. apply answer_handler_bad_data.
  intros a b c d e Hsplit.
  assert (length (Str.split_on "|"
            ("answer" ++ "|" ++ id ++ "|" ++ letter ++ "|" ++ nav_mode
             ++ "|" ++ qnum)) = 5%nat) as Hlen.
  { change ("answer" ++ "|" ++ id ++ "|" ++ letter ++ "|" ++ nav_mode
            ++ "|" ++ qnum)
      with ("answer|" ++ id ++ "|" ++ letter ++ "|" ++ nav_mode ++ "|" ++ qnum).
    by rewrite Hsplit. }
  change ("|" ++ id ++ "|" ++ letter ++ "|" ++ nav_mode ++ "|" ++ qnum)
    with (String "|" (id ++ String "|" (letter ++ String "|"
            (nav_mode ++ String "|" qnum)))) in Hlen.
  rewrite !split_on_length_app in Hlen.
  pose proof (split_on_length_bar id Hid).
  pose proof (split_on_length_pos "|" "answer").
  pose proof (split_on_length_pos "|" letter).
  pose proof (split_on_length_pos "|" nav_mode).
  pose proof (split_on_length_pos "|" qnum).
  lia.
Qed.

End buttons.

(** ** More on navigation *)

Section navigation_extra.
Context `{Runtime} (json : list Question).

Lemma random_question_at (user_id : Z) (rnd : nat) (w : World) :
  json ≠ [] →
  ∃ q, json !! (rnd mod length json)%nat = Some q ∧
    random_question (load_questions json) user_id rnd w
    = send_question_universal (load_questions json) user_id q
        (Some (Str.str (Z.of_nat (1 + rnd mod length json)))) "manual" w.
Proof.
  unfold random_question, randint1, index_at.
  change (ORDERED_QUESTIONS (load_questions json)) with json.
  intros Hne.
  assert (length json ≠ 0%nat) as Hlen by (by destruct json).
  assert (rnd mod length json < length json)%nat as Hlt
    by (by apply Nat.mod_upper_bound).
  destruct (lookup_lt_is_Some_2 json _ Hlt) as [q Hq].
  exists q. split; [done|].
  apply Nat.eqb_neq in Hlen. rewrite Hlen. m_unfold.
  cbn -[Str.str Z.of_nat Nat.modulo Nat.add].
  rewrite QUESTION_INDEX_at, decide_True by lia.
  replace (Z.to_nat (Z.of_nat (1 + rnd mod length json) - 1))
    with (rnd mod length json)%nat by lia.
  by rewrite Hq.
Qed.

(** X8. [random_handler] on an empty catalog raises [ValueError] (from
    [randint(1, 0)]) with nothing sent; on a catalog with questions it
    never misses the index: it presents, in manual mode, the question at
    the position drawn, which is between 1 and the number of questions. *)
Theorem random_handler_draws_a_position (user_id : Z) (rnd : nat) (w : World) :
  (json = [] →
   random_handler (load_questions json) user_id rnd w = (inl ValueError, w)) ∧
  (json ≠ [] →
   ∃ q, json !! (rnd mod length json)%nat = Some q ∧
     random_handler (load_questions json) user_id rnd w
     = send_question_universal (load_questions json) user_id q
         (Some (Str.str (Z.of_nat (1 + rnd mod length json)))) "manual" w).
Proof.
  split.
  - by intros ->.
  - apply random_question_at.
Qed.

Lemma str_app_nil_r (s : string) : s ++ "" = s.
Proof. induction s as [|a s IH]; [done|]. by rewrite str_app_cons, IH. Qed.

Lemma words_no_space_app s t :
  Str.all_chars (λ a, negb (Str.isspace a)) s = true →
  Str.words (s ++ t) = ((s ++ (Str.words t).1), (Str.words t).2).
Proof.
  induction s as [|a s IH]; intros Hs.
  - rewrite str_app_nil_l. by destruct (Str.words t).
  - simpl in Hs. apply andb_true_iff in Hs as [Ha Hs].
    rewrite str_app_cons. simpl. rewrite (IH Hs).
    destruct (Str.isspace a); [done|]. by rewrite str_app_cons.
Qed.

Lemma split_command_token (cmd tok : string) :
  cmd ≠ "" → tok ≠ "" →
  Str.all_chars (λ a, negb (Str.isspace a)) cmd = true →
  Str.all_chars (λ a, negb (Str.isspace a)) tok = true →
  Str.split (cmd ++ " " ++ tok) = [cmd; tok].
Proof.
  intros Hcmd Htok Hc Ht. unfold Str.split.
  rewrite (words_no_space_app cmd _ Hc).
  change (" " ++ tok) with (String " " tok).
  assert (Str.words tok = (tok, [])) as Hw.
  { rewrite <-(str_app_nil_r tok) at 1.
    by rewrite (words_no_space_app tok "" Ht), str_app_nil_r. }
  simpl. rewrite Hw. simpl.
  destruct tok as [|b tok]; [done|]. simpl.
  rewrite str_app_nil_r. by destruct cmd.
Qed.

(** X9. [/goto k] for a position [k] of the catalog presents the question
    at that position, in manual mode. *)
Theorem goto_presents_the_position
    (user_id : Z) (k : Z) (q : Question) (w : World) :
  1 ≤ k → json !! Z.to_nat (k - 1) = Some q →
  goto_handler (load_questions json) user_id ("/goto " ++ Str.str k) w
  = send_question_universal (load_questions json) user_id q
      (Some (Str.str k)) "manual" w.
Proof.
  intros Hk Hq. unfold goto_handler.
  destruct (str_pos_digits k ltac:(lia)) as [Hne Hdigits].
  change ("/goto " ++ Str.str k) with ("/goto" ++ " " ++ Str.str k).
  rewrite split_command_token; [|done|done|done|].
  2:{ revert Hdigits. apply all_chars_impl. intros a Ha.
      by destruct (isdigit_char_cases a Ha) as (_ & _ & _ & _ & ->). }
  rewrite str_pos_isdigit by lia. cbn [negb].
  by rewrite QUESTION_INDEX_at, decide_True, Hq by lia.
Qed.

End navigation_extra.

Section navigation_tokens.
Context `{Runtime} (cat : Catalog).

(** X10. [nav_prev] and [nav_next] do not guard [int(qnum)]: on callback
    data whose token is not an integer literal, such as the [None] that
    the buttons carry when a question was sent without a position, they
    raise [ValueError], send nothing and change nothing. *)
Theorem nav_with_non_integer_token_raises
    (user_id : Z) (tok : string) (w : World) :
  bar_free tok = true → Str.int tok = inl ValueError →
  nav_prev cat user_id ("nav_prev|" ++ tok) w = (inl ValueError, w) ∧
  nav_next cat user_id ("nav_next|" ++ tok) w = (inl ValueError, w).
Proof.
  intros Hbar Hint. unfold nav_prev, nav_next.
  change ("nav_prev|" ++ tok) with ("nav_prev" ++ String "|" tok).
  change ("nav_next|" ++ tok) with ("nav_next" ++ String "|" tok).
  rewrite !split_on_app by done.
  rewrite (split_on_no_sep "|" tok Hbar).
  unfold unpack2. m_unfold. simpl. by rewrite Hint.
Qed.

End navigation_tokens.

(** ** Who writes which global *)

Section fields.

Lemma keeps_field_of_globals {A B} (field : State → B) (m : M A) :
  keeps_globals m → keeps_field field m.
Proof. intros Hm w. by rewrite Hm. Qed.

Lemma keeps_field_bind {A B C} (field : State → C) (m : M A) (f : A → M B) :
  keeps_field field m → (∀ a, keeps_field field (f a)) →
  keeps_field field (m ≫= f).
Proof.
  intros Hm Hf w. specialize (Hm w). m_unfold.
  destruct (m w) as [[e|a] w'] eqn:E; simpl in *; [done|].
  by rewrite Hf.
Qed.

Lemma keeps_globals_correct_option_text q :
  keeps_globals (correct_option_text q).
Proof. intros w. by rewrite correct_option_text_run. Qed.

Lemma keeps_globals_answer_result (is_correct : bool) q :
  keeps_globals (answer_result is_correct q).
Proof. intros w. by rewrite answer_result_run. Qed.

End fields.

#[export] Hint Resolve keeps_globals_correct_option_text
  keeps_globals_answer_result : frame.

Ltac field_step :=
  match goal with
  | |- keeps_field _ (_ ≫= _) => apply keeps_field_bind; [|intros ?]
  | |- keeps_field _ (match ?x with _ => _ end) => destruct x
  | |- keeps_field _ (if ?b then _ else _) => destruct b
  | |- keeps_field _ (modify _) => solve [by intros ?]
  | |- keeps_field _ _ => solve [apply keeps_field_of_globals; frame]
  end.

Section writers.
Context `{Runtime} (cat : Catalog).

Lemma keeps_seen_send_sequential user_id difficulty :
  keeps_field SEEN_USERS (send_sequential cat user_id difficulty).
Proof. unfold send_sequential. repeat field_step. Qed.

Lemma keeps_seen_level_handler user_id data :
  keeps_field SEEN_USERS (level_handler cat user_id data).
Proof.
  unfold level_handler. repeat field_step. apply keeps_seen_send_sequential.
Qed.

Lemma keeps_seen_answer_handler user_id data :
  keeps_field SEEN_USERS (answer_handler cat user_id data).
Proof.
  unfold answer_handler, continue_sequential. repeat field_step.
  apply keeps_seen_send_sequential.
Qed.

Lemma keeps_stats_level_handler user_id data :
  keeps_field USER_STATS (level_handler cat user_id data).
Proof.
  unfold level_handler. repeat field_step.
  apply keeps_stats_send_sequential.
Qed.

Lemma non_answer_keeps_stats (user_id : Z) (op : Op) (w : World) :
  (∀ data, op ≠ OpAnswer data) →
  USER_STATS (globals (run_op cat user_id op w).2) = USER_STATS (globals w).
Proof.
  intros Hop. destruct op; simpl run_op;
    try (apply (keeps_field_of_globals USER_STATS);
         first [ apply keeps_globals_intro_help
               | apply keeps_globals_goto_handler
               | apply keeps_globals_random_question
               | apply keeps_globals_stats_handler
               | apply keeps_globals_review_wrong_handler
               | apply keeps_globals_topics_handler
               | apply keeps_globals_topic_handler
               | apply keeps_globals_nav_prev
               | apply keeps_globals_nav_next ]).
  - done.
  - apply keeps_stats_level_handler.
  - apply (keeps_field_of_globals USER_STATS). unfold intro_random. frame.
    apply keeps_globals_random_question.
  - by destruct (Hop data).
  - unfold fallback_handler. destruct (Str.startswith text "/"); [done|].
    m_unfold. simpl. by case_bool_decide.
Qed.

(** X11. Only [answer_handler] writes [USER_STATS]: every other handler,
    on any input, leaves every Statistics entry as it was. *)
Theorem only_answers_write_the_ledger (user_id : Z) (op : Op) (w : World) :
  (∀ data, op ≠ OpAnswer data) →
  USER_STATS (globals (run_op cat user_id op w).2) = USER_STATS (globals w).
Proof. apply non_answer_keeps_stats. Qed.

(** X12. [SEEN_USERS] only grows, and only by the user of the update: no
    handler removes a user or adds another one, and after [/start] the
    user is in it. *)
Theorem seen_users_only_grow (user_id : Z) (op : Op) (w : World) :
  let seen := SEEN_USERS (globals w) in
  let seen' := SEEN_USERS (globals (run_op cat user_id op w).2) in
  seen ⊆ seen' ∧ seen' ⊆ seen ∪ {[user_id]} ∧
  (op = OpStart → user_id ∈ seen').
Proof.
  simpl.
  assert (∀ m : M unit, keeps_field SEEN_USERS m →
            SEEN_USERS (globals w) ⊆ SEEN_USERS (globals (m w).2) ∧
            SEEN_USERS (globals (m w).2) ⊆ SEEN_USERS (globals w) ∪ {[user_id]})
    as Hkeep.
  { intros m Hm. rewrite Hm. split; [done | apply union_subseteq_l]. }
  destruct op; simpl run_op;
    try (split; [|split; [|done]];
         apply Hkeep;
         first [ apply keeps_seen_level_handler
               | apply keeps_seen_answer_handler
               | apply keeps_field_of_globals;
                 first [ apply keeps_globals_intro_help
                       | apply keeps_globals_goto_handler
                       | apply keeps_globals_random_question
                       | apply keeps_globals_stats_handler
                       | apply keeps_globals_review_wrong_handler
                       | apply keeps_globals_topics_handler
                       | apply keeps_globals_topic_handler
                       | apply keeps_globals_nav_prev
                       | apply keeps_globals_nav_next
                       | (unfold intro_random; frame;
                          apply keeps_globals_random_question) ] ]).
  - split; [apply union_subseteq_l|]. split; [done|].
    intros _. apply elem_of_union_r, elem_of_singleton_2. done.
  - unfold fallback_handler. destruct (Str.startswith text "/").
    { split; [done|]. split; [apply union_subseteq_l | done]. }
    m_unfold. simpl. case_bool_decide; simpl.
    + split; [done|]. split; [apply union_subseteq_l | done].
    + split; [apply union_subseteq_l|]. split; done.
Qed.

(** X13. [fallback_handler] introduces itself once: a text that is not a
    command, from a user not yet seen, is answered with the intro and
    marks the user as seen; any later such text from that user gets the
    fallback message and changes nothing; a text starting with a slash is
    never answered. *)
Theorem fallback_introduces_once
    (user_id : Z) (text text' : string) (w : World) :
  Str.startswith text "/" = false → Str.startswith text' "/" = false →
  user_id ∉ SEEN_USERS (globals w) →
  let first := fallback_handler user_id text w in
  first = send_intro
            (mkWorld (add_seen user_id (globals w)) (sent w)) ∧
  fallback_handler user_id text' first.2
  = (inr tt, replied first.2 [Answer fallback_msg None]) ∧
  (∀ command w0, Str.startswith command "/" = true →
     fallback_handler user_id command w0 = (inr tt, w0)).
Proof.
  intros Htext Htext' Hunseen. simpl.
  unfold fallback_handler. rewrite Htext, Htext'.
  m_unfold. simpl. rewrite bool_decide_false by done. simpl.
  split; [done|]. split.
  - rewrite bool_decide_true; [done|].
    apply elem_of_union_r, elem_of_singleton_2. done.
  - intros command w0 ->. done.
Qed.

End writers.

(** ** The wrong-set and its review *)

Section review.
Context `{Runtime} (cat : Catalog).

Lemma answer_handler_wrong_sets_indexed user_id data w :
  wrong_sets_indexed cat (globals w) →
  wrong_sets_indexed cat (globals (answer_handler cat user_id data w).2).
Proof.
  intros Hinv.
  destruct (Str.split_on "|" data)
    as [|a [|qid [|choice [|nav_mode [|qnum [|x l]]]]]] eqn:E;
    try (rewrite answer_handler_bad_data; [done | intros; congruence]).
  destruct (od_get (QUESTION_INDEX cat) qnum) as [q|] eqn:Hq.
  2:{ by rewrite (answer_handler_unknown_position cat user_id data _ _ _ _ _ w
                    E Hq). }
  intros u stats p Hstats Hp.
  rewrite (answer_handler_stats cat user_id data _ _ _ _ _ q w E Hq) in Hstats.
  destruct (decide (u = user_id)) as [->|Hne].
  2:{ rewrite update_stats_other in Hstats by done. by eapply Hinv. }
  rewrite update_stats_entry in Hstats. injection Hstats as <-. simpl in Hp.
  assert (p = qnum ∨
          p ∈ wrong_qnums (default (mkStats 0 0 [] ∅)
                             (USER_STATS (globals w) !! user_id)))
    as [->|Hold].
  { destruct (is_correct_choice choice q).
    - right. apply elem_of_difference in Hp as [? _]. done.
    - apply elem_of_union in Hp as [?|?%elem_of_singleton]; [by right | by left]. }
  - unfold od_mem. by rewrite Hq.
  - destruct (USER_STATS (globals w) !! user_id) as [s0|] eqn:E0.
    + by eapply Hinv.
    + by apply not_elem_of_empty in Hold.
Qed.

Lemma run_op_wrong_sets_indexed user_id op w :
  wrong_sets_indexed cat (globals w) →
  wrong_sets_indexed cat (globals (run_op cat user_id op w).2).
Proof.
  intros Hinv.
  destruct op;
    try (intros u stats p;
         rewrite non_answer_keeps_stats; [apply Hinv | intros ?; discriminate]).
  by apply answer_handler_wrong_sets_indexed.
Qed.

Lemma run_ops_wrong_sets_indexed ops w :
  wrong_sets_indexed cat (globals w) →
  wrong_sets_indexed cat (globals (run_ops cat ops w)).
Proof.
  revert w. induction ops as [|[u op] ops IH]; intros w Hinv; simpl; [done|].
  apply IH. by apply run_op_wrong_sets_indexed.
Qed.

Lemma empty_ledger_wrong_sets_indexed w :
  USER_STATS (globals w) = ∅ → wrong_sets_indexed cat (globals w).
Proof. intros Hempty u stats p. by rewrite Hempty, lookup_empty. Qed.

(** X14. Whatever updates the bot has handled since it started with an
    empty ledger, every position in every wrong-set is a key of
    [QUESTION_INDEX]. *)
Theorem wrong_sets_hold_indexed_positions
    (ops : list (Z * Op)) (w : World) :
  USER_STATS (globals w) = ∅ →
  wrong_sets_indexed cat (globals (run_ops cat ops w)).
Proof.
  intros Hempty.
  by apply run_ops_wrong_sets_indexed, empty_ledger_wrong_sets_indexed.
Qed.

Lemma choice_member {A} (l : list A) (rnd : nat) (w : World) :
  l ≠ [] → ∃ x, x ∈ l ∧ choice l rnd w = (inr x, w).
Proof.
  intros Hne. unfold choice.
  assert (rnd mod length l < length l)%nat as Hlt.
  { apply Nat.mod_upper_bound. by destruct l. }
  destruct (lookup_lt_is_Some_2 l _ Hlt) as [x Hx].
  exists x. rewrite Hx. split; [|done].
  apply list_elem_of_lookup. eauto.
Qed.

Lemma review_wrong_handler_at (user_id : Z) (rnd : nat) (w : World) :
  wrong_sets_indexed cat (globals w) →
  let wrong := wrong_of (USER_STATS (globals w)) user_id in
  (wrong = ∅ →
   review_wrong_handler cat user_id rnd w
   = (inr tt, replied w [Answer no_wrong_msg None])) ∧
  (wrong ≠ ∅ →
   ∃ qnum q, qnum ∈ wrong ∧ od_get (QUESTION_INDEX cat) qnum = Some q ∧
     review_wrong_handler cat user_id rnd w
     = send_question_universal cat user_id q (Some qnum) "review" w).
Proof.
  intros Hinv wrong. subst wrong. unfold wrong_of, review_wrong_handler.
  m_unfold. simpl.
  destruct (USER_STATS (globals w) !! user_id) as [stats|] eqn:Hstats.
  2:{ split; [done | intros Hne; by destruct Hne]. }
  destruct (elements (wrong_qnums stats)) as [|p ps] eqn:Hel.
  { apply elements_empty_inv in Hel. apply leibniz_equiv in Hel.
    split; [done | intros Hne; by destruct Hne]. }
  split.
  { intros Hnone. rewrite Hnone, elements_empty in Hel. done. }
  intros _.
  destruct (choice_member (p :: ps) rnd w ltac:(done)) as (qnum & Hin & Hch).
  assert (qnum ∈ wrong_qnums stats) as Hmem
    by (apply elem_of_elements; by rewrite Hel).
  pose proof (Hinv user_id stats qnum Hstats Hmem) as Hidx.
  unfold od_mem in Hidx.
  destruct (od_get (QUESTION_INDEX cat) qnum) as [q|] eqn:Hq; [|done].
  exists qnum, q. split; [done|]. split; [done|].
  unfold index_at. m_unfold. rewrite Hch. simpl. by rewrite Hq.
Qed.

(** X15. After any history from an empty ledger, [review_wrong_handler]
    never misses: a user with no entry or an empty wrong-set gets the
    nothing-to-review message; any other user is shown, in review mode, a
    question of the index whose position is in the user's wrong-set. *)
Theorem review_wrong_shows_a_wrong_question
    (ops : list (Z * Op)) (start : World) (user_id : Z) (rnd : nat) :
  USER_STATS (globals start) = ∅ →
  let w := run_ops cat ops start in
  let wrong := wrong_of (USER_STATS (globals w)) user_id in
  (wrong = ∅ →
   review_wrong_handler cat user_id rnd w
   = (inr tt, replied w [Answer no_wrong_msg None])) ∧
  (wrong ≠ ∅ →
   ∃ qnum q, qnum ∈ wrong ∧ od_get (QUESTION_INDEX cat) qnum = Some q ∧
     review_wrong_handler cat user_id rnd w
     = send_question_universal cat user_id q (Some qnum) "review" w).
Proof.
  intros Hempty w wrong.
  apply review_wrong_handler_at, run_ops_wrong_sets_indexed.
  by apply empty_ledger_wrong_sets_indexed.
Qed.

End review.

(** ** Sequential presentation *)

Section sequential.
Context `{Runtime}.

(** The scan of [send_sequential] stops at the first entry with the id of
    [q]. *)
Lemma find_qnum_from (j : nat) (qs : list Question) (q : Question) (w : World) :
  forallb has_id qs = true →
  (∃ q', q' ∈ qs ∧ q_id q' = q_id q) →
  ∃ (i : nat) (q0 : Question),
    qs !! i = Some q0 ∧ q_id q0 = q_id q ∧
    (∀ (k : nat) q', (k < i)%nat → qs !! k = Some q' → q_id q' ≠ q_id q) ∧
    find_qnum
      (map (λ iq : nat * Question, (Str.str (Z.of_nat iq.1 + 1), iq.2))
         (enumerate_from j qs)) q w
    = (inr (Some (Str.str (Z.of_nat (j + i) + 1))), w).
Proof.
  revert j. induction qs as [|q1 qs IH]; intros j Hids (q' & Hin & Hid).
  { by apply not_elem_of_nil in Hin. }
  simpl in Hids. apply andb_prop in Hids as [Hid1 Hids].
  unfold has_id in Hid1.
  destruct (q_id q1) as [id1|] eqn:E1; [|done].
  assert (∃ qid, q_id q = Some qid) as [qid Hq].
  { apply elem_of_cons in Hin as [->|Hin].
    - exists id1. congruence.
    - rewrite forallb_forall in Hids.
      assert (has_id q' = true) as Hq'
        by (apply Hids, list_elem_of_In; done).
      unfold has_id in Hq'. rewrite Hid in Hq'.
      destruct (q_id q) as [qid|]; [by exists qid | done]. }
  destruct (decide (id1 = qid)) as [->|Hne].
  - exists 0%nat, q1. split; [done|]. split; [congruence|].
    split; [intros; lia|].
    simpl. m_unfold. simpl. rewrite E1, Hq. simpl.
    rewrite String.eqb_refl. by rewrite Nat.add_0_r.
  - assert (∃ q', q' ∈ qs ∧ q_id q' = q_id q) as Hex.
    { apply elem_of_cons in Hin as [->|Hin]; [congruence|]. eauto. }
    destruct (IH (S j) Hids Hex) as (i & q0 & Hi & Hid0 & Hfirst & Hrun).
    exists (S i), q0. split; [done|]. split; [done|]. split.
    + intros [|k] q'' Hk Hlk; simpl in Hlk.
      * injection Hlk as <-. congruence.
      * apply (Hfirst k); [lia | done].
    + simpl. m_unfold. simpl. rewrite E1, Hq. simpl.
      apply String.eqb_neq in Hne. rewrite Hne.
      rewrite Hrun. by rewrite Nat.add_succ_r.
Qed.

Lemma send_sequential_at cat user_id difficulty (p : Progress) q w :
  USER_PROGRESS (globals w) !! user_id = Some p →
  p_difficulty p = difficulty →
  get_questions_by_difficulty cat difficulty !! p_index p = Some q →
  send_sequential cat user_id difficulty w
  = (qnum ← find_qnum (QUESTION_INDEX cat) q;
     send_question_universal cat user_id q qnum "sequential") w.
Proof.
  intros Hp Hd Hq. unfold send_sequential.
  destruct (get_questions_by_difficulty cat difficulty) as [|q1 qs] eqn:E;
    [done|].
  m_unfold. cbn -[find_qnum send_question_universal lookup].
  rewrite Hp, Hd, String.eqb_refl.
  cbn -[find_qnum send_question_universal lookup]. by rewrite Hq.
Qed.

(** X16. With a session at cursor [i] of a level whose [i]-th question is
    [q], and every catalog entry carrying an id, [send_sequential] presents
    [q] in sequential mode, labelled with the first catalog position whose
    id equals the id of [q]: the position of [q] itself when ids are
    distinct. *)
Theorem sequential_presents_the_cursor_question
    (json : list Question) (user_id : Z) (difficulty : string)
    (p : Progress) (q : Question) (w : World) :
  forallb has_id json = true →
  USER_PROGRESS (globals w) !! user_id = Some p →
  p_difficulty p = difficulty →
  get_questions_by_difficulty (load_questions json) difficulty !! p_index p
  = Some q →
  ∃ (i : nat) (q0 : Question),
    json !! i = Some q0 ∧ q_id q0 = q_id q ∧
    (∀ (k : nat) q', (k < i)%nat → json !! k = Some q' → q_id q' ≠ q_id q) ∧
    (NoDup (map q_id json) → q0 = q) ∧
    send_sequential (load_questions json) user_id difficulty w
    = send_question_universal (load_questions json) user_id q
        (Some (Str.str (Z.of_nat i + 1))) "sequential" w.
Proof.
  intros Hids Hp Hd Hq.
  assert (q ∈ json) as Hin.
  { apply list_elem_of_lookup_2 in Hq.
    unfold get_questions_by_difficulty in Hq.
    apply list_elem_of_filter in Hq as [_ Hq]. done. }
  destruct (find_qnum_from 0 json q w Hids) as (i & q0 & Hi & Hid & Hfirst & Hrun);
    [by exists q|].
  exists i, q0. split; [done|]. split; [done|]. split; [done|]. split.
  - intros Hnd. apply list_elem_of_lookup_1 in Hin as [k Hk].
    assert (i = k) as ->; [|congruence].
    apply (NoDup_lookup (map q_id json) i k (q_id q) Hnd).
    + by rewrite list_lookup_fmap, Hi, <- Hid.
    + by rewrite list_lookup_fmap, Hk.
  - rewrite (send_sequential_at _ user_id difficulty p q w Hp Hd Hq).
    rewrite QUESTION_INDEX_loaded. unfold index_items.
    m_unfold. by rewrite Hrun.
Qed.

(** X17. At the end of a level [send_sequential] presents nothing: for a
    session of the level whose cursor is at or past the number of its
    questions, the only effect is one message, the empty-level notice when
    the level has no question and the level-finished notice otherwise. *)
Theorem sequential_at_level_end cat
    (user_id : Z) (difficulty : string) (p : Progress) (w : World) :
  USER_PROGRESS (globals w) !! user_id = Some p →
  p_difficulty p = difficulty →
  (length (get_questions_by_difficulty cat difficulty) ≤ p_index p)%nat →
  send_sequential cat user_id difficulty w
  = (inr tt,
     replied w
       [SendMessage user_id
          (if decide (get_questions_by_difficulty cat difficulty = [])
           then level_empty_msg else level_done_msg) None]).
Proof.
  intros Hp Hd Hlen. unfold send_sequential.
  destruct (get_questions_by_difficulty cat difficulty) as [|q1 qs] eqn:E;
    [done|].
  rewrite decide_False by done.
  m_unfold. cbn -[lookup]. rewrite Hp, Hd, String.eqb_refl. cbn -[lookup].
  by rewrite (lookup_ge_None_2 _ _ Hlen).
Qed.

End sequential.

(** ** Typed commands *)

Section commands.
Context `{Runtime} (json : list Question).

Lemma presentable_indexed (qnum : string) (q : Question) :
  catalog_presentable (load_questions json) = true →
  od_get (QUESTION_INDEX (load_questions json)) qnum = Some q →
  presentable q = true.
Proof.
  unfold catalog_presentable. rewrite forallb_forall. intros Hall Hq.
  apply od_get_Some_elem, list_elem_of_In in Hq. apply (Hall _ Hq).
Qed.

Lemma send_question_universal_returns cat user_id q qnum nav_mode w :
  presentable q = true →
  (send_question_universal cat user_id q qnum nav_mode w).1 = inr tt.
Proof.
  intros Hp.
  destruct (send_question_universal_ok cat user_id q qnum nav_mode w Hp)
    as (o & kb & -> & _).
  done.
Qed.

Lemma send_indexed_returns user_id qnum q nav_mode w :
  catalog_presentable (load_questions json) = true →
  od_get (QUESTION_INDEX (load_questions json)) qnum = Some q →
  (send_question_universal (load_questions json) user_id q (Some qnum)
     nav_mode w).1 = inr tt.
Proof.
  intros Hpres Hq.
  by apply send_question_universal_returns, (presentable_indexed qnum).
Qed.

Lemma send_topic_question_returns user_id (canon : string) rnd w :
  catalog_presentable (load_questions json) = true →
  canon ∈ od_keys (TOPIC_INDEX (load_questions json)) →
  (send_topic_question (load_questions json) user_id canon rnd w).1 = inr tt.
Proof.
  intros Hpres Hc. unfold send_topic_question, index_at.
  destruct (od_get (TOPIC_INDEX (load_questions json)) canon) as [l|] eqn:Hl.
  2:{ by apply od_get_None in Hl. }
  assert (l ≠ []) as Hne.
  { revert Hl.
    change (TOPIC_INDEX (load_questions json))
      with (foldl add_topic [] (QUESTION_INDEX (load_questions json))).
    by apply foldl_add_topic_lists_nonempty. }
  destruct (choice_member l rnd w Hne) as (qnum & Hin & Hch).
  assert (listed_under (TOPIC_INDEX (load_questions json)) canon qnum)
    as Hlisted by (by exists l).
  revert Hlisted.
  change (TOPIC_INDEX (load_questions json))
    with (foldl add_topic [] (QUESTION_INDEX (load_questions json))).
  rewrite foldl_add_topic_listed.
  intros [(l0 & Hl0 & _)|(_ & q & Hq & _)]; [done|].
  apply od_get_elem_nodup in Hq.
  2:{ rewrite QUESTION_INDEX_loaded. apply index_items_from_nodup. }
  pose proof (send_indexed_returns user_id qnum q "manual" w Hpres Hq) as Hsend.
  m_unfold. simpl. rewrite Hch. simpl. simpl in Hq. rewrite Hq. done.
Qed.

Lemma resolve_topic_known (query canon : string) :
  resolve_topic (load_questions json) query = Some canon →
  canon ∈ od_keys (TOPIC_INDEX (load_questions json)).
Proof.
  unfold resolve_topic.
  destruct (od_get (TOPIC_NAME_MAP (load_questions json)) query)
    as [c|] eqn:Hget.
  - intros [= ->]. apply od_get_Some_elem in Hget.
    by apply TOPIC_NAME_MAP_elem in Hget as [? _].
  - intros (low & Hin & _)%first_prefix_Some.
    by apply TOPIC_NAME_MAP_elem in Hin as [? _].
Qed.

(** X18. On a catalog that is not empty and whose questions all have
    options (and an id when they have an option), no handler of a typed
    message raises, whatever the text, whatever the bot has handled
    before since it started with an empty ledger: [/start], [/goto],
    [/random], [/stats], [/review_wrong], [/topics], [/topic] and the
    fallback all return normally. *)
Theorem typed_commands_return
    (ops : list (Z * Op)) (start : World) (user_id : Z) (op : Op) :
  json ≠ [] →
  catalog_presentable (load_questions json) = true →
  USER_STATS (globals start) = ∅ →
  typed op = true →
  (run_op (load_questions json) user_id op
     (run_ops (load_questions json) ops start)).1 = inr tt.
Proof.
  intros Hne Hpres Hempty Htyped.
  pose proof (run_ops_wrong_sets_indexed (load_questions json) ops start
                (empty_ledger_wrong_sets_indexed _ start Hempty)) as Hinv.
  set (w := run_ops (load_questions json) ops start) in *.
  destruct op as [| | | |text|rnd| |rnd| |text rnd| | | |text];
    try discriminate Htyped; unfold run_op.
  - reflexivity.
  - unfold goto_handler.
    destruct (Str.split text) as [|a [|qnum [|x l]]]; try reflexivity.
    destruct (Str.isdigit qnum); [|reflexivity]. cbn [negb].
    destruct (od_get (QUESTION_INDEX (load_questions json)) qnum)
      as [q|] eqn:Hq; [|reflexivity].
    by apply (send_indexed_returns user_id qnum).
  - unfold random_handler.
    destruct (random_question_at json user_id rnd w Hne) as (q & Hq & ->).
    apply send_indexed_returns; [done|].
    apply QUESTION_INDEX_lookup. exists (rnd mod length json)%nat.
    split; [|done]. f_equal. lia.
  - unfold stats_handler. m_unfold.
    destruct (USER_STATS (globals w) !! user_id) as [stats|]; [|reflexivity].
    destruct (total stats =? 0)%nat; reflexivity.
  - destruct (review_wrong_handler_at (load_questions json) user_id rnd w Hinv)
      as [Hnone Hsome].
    destruct (decide (wrong_of (USER_STATS (globals w)) user_id = ∅))
      as [Hw|Hw].
    + by rewrite (Hnone Hw).
    + destruct (Hsome Hw) as (qnum & q & _ & Hq & ->).
      by apply (send_indexed_returns user_id qnum).
  - unfold topics_handler.
    by destruct (TOPIC_INDEX (load_questions json)).
  - unfold topic_handler.
    destruct (Str.split_max1 text) as [|a [|arg [|x l]]]; try reflexivity.
    destruct (resolve_topic (load_questions json) (lower (Str.strip arg)))
      as [canon|] eqn:Hres; [|reflexivity].
    pose proof (resolve_topic_known _ _ Hres) as Hc.
    pose proof (TOPIC_INDEX_nonempty json canon Hc) as Hcne.
    simpl. destruct (String.eqb_spec canon ""); [done|]. simpl.
    by apply send_topic_question_returns.
  - unfold fallback_handler.
    destruct (Str.startswith text "/"); [reflexivity|]. m_unfold.
    by destruct (bool_decide (user_id ∈ SEEN_USERS (globals w))).
Qed.

End commands.

(** ** More on the analytics store *)

Section analytics_extra.
Import Db.
Context `{Values}.

Lemma fmap_raises {A B} (f : A → B) (r : exn + A) (e : exn) :
  f <$> r = inl e ↔ r = inl e.
Proof. destruct r; simpl; split; congruence. Qed.

Lemma try_return_returns {A} (body : exn + A) (zero : A) :
  ∃ a, try_return body zero = inr a.
Proof. destruct body; simpl; eauto. Qed.

(** [get_conn] around a body that does not raise: the only exception is
    the one for a failed release. *)
Lemma get_conn_raises_iff {A} (pool : option Pool)
    (body : option Connection → exn + A) (e : exn) :
  (∀ conn, ∃ a, body conn = inr a) →
  Db.get_conn pool body = inl e
  ↔ e = RuntimeError ∧
    ∃ p conn ex, pool = Some p ∧ acquire p = inr conn ∧ release p = Some ex.
Proof.
  intros Hbody. unfold Db.get_conn.
  destruct pool as [p|].
  2:{ destruct (Hbody None) as [a ->].
      split; [done | intros (_ & ? & ? & ? & ? & _); done]. }
  destruct (acquire p) as [e0|conn] eqn:Ha.
  { destruct (Hbody None) as [a ->].
    split; [done | intros (_ & ? & ? & ? & [= <-] & ? & _); congruence]. }
  destruct (Hbody (Some conn)) as [a ->].
  destruct (release p) as [ex|] eqn:Hr.
  - split; [intros [= <-]; split; [done | by exists p, conn, ex] | by intros [-> _]].
  - split; [done | intros (_ & ? & ? & ? & [= <-] & _ & ?); congruence].
Qed.

Lemma guarded_query_raises_iff {A} (env : Env)
    (query : Connection → exn + A) (zero : A) (e : exn) :
  Db.get_conn (_pool env) (λ conn,
    match conn with
    | None => inr zero
    | Some conn => try_return (query conn) zero
    end) = inl e
  ↔ e = RuntimeError ∧
    ∃ p conn ex,
      _pool env = Some p ∧ acquire p = inr conn ∧ release p = Some ex.
Proof.
  apply get_conn_raises_iff.
  intros [conn|]; [apply try_return_returns | by exists zero].
Qed.

(** X19. A read query raises in one case only: a connection was acquired
    and giving it back raises; the exception is then the [RuntimeError]
    of the context manager, whatever the statement did. *)
Theorem read_queries_raise_only_when_release_fails
    (env : Env) (q : ReadQuery) (e : exn) :
  run_query env q = inl e
  ↔ e = RuntimeError ∧
    ∃ p conn ex,
      _pool env = Some p ∧ acquire p = inr conn ∧ release p = Some ex.
Proof.
  destruct q; simpl; rewrite fmap_raises;
    apply guarded_query_raises_iff.
Qed.

End analytics_extra.

Section write_extra.
Import Db DbWrite.
Context `{Values} (execute : Connection → Statement → option exn).

Lemma executed_one (conn : Connection) (stmt : Statement) :
  executed execute conn [stmt]
  = if bool_decide (execute conn stmt = None) then [stmt] else [].
Proof.
  unfold executed. rewrite filter_cons, filter_nil.
  by destruct (decide (execute conn stmt = None));
    [rewrite bool_decide_true | rewrite bool_decide_false].
Qed.

Lemma executed_app (conn : Connection) (l1 l2 : list Statement) :
  executed execute conn (l1 ++ l2)%list
  = (executed execute conn l1 ++ executed execute conn l2)%list.
Proof. apply filter_app. Qed.

Lemma try_true_run_execute (conn : Connection) (stmt : Statement) (log : Log) :
  try_true (run_execute execute conn stmt) log
  = (inr (bool_decide (execute conn stmt = None)),
     (log ++ executed execute conn [stmt])%list).
Proof.
  unfold try_true, run_execute. rewrite executed_one.
  destruct (execute conn stmt) as [e|]; simpl; [|done].
  by rewrite app_nil_r.
Qed.

Lemma ensure_user_run (env : Env) (p : Pool) (conn : Connection)
    user_id username first_name last_name (log : Log) :
  _pool env = Some p → acquire p = inr conn →
  ensure_user execute env user_id username first_name last_name log
  = (match release p with
     | None =>
         inr (bool_decide
                (execute conn
                   (UpsertUser user_id username first_name last_name) = None))
     | Some _ => inl RuntimeError
     end,
     (log ++ executed execute conn
        [UpsertUser user_id username first_name last_name])%list).
Proof.
  intros Hp Ha. unfold ensure_user, DbWrite.get_conn.
  rewrite Hp, Ha, try_true_run_execute. by destruct (release p).
Qed.

(** X20. Without a store (no pool, or no connection can be acquired)
    [ensure_user], [log_event] and [log_attempt] return [False] and execute
    nothing. *)
Theorem writes_without_store_return_false
    (env : Env) (c : WriteCall) (log : Log) :
  (∀ p conn, _pool env = Some p → acquire p ≠ inr conn) →
  run_write execute env c log = (inr false, log).
Proof.
  intros Hno.
  assert (∀ body : option Connection → W bool,
            body None log = (inr false, log) →
            DbWrite.get_conn (_pool env) body log = (inr false, log)) as Hget.
  { intros body Hbody. unfold DbWrite.get_conn.
    destruct (_pool env) as [p|]; [|done].
    destruct (acquire p) as [e|conn] eqn:Ha; [done|].
    by destruct (Hno p conn). }
  destruct c; simpl; by apply Hget.
Qed.

(** X21. With a store that gives and takes back its connection,
    [ensure_user], [log_event] and [log_attempt] do not raise and return
    whether their own statement was executed. [log_event] and
    [log_attempt] first try the upsert of the user row, with no names, and
    go on to their insert whether or not that upsert was executed. *)
Theorem writes_report_their_own_statement
    (env : Env) (p : Pool) (conn : Connection) (c : WriteCall) (log : Log) :
  _pool env = Some p → acquire p = inr conn → release p = None →
  run_write execute env c log
  = (inr (bool_decide (execute conn (own_statement c) = None)),
     (log ++ executed execute conn (user_upsert c ++ [own_statement c]))%list).
Proof.
  intros Hp Ha Hr.
  assert (∀ user_id stmt log0,
            try_true (after_ensure_user execute env user_id conn stmt) log0
            = (inr (bool_decide (execute conn stmt = None)),
               (log0 ++ executed execute conn
                  [UpsertUser user_id None None None; stmt])%list)) as Hbody.
  { intros user_id stmt log0. unfold after_ensure_user, try_true at 1.
    rewrite (ensure_user_run env p conn _ _ _ _ log0 Hp Ha), Hr.
    pose proof (try_true_run_execute conn stmt) as Hstmt.
    unfold try_true in Hstmt.
    match goal with
    | |- context [run_execute execute conn stmt ?l] =>
        specialize (Hstmt l); destruct (run_execute execute conn stmt l)
          as [[e|[]] log2]
    end; injection Hstmt as <- ->;
      change [UpsertUser user_id None None None; stmt]
        with ([UpsertUser user_id None None None] ++ [stmt])%list;
      by rewrite executed_app, app_assoc. }
  destruct c; simpl.
  - rewrite (ensure_user_run env p conn _ _ _ _ log Hp Ha), Hr. done.
  - unfold log_event, DbWrite.get_conn. by rewrite Hp, Ha, Hbody, Hr.
  - unfold log_attempt, DbWrite.get_conn. by rewrite Hp, Ha, Hbody, Hr.
Qed.

(** X22. When giving the connection back raises, each write function
    raises [RuntimeError]. [ensure_user] has executed its upsert by then;
    [log_event] and [log_attempt] have only tried the upsert of the user
    row: the [RuntimeError] of the inner [ensure_user] is caught by their
    [except] clause, so their own insert is never executed. *)
Theorem writes_raise_when_release_fails
    (env : Env) (p : Pool) (conn : Connection) (ex : exn)
    (c : WriteCall) (log : Log) :
  _pool env = Some p → acquire p = inr conn → release p = Some ex →
  run_write execute env c log
  = (inl RuntimeError,
     (log ++ executed execute conn
        match c with
        | EnsureUser _ _ _ _ => [own_statement c]
        | _ => user_upsert c
        end)%list).
Proof.
  intros Hp Ha Hr.
  assert (∀ user_id stmt log0,
            try_true (after_ensure_user execute env user_id conn stmt) log0
            = (inr false,
               (log0 ++ executed execute conn
                  [UpsertUser user_id None None None])%list)) as Hbody.
  { intros user_id stmt log0. unfold after_ensure_user, try_true.
    by rewrite (ensure_user_run env p conn _ _ _ _ log0 Hp Ha), Hr. }
  destruct c; simpl.
  - rewrite (ensure_user_run env p conn _ _ _ _ log Hp Ha), Hr. done.
  - unfold log_event, DbWrite.get_conn. by rewrite Hp, Ha, Hbody, Hr.
  - unfold log_attempt, DbWrite.get_conn. by rewrite Hp, Ha, Hbody, Hr.
Qed.

End write_extra.

(** ** More on answers *)

Section answer_extra.
Context `{Runtime} (cat : Catalog).

(** X23. An incorrect answer to a question whose correct letter is not
    among its options is counted before the handler fails: the ledger is
    updated, then [q['options'][correct]] raises [KeyError], and neither
    feedback nor [callback.answer()] is sent. *)
Theorem answer_is_counted_before_feedback_fails
    (user_id : Z) (data a qid choice nav_mode qnum : string)
    (q : Question) (w : World) :
  Str.split_on "|" data = [a; qid; choice; nav_mode; qnum] →
  od_get (QUESTION_INDEX cat) qnum = Some q →
  well_formed q = false →
  is_correct_choice choice q = false →
  answer_handler cat user_id data w
  = (inl KeyError,
     mkWorld (set_stats (update_stats user_id q qnum false) (globals w))
       (sent w)).
Proof.
  intros Hsplit Hq Hwf Hwrong.
  rewrite (answer_handler_run cat user_id data _ _ _ _ _ q w Hsplit Hq).
  cbv zeta. rewrite Hwrong. unfold result_line.
  unfold well_formed in Hwf. by destruct (option_text_of q).
Qed.

(** X24. [answer_handler] does not read the id field of the callback data:
    two answers that differ only there (and in the first field) have the
    same effect. The question judged is the one at the position field. *)
Theorem answer_ignores_the_id_field
    (user_id : Z) (data1 data2 a1 a2 qid1 qid2 choice nav_mode qnum : string)
    (w : World) :
  Str.split_on "|" data1 = [a1; qid1; choice; nav_mode; qnum] →
  Str.split_on "|" data2 = [a2; qid2; choice; nav_mode; qnum] →
  answer_handler cat user_id data1 w = answer_handler cat user_id data2 w.
Proof.
  intros H1 H2.
  destruct (od_get (QUESTION_INDEX cat) qnum) as [q|] eqn:Hq.
  - by rewrite (answer_handler_run cat user_id data1 _ _ _ _ _ q w H1 Hq),
      (answer_handler_run cat user_id data2 _ _ _ _ _ q w H2 Hq).
  - by rewrite (answer_handler_unknown_position cat user_id data1 _ _ _ _ _ w
                  H1 Hq),
      (answer_handler_unknown_position cat user_id data2 _ _ _ _ _ w H2 Hq).
Qed.

End answer_extra.

(** ** The further properties at work on the sample catalog *)

Section sample_extra.
Local Existing Instance Sample.runtime.
Local Existing Instance Sample.values.

(** X6 on the sample: pressing button A under the first question counts
    an answer to the first question. *)
Lemma answer_button_round_trip_sample :
  answer_buttons Sample.q1 [("A", "4"); ("B", "5")] "manual"
    (Some (Str.str (Z.of_nat 0 + 1))) Sample.start
  = (inr [mkButton "A" "answer|q1|A|manual|1";
          mkButton "B" "answer|q1|B|manual|1"], Sample.start) ∧
  USER_STATS
    (globals (answer_handler (load_questions Sample.json) 7
                "answer|q1|A|manual|1" Sample.start).2)
  = update_stats 7 Sample.q1 (Str.str (Z.of_nat 0 + 1))
      (is_correct_choice "A" Sample.q1) (USER_STATS (globals Sample.start)).
Proof.
  split; [vm_compute; reflexivity|].
  apply (answer_button_round_trip Sample.json 7 0 Sample.q1 "q1" "manual"
           [("A", "4"); ("B", "5")] (mkButton "A" "answer|q1|A|manual|1")
           [mkButton "A" "answer|q1|A|manual|1";
            mkButton "B" "answer|q1|B|manual|1"]
           Sample.start Sample.start);
    try (vm_compute; reflexivity).
  apply elem_of_cons. left. reflexivity.
Defined.

(** X7 on the sample: an id with a bar in it. *)
Lemma answer_button_with_bar_in_id_sample :
  bar_free "q|1" = false ∧
  answer_handler Sample.catalog 7
    ("answer|" ++ "q|1" ++ "|" ++ "A" ++ "|" ++ "manual" ++ "|" ++ "1")
    Sample.start
  = (inl ValueError, Sample.start).
Proof.
  split; [vm_compute; reflexivity|].
  apply (answer_button_with_bar_in_id_raises Sample.catalog 7 "q|1" "A"
           "manual" "1" Sample.start).
  vm_compute. reflexivity.
Defined.

(** X9 on the sample: [/goto 2]. *)
Lemma goto_presents_the_position_sample :
  Sample.json !! Z.to_nat (2 - 1) = Some Sample.q2 ∧
  goto_handler (load_questions Sample.json) 7 ("/goto " ++ Str.str 2)
    Sample.start
  = send_question_universal (load_questions Sample.json) 7 Sample.q2
      (Some (Str.str 2)) "manual" Sample.start.
Proof.
  split; [reflexivity|].
  apply (goto_presents_the_position Sample.json 7 2 Sample.q2 Sample.start);
    [lia | reflexivity].
Defined.

(** X10 on the sample: the position token of a question presented
    without a position. *)
Lemma nav_with_non_integer_token_sample :
  Str.int "None" = inl ValueError ∧
  nav_prev Sample.catalog 7 ("nav_prev|" ++ "None") Sample.start
  = (inl ValueError, Sample.start) ∧
  nav_next Sample.catalog 7 ("nav_next|" ++ "None") Sample.start
  = (inl ValueError, Sample.start).
Proof.
  split; [vm_compute; reflexivity|].
  apply (nav_with_non_integer_token_raises Sample.catalog 7 "None"
           Sample.start);
    vm_compute; reflexivity.
Defined.

(** X11 on the sample: picking a level writes no Statistics entry. *)
Lemma only_answers_write_the_ledger_sample :
  USER_STATS
    (globals (run_op Sample.catalog 7 (OpLevel "level|easy") Sample.start).2)
  = USER_STATS (globals Sample.start).
Proof.
  apply (only_answers_write_the_ledger Sample.catalog 7 (OpLevel "level|easy")
           Sample.start).
  intros data. discriminate.
Defined.

(** X13 on the sample: two plain messages of a new user. *)
Lemma fallback_introduces_once_sample :
  (7 ∉ SEEN_USERS (globals Sample.start)) ∧
  fallback_handler 7 "hello" (fallback_handler 7 "hi" Sample.start).2
  = (inr tt,
     replied (fallback_handler 7 "hi" Sample.start).2
       [Answer fallback_msg None]).
Proof.
  assert (7 ∉ SEEN_USERS (globals Sample.start)) as Hnew
    by apply not_elem_of_empty.
  split; [exact Hnew|].
  apply (fallback_introduces_once 7 "hi" "hello" Sample.start);
    [reflexivity | reflexivity | exact Hnew].
Defined.

(** X14 on the sample: after a wrong answer to the first question. *)
Lemma wrong_sets_hold_indexed_positions_sample :
  wrong_sets_indexed Sample.catalog
    (globals (run_ops Sample.catalog [(7, OpAnswer "answer|q1|B|manual|1")]
                Sample.start)).
Proof.
  apply (wrong_sets_hold_indexed_positions Sample.catalog
           [(7, OpAnswer "answer|q1|B|manual|1")] Sample.start).
  reflexivity.
Defined.

(** X15 on the sample: the review after a wrong answer to the first
    question. *)
Lemma review_wrong_shows_a_wrong_question_sample :
  let w := run_ops Sample.catalog [(7, OpAnswer "answer|q1|B|manual|1")]
             Sample.start in
  let wrong := wrong_of (USER_STATS (globals w)) 7 in
  (wrong = ∅ →
   review_wrong_handler Sample.catalog 7 0 w
   = (inr tt, replied w [Answer no_wrong_msg None])) ∧
  (wrong ≠ ∅ →
   ∃ qnum q, qnum ∈ wrong ∧
     od_get (QUESTION_INDEX Sample.catalog) qnum = Some q ∧
     review_wrong_handler Sample.catalog 7 0 w
     = send_question_universal Sample.catalog 7 q (Some qnum) "review" w).
Proof.
  apply (review_wrong_shows_a_wrong_question Sample.catalog
           [(7, OpAnswer "answer|q1|B|manual|1")] Sample.start 7 0).
  reflexivity.
Defined.

(** X16 on the sample: the first question of the easy level. *)
Lemma sequential_presents_the_cursor_question_sample :
  USER_PROGRESS (globals (Sample.picked_easy 7)) !! 7
  = Some (mkProgress "easy" 0) ∧
  ∃ (i : nat) (q0 : Question),
    Sample.json !! i = Some q0 ∧ q_id q0 = q_id Sample.q1 ∧
    (∀ (k : nat) q', (k < i)%nat → Sample.json !! k = Some q' →
       q_id q' ≠ q_id Sample.q1) ∧
    (NoDup (map q_id Sample.json) → q0 = Sample.q1) ∧
    send_sequential (load_questions Sample.json) 7 "easy" (Sample.picked_easy 7)
    = send_question_universal (load_questions Sample.json) 7 Sample.q1
        (Some (Str.str (Z.of_nat i + 1))) "sequential" (Sample.picked_easy 7).
Proof.
  split; [vm_compute; reflexivity|].
  apply (sequential_presents_the_cursor_question Sample.json 7 "easy"
           (mkProgress "easy" 0) Sample.q1 (Sample.picked_easy 7));
    vm_compute; reflexivity.
Defined.

(** X17 on the sample: a level without questions. *)
Lemma sequential_at_level_end_sample :
  let w := (level_handler Sample.catalog 7 "level|hard" Sample.start).2 in
  USER_PROGRESS (globals w) !! 7 = Some (mkProgress "hard" 0) ∧
  send_sequential Sample.catalog 7 "hard" w
  = (inr tt,
     replied w
       [SendMessage 7
          (if decide (get_questions_by_difficulty Sample.catalog "hard" = [])
           then level_empty_msg else level_done_msg) None]).
Proof.
  split; [vm_compute; reflexivity|].
  apply (sequential_at_level_end Sample.catalog 7 "hard"
           (mkProgress "hard" 0)
           (level_handler Sample.catalog 7 "level|hard" Sample.start).2);
    [vm_compute; reflexivity | reflexivity | vm_compute; lia].
Defined.

(** X18 on the sample: [/review_wrong] after a wrong answer. *)
Lemma typed_commands_return_sample :
  catalog_presentable (load_questions Sample.json) = true ∧
  (run_op (load_questions Sample.json) 7 (OpReviewWrong 0)
     (run_ops (load_questions Sample.json)
        [(7, OpAnswer "answer|q1|B|manual|1")] Sample.start)).1
  = inr tt.
Proof.
  split; [vm_compute; reflexivity|].
  apply (typed_commands_return Sample.json
           [(7, OpAnswer "answer|q1|B|manual|1")] Sample.start 7
           (OpReviewWrong 0));
    [discriminate | vm_compute; reflexivity | reflexivity | reflexivity].
Defined.

(** X20 on the sample: logging an event without a pool. *)
Lemma writes_without_store_sample :
  DbWrite.run_write SampleWrite.execute Sample.no_store
    (DbWrite.LogEvent 7 "start" None) []
  = (inr false, []).
Proof.
  apply (writes_without_store_return_false SampleWrite.execute Sample.no_store
           (DbWrite.LogEvent 7 "start" None) []).
  intros p conn Hp. discriminate Hp.
Defined.

(** X21 on the sample: the upsert of the user row is refused, the event is
    inserted all the same and [log_event] returns [True]. *)
Lemma writes_report_their_own_statement_sample :
  DbWrite.run_write SampleWrite.execute Sample.broken_store
    (DbWrite.LogEvent 7 "start" None) []
  = (inr true, [DbWrite.InsertEvent 7 "start" []]).
Proof.
  apply (writes_report_their_own_statement SampleWrite.execute
           Sample.broken_store
           (Db.mkPool (inr Sample.broken_connection) None)
           Sample.broken_connection (DbWrite.LogEvent 7 "start" None) []);
    reflexivity.
Defined.

(** X22 on the sample: a pool that raises when the connection is given
    back. *)
Lemma writes_raise_when_release_fails_sample :
  DbWrite.run_write SampleWrite.execute Sample.leaking_store
    (DbWrite.LogEvent 7 "start" None) []
  = (inl RuntimeError, []).
Proof.
  apply (writes_raise_when_release_fails SampleWrite.execute
           Sample.leaking_store
           (Db.mkPool (inr Sample.broken_connection) (Some DatabaseError))
           Sample.broken_connection DatabaseError
           (DbWrite.LogEvent 7 "start" None) []);
    reflexivity.
Defined.

(** X23 on a question whose answer letter C is not among its options A
    and B. *)
Lemma answer_is_counted_before_feedback_fails_sample :
  let q := Sample.question "q4" "C" "easy" "Algebra" in
  well_formed q = false ∧
  answer_handler (load_questions [q]) 7 "answer|q4|A|manual|1" Sample.start
  = (inl KeyError,
     mkWorld (set_stats (update_stats 7 q "1" false) (globals Sample.start))
       (sent Sample.start)).
Proof.
  split; [vm_compute; reflexivity|].
  apply (answer_is_counted_before_feedback_fails
           (load_questions [Sample.question "q4" "C" "easy" "Algebra"]) 7
           "answer|q4|A|manual|1" "answer" "q4" "A" "manual" "1"
           (Sample.question "q4" "C" "easy" "Algebra") Sample.start);
    vm_compute; reflexivity.
Defined.

(** X24 on the sample: the id field changed from q1 to zz. *)
Lemma answer_ignores_the_id_field_sample :
  answer_handler Sample.catalog 7 "answer|q1|A|manual|1" Sample.start
  = answer_handler Sample.catalog 7 "answer|zz|A|manual|1" Sample.start.
Proof.
  apply (answer_ignores_the_id_field Sample.catalog 7
           "answer|q1|A|manual|1" "answer|zz|A|manual|1"
           "answer" "answer" "q1" "zz" "A" "manual" "1" Sample.start);
    vm_compute; reflexivity.
Defined.

End sample_extra.
